(** * car_value: the projection engine of the Streamlit dashboard

    A shallow embedding of

    - [app/streamlit/utils/prediction_logic.py]
      ([calculate_years_and_kms], [validate_selections], [validate_payloads],
      [validate_predictions]),
    - [app/streamlit/utils/data_processing.py]
      ([build_prediction_payloads], [calculate_depreciation_metrics],
      [calculate_brand_comparison_data]),
    - the [predict_clicked] handler of [app/streamlit/pages/predictor.py],

    together with the properties the specification states about them.

    Python [int] is [Z].  Python [float] and the [float64] cells of a pandas
    column are IEEE 754 binary64 numbers, taken from the Standard Library's
    [SpecFloat] at precision 53 and maximal exponent 1024, so that every
    quotient, product and difference below is rounded exactly as the
    interpreter rounds it.  A raised exception is a value of [result]. *)

From Stdlib Require Import ZArith List Bool String Lia SpecFloat.
From stdpp Require Import base option list gmap strings sorting.
Import ListNotations.

Local Open Scope Z_scope.

(** ** Exceptions *)

Inductive exn : Type :=
  | ZeroDivisionError
  | OverflowError
  | ValueError
  | KeyError
  | IndexError.

Inductive result (A : Type) : Type :=
  | Ok (a : A)
  | Raise (e : exn).
Arguments Ok {A} a.
Arguments Raise {A} e.

#[global] Instance result_ret : MRet result := fun _ a => Ok a.
#[global] Instance result_bind : MBind result := fun _ _ f r =>
  match r with
  | Ok a => f a
  | Raise e => Raise e
  end.

#[global] Instance result_fmap : FMap result := fun _ _ f r =>
  match r with
  | Ok a => Ok (f a)
  | Raise e => Raise e
  end.

Definition returns {A} (r : result A) : Prop := exists a, r = Ok a.

(** ** Binary64 arithmetic as Python and numpy use it *)

Abbreviation float := spec_float.

Module F64.

Definition prec : Z := 53.
Definition emax : Z := 1024.

Definition add : float -> float -> float := SFadd prec emax.
Definition sub : float -> float -> float := SFsub prec emax.
Definition mul : float -> float -> float := SFmul prec emax.
Definition div : float -> float -> float := SFdiv prec emax.
Definition abs : float -> float := SFabs.
Definition ltb : float -> float -> bool := SFltb.
Definition eqb : float -> float -> bool := SFeqb.

(** The float nearest to an integer (ties to even). *)
Definition of_int (z : Z) : float := binary_normalize prec emax z 0 false.

Definition zero : float := S754_zero false.
Definition nan : float := S754_nan.

Definition is_nan (x : float) : bool :=
  match x with S754_nan => true | _ => false end.

Definition is_zero (x : float) : bool :=
  match x with S754_zero _ => true | _ => false end.

(** Neither NaN nor an infinity. *)
Definition is_finite (x : float) : bool :=
  match x with S754_zero _ | S754_finite _ _ _ => true | _ => false end.

(** [n / d] rounded to the nearest integer, ties to the even one
    ([0 <= n], [0 < d]). *)
Definition round_half_even (n d : Z) : Z :=
  let q := n / d in
  match 2 * (n mod d) ?= d with
  | Lt => q
  | Gt => q + 1
  | Eq => if Z.even q then q else q + 1
  end.

(** The integer part of a finite float, toward zero. *)
Definition trunc (x : float) : option Z :=
  match x with
  | S754_zero _ => Some 0
  | S754_finite s m e =>
      Some (cond_Zopp s (if 0 <=? e then Z.pos m * 2 ^ e
                         else Z.pos m / 2 ^ (- e)))
  | _ => None
  end.

(** The integer nearest to a finite float, ties to even. *)
Definition nearest (x : float) : option Z :=
  match x with
  | S754_zero _ => Some 0
  | S754_finite s m e =>
      Some (cond_Zopp s (if 0 <=? e then Z.pos m * 2 ^ e
                         else round_half_even (Z.pos m) (2 ^ (- e))))
  | _ => None
  end.

(** [numpy.rint]: the nearest integral float, ties to even; NaN, the
    infinities and the zeros are returned as they are. *)
Definition rint (x : float) : float :=
  match x with
  | S754_finite s m e =>
      if 0 <=? e then x
      else match round_half_even (Z.pos m) (2 ^ (- e)) with
           | 0 => S754_zero s
           | n => binary_normalize prec emax (cond_Zopp s n) 0 s
           end
  | _ => x
  end.

(** [numpy.round(x, 2)], which numpy computes as
    [rint(x * 10**2) / 10**2]. *)
Definition round2 (x : float) : float :=
  div (rint (mul x (of_int 100))) (of_int 100).

End F64.

(** ** Python's built-ins on numbers *)

(** [a / b] on two [int]s: the float nearest to the quotient. *)
Definition int_truediv (a b : Z) : result float :=
  match b with
  | 0 => Raise ZeroDivisionError
  | _ =>
      match a with
      | 0 => Ok (S754_zero (b <? 0))
      | _ =>
          let q := F64.div (S754_finite (a <? 0) (Z.to_pos (Z.abs a)) 0)
                           (S754_finite (b <? 0) (Z.to_pos (Z.abs b)) 0) in
          match q with
          | S754_infinity _ => Raise OverflowError
          | _ => Ok q
          end
      end
  end.

(** The conversion of an [int] operand of a float operation. *)
Definition float_of_int (z : Z) : result float :=
  match F64.of_int z with
  | S754_infinity _ => Raise OverflowError
  | x => Ok x
  end.

(** [int(x)] on a float. *)
Definition int_of_float (x : float) : result Z :=
  match x with
  | S754_nan => Raise ValueError
  | S754_infinity _ => Raise OverflowError
  | _ => match F64.trunc x with Some z => Ok z | None => Raise ValueError end
  end.

(** [round(x)] on a float, which returns an [int]. *)
Definition round_float (x : float) : result Z :=
  match x with
  | S754_nan => Raise ValueError
  | S754_infinity _ => Raise OverflowError
  | _ => match F64.nearest x with Some z => Ok z | None => Raise ValueError end
  end.

(** [round(n)] on an [int] is [n]. *)
Definition round_int (n : Z) : Z := n.

(** [list(range(lo, hi))]. *)
Definition range (lo hi : Z) : list Z :=
  map (fun i => lo + Z.of_nat i) (seq 0 (Z.to_nat (hi - lo))).

(** A [for] loop whose body appends one computed element per item. *)
Fixpoint for_append {A B} (body : A -> result B) (items : list A)
    (acc : list B) : result (list B) :=
  match items with
  | [] => Ok acc
  | x :: rest =>
      match body x with
      | Ok b => for_append body rest (acc ++ [b])
      | Raise e => Raise e
      end
  end.

(** ** prediction_logic.py *)

(** The mileage appended for age [y] by the loop of
    [calculate_years_and_kms]. *)
Definition km_for_year (cur_age cur_km : Z) (expected_annual_km : option Z)
    (avg_per_year : Z) (y : Z) : result Z :=
  if y <=? cur_age then
    if 0 <? cur_age then
      q ← int_truediv cur_km cur_age;
      fy ← float_of_int y;
      round_float (F64.mul fy q)
    else
      Ok (round_int (y * avg_per_year))
  else
    match expected_annual_km with
    | Some e => Ok (cur_km + (y - cur_age) * e)
    | None => Ok (round_int (y * avg_per_year))
    end.

Definition calculate_years_and_kms (cur_age cur_km : Z)
    (expected_annual_km : option Z) : result (list Z * list Z * Z) :=
  avg_per_year ←
    (if 0 <? cur_age then q ← int_truediv cur_km cur_age; int_of_float q
     else Ok cur_km);
  let years :=
    if cur_age <? 10 then range 0 11 else range cur_age (cur_age + 4) in
  explicit_kms ←
    for_append (km_for_year cur_age cur_km expected_annual_km avg_per_year)
      years [];
  Ok (years, explicit_kms, avg_per_year).


(** One record sent to the model: the six fields of a payload dict. *)
Record payload : Type := Payload {
  p_km : Z;
  p_fuel_type : string;
  p_age : Z;
  p_brand : string;
  p_segment : string;
  p_body_type : string
}.

(** The sidebar selection ([render_sidebar_filters]). *)
Record filters : Type := Filters {
  f_fuel_type : string;
  f_brand : string;
  f_segment : string;
  f_body_type : string;
  f_age : Z;
  f_km : Z;
  f_expected_annual_km : option Z
}.

(** The messages the validators return. *)
Inductive message : Type :=
  | NoPayloads          (* "Prediction failed: No payloads generated." *)
  | MissingFields (fields : gset string)
                        (* "Prediction could not be made: missing fields ..." *)
  | MissingSelection    (* "Please select Fuel type, Brand, Segment and Body
                           type in the sidebar." *)
  | NoResults           (* "Prediction failed: model returned no results." *)
  | EmptyInput.         (* "Prediction failed: input data is empty." *)

(** Truth value of a string: only the empty string is false. *)
Definition str_bool (s : string) : bool :=
  match s with EmptyString => false | _ => true end.

Definition validate_selections (f : filters) : option message :=
  if negb (str_bool (f_fuel_type f)) || negb (str_bool (f_brand f))
     || negb (str_bool (f_segment f)) || negb (str_bool (f_body_type f))
  then Some MissingSelection
  else None.

Definition missing_of (p : payload) : list string :=
  (if str_bool (p_fuel_type p) then [] else ["fuel_type"%string]) ++
  (if str_bool (p_brand p) then [] else ["brand"%string]) ++
  (if str_bool (p_segment p) then [] else ["segment"%string]) ++
  (if str_bool (p_body_type p) then [] else ["body_type"%string]).

Definition validate_payloads (payloads : list payload) : option message :=
  match payloads with
  | [] => Some NoPayloads
  | _ =>
      let missing_fields := concat (map missing_of payloads) in
      match missing_fields with
      | [] => None
      | _ => Some (MissingFields (list_to_set missing_fields))
      end
  end.

(** ** data_processing.py *)

(** [explicit_kms[i]] is read under the guard [i < len(explicit_kms)], which
    is when the lookup succeeds; otherwise the mileage is
    [int(round(y * avg_km_per_year))], a product of two [int]s. *)
Definition build_prediction_payloads (years : list Z)
    (fuel_type brand segment body_type : string) (avg_km_per_year : Z)
    (explicit_kms : option (list Z)) : result (list payload) :=
  Ok (imap (fun i y =>
        let km_y :=
          match explicit_kms ≫= (fun kms => kms !! i) with
          | Some km => km
          | None => round_int (y * avg_km_per_year)
          end in
        Payload km_y fuel_type y brand segment body_type) years).

(** *** Data frames

    A frame with the columns ['year'], ['km'] and ['prediction'] that the
    functions below expect, and any further float64 columns by name.  Frames
    are objects: they live in a store and are passed by reference. *)
Record frame : Type := Frame {
  year : list Z;
  km : list Z;
  prediction : list float;
  extra : gmap string (list float)
}.

Abbreviation loc := nat.
Abbreviation store := (gmap loc frame).

(** [pd.DataFrame({"year": ..., "km": ..., "prediction": ...})]: the three
    arrays must have one length. *)
Definition new_frame (years kms : list Z) (preds : list float) : result frame :=
  if (length years =? length kms)%nat && (length years =? length preds)%nat
  then Ok (Frame years kms preds ∅)
  else Raise ValueError.

Definition alloc (fr : frame) (h : store) : loc * store :=
  let l := fresh (dom h) in (l, <[l := fr]> h).

(** [df.copy()] *)
Definition copy (df : loc) (h : store) : option (loc * store) :=
  fr ← h !! df; Some (alloc fr h).

(** [df["prediction"] = xs] *)
Definition set_prediction (df : loc) (xs : list float) (h : store)
    : option store :=
  fr ← h !! df;
  Some (<[df := Frame (year fr) (km fr) xs (extra fr)]> h).

(** [df[name] = xs] for a derived column *)
Definition set_column (df : loc) (name : string) (xs : list float)
    (h : store) : option store :=
  fr ← h !! df;
  Some (<[df := Frame (year fr) (km fr) (prediction fr)
                      (<[name := xs]> (extra fr))]> h).

(** [df[name]] for a derived column; a missing column reads as empty
    here (the function below only reads columns it has just written). *)
Definition get_column (df : loc) (name : string) (h : store)
    : option (list float) :=
  fr ← h !! df; Some (default [] (extra fr !! name)).

(** Series operations. *)
Definition shift1 (xs : list float) : list float :=
  match xs with
  | [] => []
  | _ => F64.nan :: removelast xs
  end.

Definition fillna0 (xs : list float) : list float :=
  map (fun x => if F64.is_nan x then F64.zero else x) xs.

(** [s.replace({0: pd.NA})]: cells equal to zero become missing. *)
Definition replace_zero_na (xs : list float) : list float :=
  map (fun x => if F64.eqb x F64.zero then F64.nan else x) xs.

Definition series_sub (xs ys : list float) : list float :=
  zip_with F64.sub xs ys.
Definition series_div (xs ys : list float) : list float :=
  zip_with F64.div xs ys.
Definition scalar_sub_series (c : float) (xs : list float) : list float :=
  map (fun x => F64.sub c x) xs.
Definition series_div_scalar (xs : list float) (c : float) : list float :=
  map (fun x => F64.div x c) xs.
Definition series_mul_scalar (xs : list float) (c : float) : list float :=
  map (fun x => F64.mul x c) xs.
Definition series_round2 (xs : list float) : list float :=
  map F64.round2 xs.

(** Truth value of a float: false only for the zeros. *)
Definition float_bool (x : float) : bool := negb (F64.eqb x F64.zero).

Definition hundred : float := F64.of_int 100.

Definition calculate_depreciation_metrics (df : loc) (h : store)
    : option (loc * store) :=
  '(df_out, h) ← copy df h;
  (* pd.to_numeric leaves a float64 column as it is *)
  pred ← prediction <$> h !! df_out;
  h ← set_prediction df_out pred h;
  let prev := shift1 pred in
  h ← set_column df_out "depreciation" (series_sub prev pred) h;
  dep ← get_column df_out "depreciation" h;
  h ← set_column df_out "depreciation" (fillna0 dep) h;
  dep ← get_column df_out "depreciation" h;
  h ← set_column df_out "depreciation_pct"
        (series_div dep (replace_zero_na prev)) h;
  pct ← get_column df_out "depreciation_pct" h;
  h ← set_column df_out "depreciation_pct"
        (series_mul_scalar (fillna0 pct) hundred) h;
  pred ← prediction <$> h !! df_out;
  let base_val := match pred with v :: _ => v | [] => F64.zero end in
  h ← (if float_bool base_val && negb (F64.eqb base_val F64.zero) then
         set_column df_out "accum_depreciation"
           (series_mul_scalar
              (series_div_scalar (scalar_sub_series base_val pred) base_val)
              hundred) h
       else
         set_column df_out "accum_depreciation"
           (map (fun _ => F64.zero) pred) h);
  (* df_out[cols_to_round] = df_out[cols_to_round].round(2) *)
  pred ← prediction <$> h !! df_out;
  dep ← get_column df_out "depreciation" h;
  pct ← get_column df_out "depreciation_pct" h;
  acc ← get_column df_out "accum_depreciation" h;
  h ← set_prediction df_out (series_round2 pred) h;
  h ← set_column df_out "depreciation" (series_round2 dep) h;
  h ← set_column df_out "depreciation_pct" (series_round2 pct) h;
  h ← set_column df_out "accum_depreciation" (series_round2 acc) h;
  Some (df_out, h).


(** *** Python containers used by the brand comparison *)

(** A [dict] keeps its keys in insertion order; assigning to a key that is
    present changes the value in place. *)
Fixpoint dict_set {V} (k : string) (v : V) (d : list (string * V))
    : list (string * V) :=
  match d with
  | [] => [(k, v)]
  | (k', v') :: d' =>
      if decide (k' = k) then (k', v) :: d' else (k', v') :: dict_set k v d'
  end.

Fixpoint dict_get {V} (k : string) (d : list (string * V)) : result V :=
  match d with
  | [] => Raise KeyError
  | (k', v') :: d' => if decide (k' = k) then Ok v' else dict_get k d'
  end.

(** [xs[0]] *)
Definition index0 {A} (xs : list A) : result A :=
  match xs with
  | x :: _ => Ok x
  | [] => Raise IndexError
  end.

(** [sorted(l, key=key)]: the stable sort, which compares keys with [<]
    only.  An element goes in front of the sorted rest unless elements
    with a strictly smaller key come first.  This is the list every
    stable sort returns when [<] orders the keys, that is when no key is
    NaN; with a NaN among the keys the interpreter's merge sort returns a
    list that depends on the comparisons it happens to make, and the
    definition does not follow it there. *)
Fixpoint insert_by {A} (key : A -> float) (x : A) (l : list A) : list A :=
  match l with
  | [] => [x]
  | y :: l' =>
      if F64.ltb (key y) (key x) then y :: insert_by key x l'
      else x :: y :: l'
  end.

Definition sorted_by {A} (key : A -> float) (l : list A) : list A :=
  foldr (insert_by key) [] l.

(** [l.sort(key=key, reverse=True)]: the list is reversed, sorted with the
    stable ascending sort and reversed again. *)
Definition sort_reverse_by {A} (key : A -> float) (l : list A) : list A :=
  reverse (sorted_by key (reverse l)).

(** One row of the comparison table. *)
Record brand_row : Type := BrandRow {
  r_brand : string;               (* "Brand" *)
  r_initial_value : string;       (* "Initial Value (€)" *)
  r_avg_depreciation_pct : string;(* "Annual Avg. Depreciation (%)" *)
  r_avg_depreciation_eur : string;(* "Annual Avg. Depreciation (€)" *)
  r_value_year_5 : string;        (* "Value at Year 5 (€)" *)
  r_value_year_10 : string        (* "Value at Year 10 (€)" *)
}.

(** [df.loc[df['year'] == y, col].values]: the cells of a column in the rows
    whose year is [y]; [keep] selects the rows. *)
Definition rows_where (keep : Z -> bool) (years : list Z) (col : list float)
    : list float :=
  map snd (filter (fun yc => keep yc.1 = true) (zip years col)).

(** [len(s)] on a [str]: the number of characters.  Strings are held as
    their UTF-8 bytes, and a character is one byte that is not a
    continuation byte (one in the range 128..191) with the continuation
    bytes that follow it. *)
Definition is_continuation_byte (a : Ascii.ascii) : bool :=
  (128 <=? Ascii.nat_of_ascii a)%nat && (Ascii.nat_of_ascii a <? 192)%nat.

Fixpoint str_len (s : string) : nat :=
  match s with
  | EmptyString => 0%nat
  | String a s' =>
      ((if is_continuation_byte a then 0 else 1) + str_len s')%nat
  end.

Section Gateway.

(** The prediction gateway: [cached_predict], a memoised call of the
    model's [predict] on the decoded payloads.  It is a function of the
    payloads, so equal payloads get equal answers. *)
Variable cached_predict_func : list payload -> result (list float).

(** String and number formatting of the Python library. *)
Variable str_upper : string -> string.        (* str.upper *)
Variable str_title : string -> string.        (* str.title *)
Variable format_thousands : float -> string.  (* f"{x:,.0f}" *)
Variable format_percent : float -> string.    (* f"{x:.2f}%" *)
Variable series_mean : list float -> float.   (* Series.mean *)

Definition modify_display_name (name : string) : string :=
  if (str_len name <=? 3)%nat then str_upper name else str_title name.

(** The first loop of [calculate_brand_comparison_data]: the year-0 price
    of every brand. *)
Fixpoint initial_values_loop (brands : list string) (f : filters)
    (brand_initial_values : list (string * float))
    : result (list (string * float)) :=
  match brands with
  | [] => Ok brand_initial_values
  | brand :: rest =>
      pred ← cached_predict_func
               [Payload 0 (f_fuel_type f) 0 brand (f_segment f)
                        (f_body_type f)];
      v ← index0 pred;
      initial_values_loop rest f (dict_set brand v brand_initial_values)
  end.

(** The body of the second loop: the row of one brand and the numeric
    initial value kept for sorting. *)
Definition brand_data (brand : string) (f : filters) (avg_km_per_year : Z)
    : result (brand_row * float) :=
  let brand_years := range 0 11 in
  brand_payloads ←
    build_prediction_payloads brand_years (f_fuel_type f) brand
      (f_segment f) (f_body_type f) avg_km_per_year None;
  brand_preds ← cached_predict_func brand_payloads;
  brand_df ← new_frame brand_years (map p_km brand_payloads) brand_preds;
  let '(l, h) := alloc brand_df ∅ in
  match calculate_depreciation_metrics l h ≫= (fun lh => lh.2 !! lh.1) with
  | None => Raise KeyError
  | Some out =>
      let at_year y :=
        rows_where (fun y' => y' =? y) (year out) (prediction out) in
      initial_val ← index0 (at_year 0);
      value_year_5 ←
        (if bool_decide (5 ∈ year out) then Some <$> index0 (at_year 5)
         else Ok None);
      value_year_10 ←
        (if bool_decide (10 ∈ year out) then Some <$> index0 (at_year 10)
         else Ok None);
      let kpi col :=
        rows_where (fun y => negb (y =? 0)) (year out)
          (default [] (extra out !! col)) in
      let avg_of col :=
        match kpi col with
        | [] => F64.zero
        | xs => series_mean xs
        end in
      Ok (BrandRow (modify_display_name brand)
            (format_thousands initial_val)
            (format_percent (avg_of "depreciation_pct"%string))
            (format_thousands (avg_of "depreciation"%string))
            (from_option format_thousands "N/A"%string value_year_5)
            (from_option format_thousands "N/A"%string value_year_10),
          initial_val)
  end.

(** The second loop: the selected brand's row is set aside, the others
    are appended. *)
Fixpoint rows_loop (brands : list string) (selected_brand : string)
    (f : filters) (avg_km_per_year : Z)
    (comparison_data : list (brand_row * float))
    (selected_brand_data : option (brand_row * float))
    : result (list (brand_row * float) * option (brand_row * float)) :=
  match brands with
  | [] => Ok (comparison_data, selected_brand_data)
  | brand :: rest =>
      d ← brand_data brand f avg_km_per_year;
      if decide (brand = selected_brand)
      then rows_loop rest selected_brand f avg_km_per_year
             comparison_data (Some d)
      else rows_loop rest selected_brand f avg_km_per_year
             (comparison_data ++ [d]) selected_brand_data
  end.

Definition brand_distances (selected_brand : string)
    (selected_brand_initial : float)
    (brand_initial_values : list (string * float))
    : list (string * float) :=
  map (fun bv => (bv.1, F64.abs (F64.sub bv.2 selected_brand_initial)))
    (filter (fun bv => bv.1 <> selected_brand) brand_initial_values).

Definition calculate_brand_comparison_data (all_brands : list string)
    (selected_brand : string) (f : filters) (avg_km_per_year : Z)
    : result (list brand_row) :=
  brand_initial_values ← initial_values_loop all_brands f [];
  selected_brand_initial ← dict_get selected_brand brand_initial_values;
  let brand_diffs :=
    brand_distances selected_brand selected_brand_initial
      brand_initial_values in
  let closest_brands := take 6 (sorted_by snd brand_diffs) in
  let closest_brand_names := map fst closest_brands in
  let brands_to_compare := selected_brand :: closest_brand_names in
  '(comparison_data, selected_brand_data) ←
    rows_loop brands_to_compare selected_brand f avg_km_per_year [] None;
  let comparison_data := sort_reverse_by snd comparison_data in
  let comparison_data :=
    match selected_brand_data with
    | Some d => d :: comparison_data
    | None => comparison_data
    end in
  Ok (map fst comparison_data).

(** *** predictor.py: the handler of the Predict button *)

Definition validate_predictions (preds : list float) (df_base : frame)
    : option message :=
  match preds with
  | [] => Some NoResults
  | _ => match year df_base with
         | [] => Some EmptyInput
         | _ => None
         end
  end.

(** What the handler does to the outside, in order. *)
Inductive event : Type :=
  | ShowError (m : message)       (* st.error(error_msg) *)
  | ShowException (e : exn)       (* st.error(f"Error: {exc}") *)
  | GatewayCall (payloads : list payload)
  | Present (out : frame).        (* the table, charts and KPIs *)

(** Everything the handler does once the predictions are validated:
    tables, charts and the comparisons, which call the gateway again. *)
Variable present_results :
  filters -> frame -> Z -> list Z -> list event.

Definition predict_clicked (f : filters) : list event :=
  match validate_selections f with
  | Some error_msg => [ShowError error_msg]
  | None =>
      match
        '(years, explicit_kms, avg_per_year) ←
           calculate_years_and_kms (f_age f) (f_km f)
             (f_expected_annual_km f);
        payloads ←
          build_prediction_payloads years (f_fuel_type f) (f_brand f)
            (f_segment f) (f_body_type f) avg_per_year (Some explicit_kms);
        Ok (years, explicit_kms, avg_per_year, payloads)
      with
      | Raise e => [ShowException e]
      | Ok (years, explicit_kms, avg_per_year, payloads) =>
          match validate_payloads payloads with
          | Some error_msg => [ShowError error_msg]
          | None =>
              GatewayCall payloads ::
              match
                preds ← cached_predict_func payloads;
                df_base ← new_frame years (map p_km payloads) preds;
                Ok (preds, df_base)
              with
              | Raise e => [ShowException e]
              | Ok (preds, df_base) =>
                  match validate_predictions preds df_base with
                  | Some error_msg => [ShowError error_msg]
                  | None =>
                      present_results f df_base avg_per_year explicit_kms
                  end
              end
          end
      end
  end.

End Gateway.

(** *** What a shift record stands for

    A record [(m, r, s)] stands for the ratio [N / D] when [m] is its integer
    part, the round bit [r] says that the fractional part is at least one
    half and the sticky bit [s] that it is neither zero nor one half. *)

Definition represents (mrs : shr_record) (N D : Z) : Prop :=
  shr_m mrs = N / D /\
  shr_r mrs = (D <=? 2 * (N mod D)) /\
  shr_s mrs = negb ((N mod D =? 0) || (2 * (N mod D) =? D)).

(** The second half of [binary_round_aux]: the rounded significand is
    brought back into range and packed. *)
Definition renorm (prec emax : Z) (s : bool) (m1 e1 : Z) : spec_float :=
  let '(mrs'', e'') := shr_fexp prec emax m1 e1 loc_Exact in
  match shr_m mrs'' with
  | Z0 => S754_zero s
  | Zpos m => if e'' <=? emax - prec then S754_finite s m e''
              else S754_infinity s
  | _ => S754_nan
  end.

(** A float that is a zero or has a significand below [2^53] and a small
    exponent: products of two such floats do not overflow. *)
Definition small (x : float) : Prop :=
  match x with
  | S754_zero _ => True
  | S754_finite _ m e => Z.pos m < 2 ^ 53 /\ e <= 2
  | _ => False
  end.

(** ** The specification's formulas, for comparison with the code *)

(** "avg_km_per_year == round(current_km / current_age)" for a positive age,
    "avg_km_per_year == current_km" for age 0. *)
Definition avg_km_per_year_spec (current_age current_km : Z) : result Z :=
  if 0 <? current_age then
    q ← int_truediv current_km current_age; round_float q
  else Ok current_km.

(** The third component of the triple [calculate_years_and_kms] returns. *)
Definition avg_per_year_of (r : result (list Z * list Z * Z)) : result Z :=
  (fun t => t.2) <$> r.

(** ** The columns [calculate_depreciation_metrics] writes, before rounding *)

Definition depreciation_of (pred : list float) : list float :=
  fillna0 (series_sub (shift1 pred) pred).

Definition depreciation_pct_of (pred : list float) : list float :=
  series_mul_scalar
    (fillna0 (series_div (depreciation_of pred) (replace_zero_na (shift1 pred))))
    hundred.

Definition accum_depreciation_of (pred : list float) : list float :=
  let base_val := match pred with v :: _ => v | [] => F64.zero end in
  if float_bool base_val && negb (F64.eqb base_val F64.zero) then
    series_mul_scalar
      (series_div_scalar (scalar_sub_series base_val pred) base_val) hundred
  else map (fun _ => F64.zero) pred.

(** Scenario C of the specification: prices 20000, 18000 and 15000 at the
    ages 0, 1 and 2. *)
Definition scenario_c : store :=
  {[ 0%nat := Frame [0; 1; 2] [0; 10000; 20000]
                [F64.of_int 20000; F64.of_int 18000; F64.of_int 15000] ∅ ]}.

(** ** Sample inputs *)

(** A selection with no brand chosen (Scenario E). *)
Definition no_brand_selected : filters :=
  Filters "gasolina" "" "compacto" "berlina" 2 20000 None.

(** ** Notions used to state the brand comparison *)

(** The gateway answers every request with one finite price per record. *)
Definition well_behaved (g : list payload -> result (list float)) : Prop :=
  forall ps,
    exists vs,
      g ps = Ok vs /\ length vs = length ps /\
      Forall (fun v => F64.is_finite v = true) vs.

(** The year-0 price of a brand, as the first loop of
    [calculate_brand_comparison_data] asks for it. *)
Definition year0_price (g : list payload -> result (list float))
    (f : filters) (brand : string) : result float :=
  pred ← g [Payload 0 (f_fuel_type f) 0 brand (f_segment f) (f_body_type f)];
  index0 pred.

(** The request for the ages 0 to 10 of a brand, at [avg_km_per_year]
    kilometres a year. *)
Definition comparison_request (f : filters) (avg_km_per_year : Z)
    (brand : string) : list payload :=
  map (fun y => Payload (y * avg_km_per_year) (f_fuel_type f) y brand
                  (f_segment f) (f_body_type f))
    [0; 1; 2; 3; 4; 5; 6; 7; 8; 9; 10].

(** The initial value of a brand in the comparison table: the first price
    of the answer to its request for the ages 0 to 10, rounded to 2
    decimals. *)
Definition initial_value (g : list payload -> result (list float))
    (f : filters) (avg_km_per_year : Z) (brand : string) : result float :=
  prices ← g (comparison_request f avg_km_per_year brand);
  F64.round2 <$> index0 prices.

(** [row] is the row of [brand]: it shows the brand's display name and,
    formatted, the prices the gateway gives the brand at the ages 0, 5
    and 10, rounded to 2 decimals. *)
Definition row_of (g : list payload -> result (list float))
    (str_upper str_title : string -> string)
    (format_thousands : float -> string)
    (f : filters) (avg_km_per_year : Z) (brand : string) (row : brand_row)
    : Prop :=
  exists prices v0 v5 v10,
    g (comparison_request f avg_km_per_year brand) = Ok prices /\
    prices !! 0%nat = Some v0 /\ prices !! 5%nat = Some v5 /\
    prices !! 10%nat = Some v10 /\
    r_brand row = modify_display_name str_upper str_title brand /\
    r_initial_value row = format_thousands (F64.round2 v0) /\
    r_value_year_5 row = format_thousands (F64.round2 v5) /\
    r_value_year_10 row = format_thousands (F64.round2 v10).

(** [a] may stand before [b] in a list sorted by [key]: the key of [b] is
    not below that of [a]. *)
Definition key_le {A} (key : A -> float) (a b : A) : Prop :=
  F64.ltb (key b) (key a) = false.

(** The keys of a dict, in order. *)
Definition dict_keys {V} (d : list (string * V)) : list string := map fst d.

(** The row and sorting key of a brand, with an arbitrary value where
    [brand_data] raises. *)
Definition brand_entry (g : list payload -> result (list float))
    (str_upper str_title : string -> string)
    (format_thousands format_percent : float -> string)
    (series_mean : list float -> float)
    (f : filters) (avg_km_per_year : Z) (brand : string)
    : brand_row * float :=
  match brand_data g str_upper str_title format_thousands format_percent
          series_mean brand f avg_km_per_year with
  | Ok d => d
  | Raise _ => (BrandRow "" "" "" "" "" "", F64.zero)
  end.

(** What the first loop of [calculate_brand_comparison_data] keeps true of
    the dict of initial values: distinct keys, each with its year-0 price. *)
Definition initial_values_inv (g : list payload -> result (list float))
    (f : filters) (d : list (string * float)) : Prop :=
  NoDup (dict_keys d) /\
  forall b v, (b, v) ∈ d -> year0_price g f b = Ok v /\ F64.is_finite v = true.

(** A gateway for the examples: a price per brand, decreasing with age. *)
Definition sample_gateway (ps : list payload) : result (list float) :=
  Ok (map (fun p =>
             let new_price :=
               if decide (p_brand p = "seat"%string) then 20000
               else if decide (p_brand p = "audi"%string) then 30000
               else if decide (p_brand p = "dacia"%string) then 12000
               else 18000 in
             if decide (p_age p = 0) then F64.of_int new_price
             else F64.of_int (new_price - 1000)) ps).

(** A gateway whose prices for two brands differ by less than a cent:
    seat at 10000, audi at 20000.001 and every other brand at 20000.002,
    at every age. *)
Definition close_gateway (ps : list payload) : result (list float) :=
  Ok (map (fun p =>
             if decide (p_brand p = "seat"%string) then F64.of_int 10000
             else if decide (p_brand p = "audi"%string)
             then F64.div (F64.of_int 20000001) (F64.of_int 1000)
             else F64.div (F64.of_int 20000002) (F64.of_int 1000)) ps).

Definition sample_filters : filters :=
  Filters "gasolina" "seat" "compacto" "berlina" 2 20000 None.

(** ** data_processing.py: create_display_mapping *)

(** [dict(zip(keys, values))]: the pairs are assigned in order. *)
Definition dict_of_pairs {V} (pairs : list (string * V)) : list (string * V) :=
  foldl (fun d kv => dict_set kv.1 kv.2 d) [] pairs.

(** [d.get(k, default)] *)
Definition dict_get_default {V} (k : string) (default : V)
    (d : list (string * V)) : V :=
  match dict_get k d with
  | Ok v => v
  | Raise _ => default
  end.

(** The display names of the options and the dict from a display name
    back to the option. *)
Definition create_display_mapping (original_list : list string)
    (modifier_func : string -> string)
    : list string * list (string * string) :=
  let modified := map modifier_func original_list in
  let display_list := modified in
  let display_to_original := dict_of_pairs (zip modified original_list) in
  (display_list, display_to_original).

(** ** ui_components.py: the preselected option of a selector *)

(** [next((i for i, x in enumerate(l) if p(x)), None)] *)
Fixpoint first_index {A} (p : A -> bool) (l : list A) : option nat :=
  match l with
  | [] => None
  | x :: l' => if p x then Some 0%nat else S <$> first_index p l'
  end.

(** The [index] handed to [st.sidebar.selectbox] for the fuel type and
    the brand in [render_sidebar_filters]: one past the position of the
    first option whose lower-case form is [wanted]; without one, 1 when
    the first display name is a non-empty string and 0 otherwise.  The
    options of the selector are [""] followed by the display names. *)
Definition default_option_index (str_lower : string -> string)
    (wanted : string) (original_list display_list : list string) : nat :=
  let default_display := head display_list in
  match first_index (fun orig => bool_decide (str_lower orig = wanted))
          original_list with
  | Some i => S i
  | None =>
      match default_display with
      | Some d => if str_bool d then 1%nat else 0%nat
      | None => 0%nat
      end
  end.

Definition selector_options (display_list : list string) : list string :=
  ""%string :: display_list.

(** ** visualizations.py: build_comparison_data *)

(** The values a payload or a row of the comparison holds. *)
Inductive pyval : Type :=
  | PStr (s : string)
  | PInt (z : Z)
  | PFloat (x : float).

(** A dict as [json.dumps(..., sort_keys=True)] and [pd.DataFrame] see
    it: a finite map from keys to values, whatever the order in which the
    keys were assigned. *)
Abbreviation pydict := (gmap string pyval).

(** The dict of a payload with the six fields. *)
Definition payload_dict (p : payload) : pydict :=
  <["km"%string := PInt (p_km p)]>
    (<["fuel_type"%string := PStr (p_fuel_type p)]>
       (<["age"%string := PInt (p_age p)]>
          (<["brand"%string := PStr (p_brand p)]>
             (<["segment"%string := PStr (p_segment p)]>
                {["body_type"%string := PStr (p_body_type p)]})))).

(** The [base_payload] the renderers of the comparison charts build from
    the selection. *)
Definition comparison_base_payload (f : filters) : pydict :=
  <["fuel_type"%string := PStr (f_fuel_type f)]>
    (<["brand"%string := PStr (f_brand f)]>
       (<["segment"%string := PStr (f_segment f)]>
          {["body_type"%string := PStr (f_body_type f)]})).

(** The inner loop: the payloads of one compared value. *)
Definition comparison_payloads (years : list Z) (val comparison_key : string)
    (base_payload : pydict) (avg_km_per_year : Z)
    (explicit_kms : option (list Z)) : list pydict :=
  imap (fun i y =>
          let payload := base_payload in
          let payload :=
            <["km"%string :=
                PInt (match explicit_kms ≫= (fun kms => kms !! i) with
                      | Some km => km
                      | None => round_int (y * avg_km_per_year)
                      end)]> payload in
          let payload := <["age"%string := PInt y]> payload in
          <[comparison_key := PStr val]> payload) years.

(** [{comparison_key: val, "year": y, "prediction": p}] *)
Definition comparison_row (comparison_key val : string) (y : Z) (p : float)
    : pydict :=
  <["prediction"%string := PFloat p]>
    (<["year"%string := PInt y]> {[comparison_key := PStr val]}).

Section Comparison.

(** The prediction function, applied to the JSON text of the payloads. *)
Variable predict_func : list pydict -> result (list float).

(** The outer loop: one request per compared value, and one row per pair
    of [zip(years, preds)]. *)
Fixpoint comparison_loop (years : list Z) (comparison_values : list string)
    (comparison_key : string) (base_payload : pydict) (avg_km_per_year : Z)
    (explicit_kms : option (list Z)) (rows : list pydict)
    : result (list pydict) :=
  match comparison_values with
  | [] => Ok rows
  | val :: rest =>
      let payloads :=
        comparison_payloads years val comparison_key base_payload
          avg_km_per_year explicit_kms in
      preds ← predict_func payloads;
      comparison_loop years rest comparison_key base_payload avg_km_per_year
        explicit_kms (rows ++ zip_with (comparison_row comparison_key val)
                                years preds)
  end.

Definition build_comparison_data (years : list Z)
    (comparison_values : list string) (comparison_key : string)
    (base_payload : pydict) (avg_km_per_year : Z)
    (explicit_kms : option (list Z)) : result (list pydict) :=
  comparison_loop years comparison_values comparison_key base_payload
    avg_km_per_year explicit_kms [].

End Comparison.

(** ** src/inference/predict.py: load_model *)

Section LoadModel.

(** Normalised paths ([Path(model_path)], compared with [==]), the objects
    a model file can hold (other than [None]) and the exceptions
    [joblib.load] can raise. *)
Context {path obj exc : Type} `{EqDecision path}.

(** [isinstance(e, ModuleNotFoundError)], the test of the [except] clause:
    it holds of the class and of its subclasses, and of no other
    [ImportError]. *)
Variable is_ModuleNotFoundError : exc -> bool.

(** What [joblib.load] does with a file. *)
Inductive joblib_result : Type :=
  | JReturn (model : option obj)      (* the object; [None] is Python's None *)
  | JRaise (e : exc).

(** The file system at the time of a call. *)
Record disk : Type := Disk {
  path_exists : path -> bool;
  joblib_load : path -> joblib_result
}.

(** The module's globals. *)
Record model_cache : Type := ModelCache {
  _MODEL : option obj;
  _MODEL_PATH : option path
}.

(** How a call ends.  The function raises two exceptions of its own; any
    other one comes out of [joblib.load] and passes through. *)
Inductive load_outcome : Type :=
  | Returned (model : option obj)
  | RaisedFileNotFoundError
      (* raise FileNotFoundError(f"Model file not found at {model_path}") *)
  | RaisedImportError (cause : exc)
      (* raise ImportError("Missing dependency ...") from exc *)
  | Propagated (e : exc).
      (* an exception of joblib.load that the except clause does not catch *)

(** [_MODEL is not None and _MODEL_PATH == model_path] *)
Definition cache_hit (c : model_cache) (model_path : path) : bool :=
  bool_decide (is_Some (_MODEL c))
  && bool_decide (_MODEL_PATH c = Some model_path).

Definition load_model (d : disk) (model_path : path) (c : model_cache)
    : load_outcome * model_cache :=
  if cache_hit c model_path then (Returned (_MODEL c), c)
  else if negb (path_exists d model_path)
  then (RaisedFileNotFoundError, c)
  else
    match joblib_load d model_path with
    | JRaise e =>
        if is_ModuleNotFoundError e then (RaisedImportError e, c)
        else (Propagated e, c)
    | JReturn model => (Returned model, ModelCache model (Some model_path))
    end.

(** Successive calls of [load_model], each with the file system of its
    time; the globals pass from one call to the next. *)
Fixpoint load_models (calls : list (disk * path)) (c : model_cache)
    : list load_outcome * model_cache :=
  match calls with
  | [] => ([], c)
  | (d, model_path) :: rest =>
      let '(outcome, c) := load_model d model_path c in
      let '(outcomes, c) := load_models rest c in
      (outcome :: outcomes, c)
  end.

End LoadModel.

Arguments joblib_result : clear implicits.
Arguments disk : clear implicits.
Arguments model_cache : clear implicits.
Arguments load_outcome : clear implicits.

(** ** predictor.py: the Vehicle Review block

    The last part of the handler, from the heading "Vehicle Review" to the
    brand comparison table.  It runs inside the handler's [try]: the value
    below is what the block has displayed and the exception that ended it,
    if one did. *)

Inductive review_event : Type :=
  | ReviewIntro (brand segment fuel : string)
      (* the rule, the heading and the paragraph naming the selection *)
  | Metrics (initial_value avg_drop_pct avg_drop_eur : string)
      (* the three [st.metric] cells *)
  | ComparisonTable (rows : list brand_row).
      (* render_brand_comparison_table *)

Section Review.

Variable cached_predict_func : list payload -> result (list float).
Variable str_upper : string -> string.
Variable str_title : string -> string.
Variable format_thousands : float -> string.  (* f"{x:,.0f}" *)
Variable format_percent : float -> string.    (* f"{x:.2f}%" *)
Variable series_mean : list float -> float.   (* Series.mean *)

Definition vehicle_review (f : filters) (df_out : frame) (avg_per_year : Z)
    (all_brands : list string) : list review_event * option exn :=
  let intro := ReviewIntro (f_brand f) (f_segment f) (f_fuel_type f) in
  let at_year_0 col := rows_where (fun y => y =? 0) (year df_out) col in
  match
    match extra df_out !! "value"%string with
    | Some value => index0 (at_year_0 value)
    | None => index0 (at_year_0 (prediction df_out))
    end
  with
  | Raise exc => ([intro], Some exc)
  | Ok initial_value =>
      let df_kpi col :=
        rows_where (fun y => negb (y =? 0)) (year df_out) col in
      let avg_drop_pct :=
        match extra df_out !! "depreciation_pct"%string with
        | Some col => series_mean (df_kpi col)
        | None => F64.zero            (* else 0 *)
        end in
      let avg_drop_eur :=
        match extra df_out !! "depreciation"%string with
        | Some col => series_mean (df_kpi col)
        | None => F64.zero            (* else 0 *)
        end in
      let metrics :=
        Metrics (format_thousands initial_value)
          (format_percent avg_drop_pct) (format_thousands avg_drop_eur) in
      match
        calculate_brand_comparison_data cached_predict_func str_upper
          str_title format_thousands format_percent series_mean all_brands
          (f_brand f) f avg_per_year
      with
      | Raise exc => ([intro; metrics], Some exc)
      | Ok comparison_data =>
          ([intro; metrics; ComparisonTable comparison_data], None)
      end
  end.

End Review.

(** ** ui_components.py: render_results_table *)

(** The style of one row of the results table: every cell of the row whose
    year is the selected age gets the highlight colour, every other cell
    the base colour. *)
Definition highlight_selected_year (age_sel : Z) (row_year : Z)
    (row_width : nat) : list string :=
  let base_color := "#0E1117"%string in
  let highlight_color := "#232635"%string in
  replicate row_width
    (if row_year =? age_sel
     then ("background-color: " ++ highlight_color)%string
     else ("background-color: " ++ base_color)%string).

(** [df_display.style.apply(highlight_selected_year, axis=1)]: the styles
    of the rows, in order. *)
Definition results_table_styles (years : list Z) (age_sel : Z)
    (row_width : nat) : list (list string) :=
  map (fun row_year => highlight_selected_year age_sel row_year row_width)
    years.

From Stdlib Require Import Ascii DecimalString DecimalN DecimalPos.

(** ** data_processing.py: format_dataframe_for_display *)

(** The [,] option of a format: the digits, here from the last to the
    first, with a separator after every third one that has a digit
    behind it. *)
Fixpoint group3_rev (sep : ascii) (rev_digits : list ascii) : list ascii :=
  match rev_digits with
  | a :: b :: c :: rest =>
      match rest with
      | [] => [a; b; c]
      | _ => a :: b :: c :: sep :: group3_rev sep rest
      end
  | _ => rev_digits
  end.

Definition group_thousands (sep : ascii) (digits : list ascii) : list ascii :=
  reverse (group3_rev sep (reverse digits)).

(** The decimal digits of a natural number. *)
Definition decimal_digits (n : Z) : list ascii :=
  list_ascii_of_string (NilZero.string_of_uint (N.to_uint (Z.to_N n))).

(** [f"{x:,.0f}"] on a float: the value rounded to the nearest integer,
    ties to even, with its sign and with commas between the thousands. *)
Definition format_comma_f0 (x : float) : string :=
  match x with
  | S754_nan => "nan"
  | S754_infinity s => if s then "-inf" else "inf"
  | S754_zero s => if s then "-0" else "0"
  | S754_finite s m e =>
      let n := if 0 <=? e then Z.pos m * 2 ^ e
               else F64.round_half_even (Z.pos m) (2 ^ (- e)) in
      ((if s then "-" else "") ++
       string_of_list_ascii (group_thousands "," (decimal_digits n)))%string
  end.

(** [f"{x:,.0f}"] on an [int], which is converted to a float first. *)
Definition format_comma_f0_int (x : Z) : result string :=
  fx ← float_of_int x; Ok (format_comma_f0 fx).

(** [s.replace(old, new)] for two characters. *)
Definition str_replace (old new : ascii) (s : string) : string :=
  string_of_list_ascii
    (map (fun c => if Ascii.eqb c old then new else c)
       (list_ascii_of_string s)).

(** [Series.apply(func)]: the cells in order; the first exception ends
    the call. *)
Fixpoint series_apply {A B} (func : A -> result B) (cells : list A)
    : result (list B) :=
  match cells with
  | [] => Ok []
  | x :: rest =>
      y ← func x; ys ← series_apply func rest; Ok (y :: ys)
  end.

(** The frame shown in the results table. *)
Record display_frame : Type := DisplayFrame {
  d_year : list Z;                  (* "Year" *)
  d_km : list string;               (* "km" *)
  d_prediction : list string;       (* "Value (€)" *)
  d_depreciation : list string;     (* "Annual Depreciation (€)" *)
  d_depreciation_pct : list string; (* "Annual Depreciation (%)" *)
  d_accum_depreciation : list string(* "Accum. Depreciation (%)" *)
}.

(** The lambdas applied to the km column and to the prediction and
    depreciation columns. *)
Definition km_cell (x : Z) : result string :=
  str_replace "," "." <$> format_comma_f0_int x.

Definition value_cell (x : float) : result string :=
  n ← round_float x; str_replace "," "." <$> format_comma_f0_int n.

Section Format.

(** [f"{x:.2f}"] *)
Variable format_2f : float -> string.

Definition percent_cell (x : float) : result string :=
  Ok (format_2f x ++ "%")%string.

(** [df[name]] of a derived column. *)
Definition column (df : frame) (name : string) : result (list float) :=
  match extra df !! name with
  | Some col => Ok col
  | None => Raise KeyError
  end.

Definition format_dataframe_for_display (df : frame) : result display_frame :=
  km ← series_apply km_cell (km df);
  prediction ← series_apply value_cell (prediction df);
  depreciation ← column df "depreciation" ≫= series_apply value_cell;
  depreciation_pct ←
    column df "depreciation_pct" ≫= series_apply percent_cell;
  accum_depreciation ←
    column df "accum_depreciation" ≫= series_apply percent_cell;
  Ok (DisplayFrame (year df) km prediction depreciation depreciation_pct
        accum_depreciation).

End Format.

(** Reading a number back from its display: the separators are dropped
    and the rest is read as a decimal numeral. *)
Definition read_thousands (sep : ascii) (s : string) : option Z :=
  d ← NilZero.uint_of_string
         (string_of_list_ascii
            (filter (fun c => c <> sep) (list_ascii_of_string s)));
  Some (Z.of_N (N.of_uint d)).


(** * Proofs *)

(** ** The exception monad and the loops *)

Lemma bind_ok {A B} (m : result A) (k : A -> result B) (b : B) :
  m ≫= k = Ok b -> exists a, m = Ok a /\ k a = Ok b.
Proof. destruct m as [a|e]; simpl; [eauto|discriminate]. Qed.

Lemma for_append_ok {A B} (body : A -> result B) items acc r :
  for_append body items acc = Ok r ->
  exists bs, r = acc ++ bs /\ Forall2 (fun x b => body x = Ok b) items bs.
Proof.
  revert acc. induction items as [|x items IH]; intros acc H; simpl in H.
  - exists []. inversion H. rewrite app_nil_r. split; [reflexivity|constructor].
  - destruct (body x) as [b|e] eqn:Hb; [|discriminate].
    destruct (IH _ H) as (bs & -> & Hbs). exists (b :: bs).
    rewrite <- app_assoc. split; [reflexivity|]. constructor; assumption.
Qed.

Lemma for_append_returns {A B} (body : A -> result B) items acc :
  Forall (fun x => returns (body x)) items ->
  returns (for_append body items acc).
Proof.
  intros H. revert acc. induction H as [|x items [b Hb] _ IH]; intros acc; simpl.
  - eexists; reflexivity.
  - rewrite Hb. apply IH.
Qed.

Lemma range_0_11 : range 0 11 = [0; 1; 2; 3; 4; 5; 6; 7; 8; 9; 10].
Proof. reflexivity. Qed.

Lemma range_4 a : range a (a + 4) = [a; a + 1; a + 2; a + 3].
Proof.
  unfold range. replace (a + 4 - a) with 4 by lia. simpl.
  repeat f_equal; lia.
Qed.

(** ** Binary64 rounding *)

Lemma iter_pos_nat {A} (f : A -> A) p x :
  SpecFloat.iter_pos f p x = Nat.iter (Pos.to_nat p) f x.
Proof.
  revert x. induction p as [p IH|p IH|]; intros x.
  - change (SpecFloat.iter_pos f p~1 x)
      with (SpecFloat.iter_pos f p (SpecFloat.iter_pos f p (f x))).
    rewrite !IH, Pos2Nat.inj_xI.
    replace (S (2 * Pos.to_nat p)) with (Pos.to_nat p + S (Pos.to_nat p))%nat by lia.
    rewrite Nat.iter_add, Nat.iter_succ_r. reflexivity.
  - change (SpecFloat.iter_pos f p~0 x)
      with (SpecFloat.iter_pos f p (SpecFloat.iter_pos f p x)).
    rewrite !IH, Pos2Nat.inj_xO.
    replace (2 * Pos.to_nat p)%nat with (Pos.to_nat p + Pos.to_nat p)%nat by lia.
    rewrite Nat.iter_add. reflexivity.
  - reflexivity.
Qed.

Lemma shr_1_m mrs : 0 <= shr_m mrs -> shr_m (shr_1 mrs) = shr_m mrs / 2.
Proof.
  destruct mrs as [m r s]. cbn [shr_m]. intros Hm.
  destruct m as [|[p|p|]|p]; cbn [shr_1 shr_m]; try lia; try reflexivity.
  - apply Z.div_unique with 1; lia.
  - apply Z.div_unique with 0; lia.
Qed.

Lemma shr_iter_m n mrs :
  0 <= shr_m mrs -> shr_m (Nat.iter n shr_1 mrs) = shr_m mrs / 2 ^ Z.of_nat n.
Proof.
  intros Hm. induction n as [|n IH].
  - simpl. now rewrite Z.div_1_r.
  - rewrite Nat2Z.inj_succ, Z.pow_succ_r by lia. simpl.
    rewrite shr_1_m; rewrite IH.
    + rewrite Z.div_div by lia. f_equal. lia.
    + apply Z.div_pos; lia.
Qed.

Lemma shr_m_nonneg mrs e n :
  0 <= shr_m mrs -> 0 <= shr_m (shr mrs e n).1.
Proof.
  intros Hm. destruct n as [|p|p]; simpl; try assumption.
  rewrite iter_pos_nat, shr_iter_m by assumption.
  apply Z.div_pos; lia.
Qed.

Lemma shr_record_of_loc_m m l : shr_m (shr_record_of_loc m l) = m.
Proof. destruct l as [|[]]; reflexivity. Qed.

Lemma round_nearest_even_bounds m l :
  m <= round_nearest_even m l <= m + 1.
Proof.
  destruct l as [|[]]; simpl; try lia. destruct (Z.even m); lia.
Qed.

Lemma shr_fexp_nonneg prec emax m e l :
  0 <= m -> 0 <= shr_m (shr_fexp prec emax m e l).1.
Proof.
  intros Hm. unfold shr_fexp. apply shr_m_nonneg.
  now rewrite shr_record_of_loc_m.
Qed.

(** [binary_round_aux] on a non-negative significand: a zero, a finite
    number or an infinity of the given sign. *)
Lemma binary_round_aux_not_nan prec emax s m e l :
  0 <= m -> binary_round_aux prec emax s m e l <> S754_nan.
Proof.
  intros Hm. unfold binary_round_aux.
  pose proof (shr_fexp_nonneg prec emax m e l Hm) as H1.
  destruct (shr_fexp prec emax m e l) as [mrs' e'] eqn:E1. simpl in H1.
  pose proof (round_nearest_even_bounds (shr_m mrs') (loc_of_shr_record mrs')) as Hr.
  pose proof (shr_fexp_nonneg prec emax
    (round_nearest_even (shr_m mrs') (loc_of_shr_record mrs')) e' loc_Exact
    ltac:(lia)) as H2.
  destruct (shr_fexp prec emax _ e' loc_Exact) as [mrs'' e''] eqn:E2.
  simpl in H2.
  destruct (shr_m mrs'') as [|p|p]; try discriminate; try lia.
  destruct (e'' <=? emax - prec); discriminate.
Qed.

(** *** Number of binary digits *)

Lemma digits2_pos_size p : digits2_pos p = Pos.size p.
Proof. induction p; simpl; congruence. Qed.

Lemma Zdigits2_log2 m : 0 < m -> Zdigits2 m = Z.log2 m + 1.
Proof.
  destruct m as [|p|p]; try lia. intros _. simpl.
  rewrite digits2_pos_size. destruct p; simpl; lia.
Qed.

Lemma Zdigits2_bounds m :
  0 < m -> 2 ^ (Zdigits2 m - 1) <= m < 2 ^ Zdigits2 m.
Proof.
  intros Hm. rewrite Zdigits2_log2 by assumption.
  replace (Z.log2 m + 1 - 1) with (Z.log2 m) by lia.
  apply Z.log2_spec; assumption.
Qed.

Lemma Zdigits2_nonneg m : 0 <= Zdigits2 m.
Proof. destruct m; simpl; lia. Qed.

Lemma Zdigits2_le_of_lt m d : 0 <= m -> 0 <= d -> m < 2 ^ d -> Zdigits2 m <= d.
Proof.
  intros Hm Hd Hlt. destruct (Z.eq_dec m 0) as [->|Hne]; [simpl; lia|].
  rewrite Zdigits2_log2 by lia.
  assert (Z.log2 m < d) by (apply Z.log2_lt_pow2; lia). lia.
Qed.

Lemma Zdigits2_lt_pow m d : 0 <= m -> Zdigits2 m <= d -> m < 2 ^ d.
Proof.
  intros Hm Hd. destruct (Z.eq_dec m 0) as [->|Hne].
  - simpl in Hd. apply Z.pow_pos_nonneg; lia.
  - pose proof (Zdigits2_bounds m ltac:(lia)) as [_ H].
    eapply Z.lt_le_trans; [exact H|]. apply Z.pow_le_mono_r; lia.
Qed.

Lemma Zdigits2_unique m d : 2 ^ (d - 1) <= m < 2 ^ d -> 0 < d -> Zdigits2 m = d.
Proof.
  intros [Hlo Hhi] Hd.
  assert (0 < m) by (pose proof (Z.pow_pos_nonneg 2 (d - 1)); lia).
  rewrite Zdigits2_log2 by assumption.
  rewrite (Z.log2_unique m (d - 1)); [lia|lia|].
  replace (Z.succ (d - 1)) with d by lia. lia.
Qed.


Lemma shr_1_eq m r s :
  0 <= m ->
  shr_1 (Build_shr_record m r s) = Build_shr_record (m / 2) (Z.odd m) (r || s).
Proof.
  intros Hm. destruct m as [|[p|p|]|p]; cbn [shr_1]; try lia; f_equal.
  - apply Z.div_unique with 1; lia.
  - apply Z.div_unique with 0; lia.
Qed.

Lemma shr_1_represents mrs N D :
  0 <= N -> 0 < D -> represents mrs N D -> represents (shr_1 mrs) N (D * 2).
Proof.
  intros HN HD. destruct mrs as [m r s]. unfold represents. cbn [shr_m shr_r shr_s].
  intros (Hm & Hr & Hs).
  assert (0 <= m) by (subst m; apply Z.div_pos; lia).
  rewrite shr_1_eq by assumption. cbn [shr_m shr_r shr_s].
  pose proof (Z.mod_pos_bound N D HD) as Ht.
  pose proof (Z.mod_pos_bound m 2 ltac:(lia)) as Hb.
  rewrite Z.rem_mul_r by lia. rewrite <- Hm.
  rewrite <- Z.div_div by lia. rewrite <- Hm.
  rewrite (Zmod_odd m). split; [reflexivity|]. subst r s.
  destruct (Z.odd m).
  2:{ rewrite Z.mul_0_r, Z.add_0_r.
    split.
    + symmetry. apply Z.leb_gt. lia.
    + destruct (Z.leb_spec D (2 * (N mod D))), (Z.eqb_spec (N mod D) 0),
        (Z.eqb_spec (2 * (N mod D)) D), (Z.eqb_spec (2 * (N mod D)) (D * 2));
        simpl; try reflexivity; lia. }
  - split.
    + symmetry. apply Z.leb_le. lia.
    + destruct (Z.leb_spec D (2 * (N mod D))), (Z.eqb_spec (N mod D) 0),
        (Z.eqb_spec (2 * (N mod D)) D),
        (Z.eqb_spec (N mod D + D * 1) 0),
        (Z.eqb_spec (2 * (N mod D + D * 1)) (D * 2));
        simpl; try reflexivity; lia.
Qed.

Lemma shr_iter_represents n mrs N D :
  0 <= N -> 0 < D -> represents mrs N D ->
  represents (Nat.iter n shr_1 mrs) N (D * 2 ^ Z.of_nat n).
Proof.
  intros HN HD H. induction n as [|n IH].
  - simpl. now rewrite Z.mul_1_r.
  - rewrite Nat2Z.inj_succ, Z.pow_succ_r by lia. simpl.
    replace (D * (2 * 2 ^ Z.of_nat n)) with (D * 2 ^ Z.of_nat n * 2) by lia.
    apply shr_1_represents; try assumption.
    apply Z.mul_pos_pos; [lia|]. apply Z.pow_pos_nonneg; lia.
Qed.

Lemma exact_represents m : represents (shr_record_of_loc m loc_Exact) m 1.
Proof.
  unfold represents. simpl. rewrite Z.div_1_r, Z.mod_1_r. simpl. auto.
Qed.

Lemma new_location_represents N D :
  0 <= N -> 0 < D ->
  represents (shr_record_of_loc (N / D) (new_location D (N mod D))) N D.
Proof.
  intros HN HD. pose proof (Z.mod_pos_bound N D HD) as Ht.
  unfold represents, new_location, new_location_even, new_location_odd.
  set (t := N mod D) in *.
  destruct (Z.even D) eqn:Ev.
  - destruct (Z.eqb_spec t 0) as [E|E].
    + rewrite E. simpl. repeat split. symmetry. apply Z.leb_gt. lia.
    + destruct (Z.compare_spec (2 * t) D); simpl; repeat split;
        destruct (Z.leb_spec D (2 * t)), (Z.eqb_spec (2 * t) D);
        simpl; try reflexivity; lia.
  - assert (2 * t <> D).
    { intros E. rewrite <- E in Ev. rewrite Z.even_mul in Ev. discriminate. }
    destruct (Z.eqb_spec t 0) as [E|E].
    + rewrite E. simpl. repeat split. symmetry. apply Z.leb_gt. lia.
    + destruct (Z.compare_spec (2 * t + 1) D); simpl; repeat split;
        destruct (Z.leb_spec D (2 * t)), (Z.eqb_spec (2 * t) D);
        simpl; try reflexivity; lia.
Qed.

Lemma round_nearest_even_represents mrs N D :
  0 <= N -> 0 < D -> represents mrs N D ->
  round_nearest_even (shr_m mrs) (loc_of_shr_record mrs)
  = F64.round_half_even N D.
Proof.
  intros HN HD. destruct mrs as [m r s]. unfold represents.
  cbn [shr_m shr_r shr_s]. intros (Hm & Hr & Hs).
  pose proof (Z.mod_pos_bound N D HD) as Ht.
  unfold F64.round_half_even. rewrite <- Hm. subst r s.
  destruct (Z.compare_spec (2 * (N mod D)) D);
    destruct (Z.leb_spec D (2 * (N mod D))), (Z.eqb_spec (N mod D) 0),
      (Z.eqb_spec (2 * (N mod D)) D); simpl; try reflexivity; lia.
Qed.

(** *** [binary_round_aux] as a rounding of a ratio *)


Lemma shr_as_iter mrs e k :
  shr mrs e k = (Nat.iter (Z.to_nat (Z.max 0 k)) shr_1 mrs, e + Z.max 0 k).
Proof.
  destruct k as [|p|p]; cbn [shr].
  - simpl. f_equal. lia.
  - rewrite iter_pos_nat, Z.max_r by lia. reflexivity.
  - simpl. f_equal. lia.
Qed.

Lemma binary_round_aux_ratio prec emax s m e l N D :
  0 <= N -> 0 < D -> represents (shr_record_of_loc m l) N D ->
  let n := Z.max 0 (fexp prec emax (Zdigits2 m + e) - e) in
  binary_round_aux prec emax s m e l
  = renorm prec emax s (F64.round_half_even N (D * 2 ^ n)) (e + n).
Proof.
  intros HN HD Hrep n. unfold binary_round_aux, renorm.
  unfold shr_fexp at 1. rewrite shr_as_iter. fold n.
  rewrite (round_nearest_even_represents _ N (D * 2 ^ n)); try assumption.
  - reflexivity.
  - apply Z.mul_pos_pos; [lia|]. apply Z.pow_pos_nonneg; lia.
  - replace n with (Z.of_nat (Z.to_nat n)) at 2 by lia.
    apply shr_iter_represents; assumption.
Qed.

(** Shape of the packed result. *)
Lemma renorm_shape prec emax s m1 e1 :
  0 < prec -> 0 <= m1 ->
  let e2 := Z.max e1 (fexp prec emax (Zdigits2 m1 + e1)) in
  (renorm prec emax s m1 e1 = S754_zero s /\ m1 / 2 ^ (e2 - e1) = 0) \/
  (emax - prec < e2 /\ renorm prec emax s m1 e1 = S754_infinity s) \/
  (e2 <= emax - prec /\
   exists m2, renorm prec emax s m1 e1 = S754_finite s m2 e2 /\
              Z.pos m2 = m1 / 2 ^ (e2 - e1) /\ Z.pos m2 < 2 ^ prec).
Proof.
  intros Hprec Hm e2. unfold renorm, shr_fexp. rewrite shr_as_iter.
  set (k := Z.max 0 (fexp prec emax (Zdigits2 m1 + e1) - e1)).
  assert (e1 + k = e2) as -> by (unfold k, e2; lia).
  rewrite shr_iter_m by (simpl; lia). simpl shr_m.
  replace (Z.of_nat (Z.to_nat k)) with (e2 - e1) by (unfold k, e2; lia).
  assert (0 <= m1 / 2 ^ (e2 - e1)) as Hq.
  { apply Z.div_pos; [assumption|]. apply Z.pow_pos_nonneg; unfold e2; lia. }
  destruct (m1 / 2 ^ (e2 - e1)) as [|p|p] eqn:Eq; [auto| |lia].
  right. destruct (Z.leb_spec e2 (emax - prec)); [right|left; auto].
  split; [assumption|]. exists p. split; [reflexivity|]. split; [reflexivity|].
  rewrite <- Eq.
  assert (0 < m1) as Hpos.
  { destruct (Z.eq_dec m1 0) as [->|]; [|lia]. rewrite Z.div_0_l in Eq; [lia|].
    apply Z.pow_nonzero; unfold e2; lia. }
  pose proof (Zdigits2_bounds m1 Hpos) as [_ Hhi].
  apply Z.div_lt_upper_bound; [apply Z.pow_pos_nonneg; unfold e2; lia|].
  rewrite <- Z.pow_add_r by (unfold e2; lia).
  eapply Z.lt_le_trans; [exact Hhi|].
  apply Z.pow_le_mono_r; [lia|]. unfold e2, fexp. lia.
Qed.

Lemma round_half_even_bounds N D :
  N / D <= F64.round_half_even N D <= N / D + 1.
Proof.
  unfold F64.round_half_even.
  destruct (2 * (N mod D) ?= D); [destruct (Z.even (N / D))| |]; lia.
Qed.

Lemma loc_represented m l :
  0 <= m ->
  exists N D, 0 <= N /\ 0 < D /\ N / D = m /\
              represents (shr_record_of_loc m l) N D.
Proof.
  intros Hm. destruct l as [|[]].
  - exists m, 1. split; [lia|]. split; [lia|].
    split; [apply Z.div_1_r|apply exact_represents].
  - exists (2 * m + 1), 2.
    assert ((2 * m + 1) / 2 = m) as E by (symmetry; apply Z.div_unique with 1; lia).
    assert ((2 * m + 1) mod 2 = 1) as E' by (symmetry; apply Z.mod_unique with m; lia).
    split; [lia|]. split; [lia|]. split; [exact E|].
    unfold represents. rewrite E, E'. repeat split; reflexivity.
  - exists (4 * m + 1), 4.
    assert ((4 * m + 1) / 4 = m) as E by (symmetry; apply Z.div_unique with 1; lia).
    assert ((4 * m + 1) mod 4 = 1) as E' by (symmetry; apply Z.mod_unique with m; lia).
    split; [lia|]. split; [lia|]. split; [exact E|].
    unfold represents. rewrite E, E'. repeat split; reflexivity.
  - exists (4 * m + 3), 4.
    assert ((4 * m + 3) / 4 = m) as E by (symmetry; apply Z.div_unique with 3; lia).
    assert ((4 * m + 3) mod 4 = 3) as E' by (symmetry; apply Z.mod_unique with m; lia).
    split; [lia|]. split; [lia|]. split; [exact E|].
    unfold represents. rewrite E, E'. repeat split; reflexivity.
Qed.

Lemma Zdigits2_succ_le m m1 :
  0 <= m -> 0 <= m1 <= m + 1 -> Zdigits2 m1 <= Zdigits2 m + 1.
Proof.
  intros Hm H. pose proof (Zdigits2_nonneg m).
  apply Zdigits2_le_of_lt; [lia|lia|].
  assert (m < 2 ^ Zdigits2 m) by (apply Zdigits2_lt_pow; lia).
  rewrite Z.pow_add_r by lia. change (2 ^ 1) with 2. lia.
Qed.

(** [binary_round_aux] never yields a NaN on a non-negative significand,
    and its result has a significand below [2 ^ prec]. *)
Lemma binary_round_aux_shape prec emax s m e l :
  0 < prec -> 0 <= m ->
  exists m1 e1,
    0 <= m1 <= m + 1 /\
    e1 = Z.max e (fexp prec emax (Zdigits2 m + e)) /\
    binary_round_aux prec emax s m e l = renorm prec emax s m1 e1.
Proof.
  intros Hprec Hm. destruct (loc_represented m l Hm) as (N & D & HN & HD & E & Hrep).
  rewrite (binary_round_aux_ratio prec emax s m e l N D HN HD Hrep).
  set (n := Z.max 0 (fexp prec emax (Zdigits2 m + e) - e)).
  assert (0 < 2 ^ n) by (apply Z.pow_pos_nonneg; lia).
  exists (F64.round_half_even N (D * 2 ^ n)), (e + n).
  split; [|split; [lia|reflexivity]].
  pose proof (round_half_even_bounds N (D * 2 ^ n)) as Hb.
  rewrite <- Z.div_div in Hb by lia. rewrite E in Hb.
  assert (0 <= m / 2 ^ n <= m).
  { split; [apply Z.div_pos; lia|]. apply Z.div_le_upper_bound; nia. }
  lia.
Qed.

(** *** Binary64 instances *)

Lemma fexp64 e : fexp 53 1024 e = Z.max (e - 53) (-1074).
Proof. reflexivity. Qed.

Lemma binary_round_aux_64_bounded s m e l dd ee :
  0 <= m -> Zdigits2 m <= dd -> e <= ee ->
  let E1 := Z.max ee (Z.max (dd + ee - 53) (-1074)) in
  let E2 := Z.max E1 (dd + E1 - 52) in
  E2 <= 971 ->
  binary_round_aux 53 1024 s m e l = S754_zero s \/
  exists m2 e2,
    binary_round_aux 53 1024 s m e l = S754_finite s m2 e2 /\
    Z.pos m2 < 2 ^ 53 /\ e2 <= E2.
Proof.
  intros Hm Hd He E1 E2 HE.
  destruct (binary_round_aux_shape 53 1024 s m e l ltac:(lia) Hm)
    as (m1 & e1 & Hm1 & He1 & ->).
  pose proof (Zdigits2_succ_le m m1 Hm Hm1) as Hd1.
  rewrite fexp64 in He1.
  destruct (renorm_shape 53 1024 s m1 e1 ltac:(lia) ltac:(lia))
    as [[H _]|[[H _]|(_ & m2 & H & _ & Hlt)]]; rewrite ?fexp64 in *.
  - left; exact H.
  - exfalso. unfold E2, E1 in *. lia.
  - right. exists m2, (Z.max e1 (Z.max (Zdigits2 m1 + e1 - 53) (-1074))).
    split; [exact H|]. split; [exact Hlt|]. unfold E2, E1. lia.
Qed.

(** Rounding to nearest is invariant under scaling the ratio. *)
Lemma round_half_even_scale N D c :
  0 < c -> 0 < D ->
  F64.round_half_even (N * c) (D * c) = F64.round_half_even N D.
Proof.
  intros Hc HD. unfold F64.round_half_even.
  rewrite Z.div_mul_cancel_r by lia.
  rewrite Z.mul_mod_distr_r by lia.
  replace (2 * (N mod D * c)) with (2 * (N mod D) * c) by lia.
  destruct (Z.compare_spec (2 * (N mod D) * c) (D * c)),
    (Z.compare_spec (2 * (N mod D)) D); try reflexivity; nia.
Qed.

(** Rounding [a * 2^K / b] to nearest and dropping [K] bits is the integer
    quotient, as long as [b] has at most [K + 1] bits. *)
Lemma round_half_even_trunc a b K :
  0 <= a -> 0 < b < 2 ^ (K + 1) -> 0 <= K ->
  F64.round_half_even (a * 2 ^ K) b / 2 ^ K = a / b.
Proof.
  intros Ha [Hb Hb2] HK.
  assert (0 < 2 ^ K) as HP by (apply Z.pow_pos_nonneg; lia).
  rewrite Z.pow_add_r in Hb2 by lia. change (2 ^ 1) with 2 in Hb2.
  set (P := 2 ^ K) in *.
  assert (a * P / b / P = a / b) as Hq.
  { rewrite Z.div_div by lia. rewrite Z.div_mul_cancel_r by lia. reflexivity. }
  pose proof (Z.div_mod (a * P) b ltac:(lia)) as HX.
  pose proof (Z.mod_pos_bound (a * P) b Hb) as Ht.
  set (q := a * P / b) in *. set (t := (a * P) mod b) in *.
  unfold F64.round_half_even. fold q t.
  assert (2 * t >= b -> (q + 1) / P = q / P) as Hup.
  { intros H2t.
    pose proof (Z.div_mod q P ltac:(lia)) as Hq'.
    pose proof (Z.mod_pos_bound q P HP) as Hu.
    set (c := q / P) in *. set (u := q mod P) in *.
    destruct (Z.eq_dec u (P - 1)) as [Eu|Nu].
    - exfalso.
      assert (P * (a - b * c - b) = t - b) as Hw by nia.
      assert (a - b * c - b <= -1 \/ 0 <= a - b * c - b) as [Hneg|Hnn] by lia; nia.
    - symmetry. apply Z.div_unique with (u + 1); lia. }
  destruct (Z.compare_spec (2 * t) b); [destruct (Z.even q)| |];
    rewrite ?Hup by lia; exact Hq.
Qed.

Lemma div_core_ints a b :
  0 < a < 2 ^ 53 -> 0 < b < 2 ^ 53 ->
  let s := 53 + Zdigits2 b - Zdigits2 a in
  SFdiv_core_binary 53 1024 a 0 b 0
  = (a * 2 ^ s / b, - s, new_location b ((a * 2 ^ s) mod b)).
Proof.
  intros Ha Hb s.
  assert (1 <= Zdigits2 a <= 53) as Hda.
  { split; [rewrite Zdigits2_log2 by lia; pose proof (Z.log2_nonneg a); lia|].
    apply Zdigits2_le_of_lt; lia. }
  assert (1 <= Zdigits2 b <= 53) as Hdb.
  { split; [rewrite Zdigits2_log2 by lia; pose proof (Z.log2_nonneg b); lia|].
    apply Zdigits2_le_of_lt; lia. }
  unfold SFdiv_core_binary.
  assert (Z.min (fexp 53 1024 (Zdigits2 a + 0 - (Zdigits2 b + 0))) (0 - 0) = - s)
    as -> by (rewrite fexp64; unfold s; lia).
  replace (0 - 0 - - s) with s by lia.
  assert (0 < s) as Hs by (unfold s; lia).
  destruct s as [|p|p] eqn:Es; try lia.
  rewrite Z.shiftl_mul_pow2 by lia.
  unfold Z.div, Z.modulo.
  destruct (Z.div_eucl (a * 2 ^ Z.pos p) b) as [q r]. reflexivity.
Qed.

Lemma int_truediv_pos a b :
  0 < a < 2 ^ 53 -> 0 < b < 2 ^ 53 ->
  exists m e,
    int_truediv a b = Ok (S754_finite false m e) /\
    Z.pos m < 2 ^ 53 /\ e <= 0 /\
    F64.trunc (S754_finite false m e) = Some (a / b).
Proof.
  intros Ha Hb.
  assert (1 <= Zdigits2 a <= 53) as Hda.
  { split; [rewrite Zdigits2_log2 by lia; pose proof (Z.log2_nonneg a); lia|].
    apply Zdigits2_le_of_lt; lia. }
  assert (1 <= Zdigits2 b <= 53) as Hdb.
  { split; [rewrite Zdigits2_log2 by lia; pose proof (Z.log2_nonneg b); lia|].
    apply Zdigits2_le_of_lt; lia. }
  pose proof (Zdigits2_bounds a ltac:(lia)) as Hba.
  pose proof (Zdigits2_bounds b ltac:(lia)) as Hbb.
  set (s := 53 + Zdigits2 b - Zdigits2 a).
  assert (1 <= s <= 105) as Hs by (unfold s; lia).
  set (Q := a * 2 ^ s / b).
  assert (2 ^ 52 <= Q < 2 ^ 54) as HQ.
  { assert (2 ^ (Zdigits2 a - 1) * 2 ^ s = 2 ^ 52 * 2 ^ Zdigits2 b) as E1.
    { rewrite <- !Z.pow_add_r by lia. f_equal. unfold s. lia. }
    assert (2 ^ Zdigits2 a * 2 ^ s = 2 ^ 54 * 2 ^ (Zdigits2 b - 1)) as E2.
    { rewrite <- !Z.pow_add_r by lia. f_equal. unfold s. lia. }
    assert (0 < 2 ^ s) by (apply Z.pow_pos_nonneg; lia).
    split.
    - apply Z.div_le_lower_bound; [lia|]. nia.
    - apply Z.div_lt_upper_bound; [lia|]. nia. }
  assert (exists n, n = Zdigits2 Q - 53 /\ 0 <= n <= 1 /\
                    2 ^ (52 + n) <= Q < 2 ^ (53 + n)) as (n & Hndef & Hn & HQn).
  { destruct (Z_lt_le_dec Q (2 ^ 53)) as [Hlt|Hge].
    - assert (Zdigits2 Q = 53) as E by (apply Zdigits2_unique; lia).
      exists 0. rewrite E. simpl. lia.
    - assert (Zdigits2 Q = 54) as E by (apply Zdigits2_unique; lia).
      exists 1. rewrite E. simpl. lia. }
  set (K := s - n).
  assert (0 <= K) as HK by (unfold K; lia).
  assert (b < 2 ^ (K + 1)) as HbK.
  { eapply Z.lt_le_trans; [apply Hbb|].
    apply Z.pow_le_mono_r; [lia|]. unfold K, s. lia. }
  set (m1 := F64.round_half_even (a * 2 ^ s) (b * 2 ^ n)).
  assert (m1 = F64.round_half_even (a * 2 ^ K) b) as Em1.
  { unfold m1. replace s with (K + n) by (unfold K; lia).
    rewrite Z.pow_add_r by lia. rewrite Z.mul_assoc.
    apply round_half_even_scale; [apply Z.pow_pos_nonneg|]; lia. }
  assert (m1 / 2 ^ K = a / b) as Htr.
  { rewrite Em1. apply round_half_even_trunc; lia. }
  assert (2 ^ 52 <= m1 <= 2 ^ 53) as Hm1.
  { pose proof (round_half_even_bounds (a * 2 ^ s) (b * 2 ^ n)) as Hb1.
    fold m1 in Hb1. rewrite <- Z.div_div in Hb1; [|lia|apply Z.pow_pos_nonneg; lia].
    fold Q in Hb1.
    assert (2 ^ 52 <= Q / 2 ^ n < 2 ^ 53).
    { clear - Hn HQn.
      destruct (Z.eq_dec n 0) as [->|]; [rewrite Z.div_1_r; simpl in HQn; lia|].
      assert (n = 1) as -> by lia. change (2 ^ 1) with 2.
      change (2 ^ (53 + 1)) with (2 * 2 ^ 53) in HQn.
      change (2 ^ (52 + 1)) with (2 * 2 ^ 52) in HQn.
      split; [apply Z.div_le_lower_bound|apply Z.div_lt_upper_bound]; lia. }
    lia. }
  unfold int_truediv.
  destruct b as [|pb|pb]; try lia. destruct a as [|pa|pa]; try lia.
  change (Z.pos pa <? 0) with false. change (Z.pos pb <? 0) with false.
  change (Z.to_pos (Z.abs (Z.pos pa))) with pa.
  change (Z.to_pos (Z.abs (Z.pos pb))) with pb.
  unfold F64.div, SFdiv, F64.prec, F64.emax.
  rewrite (div_core_ints (Z.pos pa) (Z.pos pb) Ha Hb). fold s. fold Q.
  rewrite (binary_round_aux_ratio 53 1024 (xorb false false) Q (- s) _
             (Z.pos pa * 2 ^ s) (Z.pos pb));
    [|apply Z.mul_nonneg_nonneg; [lia|apply Z.pow_nonneg; lia]|lia
     |apply new_location_represents;
        [apply Z.mul_nonneg_nonneg; [lia|apply Z.pow_nonneg; lia]|lia]].
  rewrite fexp64.
  replace (Z.max 0 (Z.max (Zdigits2 Q + - s - 53) (-1074) - - s)) with n
    by lia.
  fold m1. replace (- s + n) with (- K) by (unfold K; lia).
  simpl xorb.
  destruct (renorm_shape 53 1024 false m1 (- K) ltac:(lia) ltac:(lia))
    as [[_ H0]|[[Hinf _]|(He2 & m2 & -> & Hm2 & Hlt)]]; rewrite fexp64 in *.
  - exfalso.
    assert (Zdigits2 m1 <= 54) by (apply Zdigits2_le_of_lt; simpl; lia).
    pose proof (Zdigits2_nonneg m1).
    assert (Z.max (- K) (Z.max (Zdigits2 m1 + - K - 53) (-1074)) - - K = 0 \/
            Z.max (- K) (Z.max (Zdigits2 m1 + - K - 53) (-1074)) - - K = 1)
      as [E|E] by (unfold K in *; lia); rewrite E in H0.
    + rewrite Z.div_1_r in H0. lia.
    + change (2 ^ 1) with 2 in H0.
      assert (2 ^ 51 <= m1 / 2) by (apply Z.div_le_lower_bound; lia). lia.
  - exfalso.
    assert (Zdigits2 m1 <= 54) by (apply Zdigits2_le_of_lt; simpl; lia).
    unfold K in *. lia.
  - set (e2 := Z.max (- K) (Z.max (Zdigits2 m1 + - K - 53) (-1074))) in *.
    assert (e2 <= 0) as He20.
    { destruct (Z.eq_dec K 0) as [EK|NK]; [|
        assert (Zdigits2 m1 <= 54) by (apply Zdigits2_le_of_lt; simpl; lia);
        unfold e2; lia].
      rewrite EK, Z.div_1_r in Htr.
      assert (a' : Z.pos pa / Z.pos pb <= Z.pos pa).
      { apply Z.div_le_upper_bound; nia. }
      assert (Zdigits2 m1 <= 53) by (apply Zdigits2_le_of_lt; lia).
      unfold e2. lia. }
    exists m2, e2. split; [reflexivity|]. split; [exact Hlt|]. split; [exact He20|].
    unfold F64.trunc. f_equal. simpl cond_Zopp. rewrite Hm2, <- Htr.
    assert (- K <= e2) by (unfold e2; lia).
    destruct (Z.leb_spec 0 e2).
    + assert (e2 = 0) as -> by lia. simpl (2 ^ 0). rewrite Z.mul_1_r.
      replace (0 - - K) with K by lia. reflexivity.
    + rewrite Z.div_div;
        [|apply Z.pow_nonzero; lia|apply Z.pow_pos_nonneg; lia].
      rewrite <- Z.pow_add_r by lia. f_equal. f_equal. lia.
Qed.


Lemma digits2_pos_iter_xO p d :
  Z.pos (digits2_pos (Pos.iter xO p d)) = Z.pos (digits2_pos p) + Z.pos d.
Proof.
  induction d as [|d IH] using Pos.peano_ind.
  - simpl. lia.
  - rewrite Pos.iter_succ. simpl digits2_pos. lia.
Qed.

Lemma of_int_small y : 0 <= y < 2 ^ 53 -> small (F64.of_int y).
Proof.
  intros Hy. destruct y as [|p|p]; try lia; [exact I|].
  unfold F64.of_int, binary_normalize, binary_round, F64.prec, F64.emax.
  pose proof (Zdigits2_bounds (Z.pos p) ltac:(lia)) as Hb.
  assert (1 <= Zdigits2 (Z.pos p) <= 53) as Hd.
  { split; [rewrite Zdigits2_log2 by lia; pose proof (Z.log2_nonneg (Z.pos p)); lia|].
    apply Zdigits2_le_of_lt; lia. }
  change (Zdigits2 (Z.pos p)) with (Z.pos (digits2_pos p)) in Hd.
  rewrite fexp64.
  destruct (shl_align p 0 (Z.max (Z.pos (digits2_pos p) + 0 - 53) (-1074)))
    as [mz ez] eqn:E.
  assert (Zdigits2 (Z.pos mz) <= 53 /\ ez <= 0) as [Hmz Hez].
  { unfold shl_align in E.
    destruct (Z.max (Z.pos (digits2_pos p) + 0 - 53) (-1074) - 0) as [|d|d] eqn:Ed;
      inversion E; subst; simpl Zdigits2.
    - lia.
    - lia.
    - rewrite digits2_pos_iter_xO. lia. }
  destruct (binary_round_aux_64_bounded false (Z.pos mz) ez loc_Exact 53 0
              ltac:(lia) Hmz Hez ltac:(simpl; lia))
    as [->|(m2 & e2 & -> & Hlt & He2)]; [exact I|].
  simpl in He2. simpl. lia.
Qed.

Lemma mul_small x y : small x -> small y -> F64.is_finite (F64.mul x y) = true.
Proof.
  destruct x as [sx|sx| |sx mx ex], y as [sy|sy| |sy my ey]; simpl;
    try contradiction; try reflexivity.
  intros [Hx Hex] [Hy Hey].
  assert (Zdigits2 (Z.pos (mx * my)) <= 106).
  { apply Zdigits2_le_of_lt; try lia. rewrite Pos2Z.inj_mul.
    change (2 ^ 106) with (2 ^ 53 * 2 ^ 53). nia. }
  destruct (binary_round_aux_64_bounded (xorb sx sy) (Z.pos (mx * my))
              (ex + ey) loc_Exact 106 4 ltac:(lia) ltac:(assumption)
              ltac:(lia) ltac:(simpl; lia))
    as [H0|(m2 & e2 & H0 & _)]; unfold F64.mul, SFmul, F64.prec, F64.emax;
    rewrite H0; reflexivity.
Qed.

Lemma round_float_finite x :
  F64.is_finite x = true -> exists z, round_float x = Ok z.
Proof. destruct x; simpl; try discriminate; eauto. Qed.

Lemma int_truediv_small a b :
  0 <= a < 2 ^ 53 -> 0 < b < 2 ^ 53 ->
  exists q, int_truediv a b = Ok q /\ small q /\ F64.trunc q = Some (a / b).
Proof.
  intros Ha Hb. destruct (Z.eq_dec a 0) as [->|Hne].
  - exists (S754_zero false). unfold int_truediv.
    destruct b; try lia. simpl. auto.
  - destruct (int_truediv_pos a b ltac:(lia) Hb) as (m & e & H & Hm & He & Ht).
    exists (S754_finite false m e). simpl. repeat split; try assumption; lia.
Qed.

(** *** The operations never invent a NaN from finite operands *)

Lemma binary_normalize_not_nan prec emax m e sz :
  F64.is_nan (binary_normalize prec emax m e sz) = false.
Proof.
  assert (forall s p, F64.is_nan (binary_round prec emax s p e) = false) as H.
  { intros s p. unfold binary_round.
    destruct (shl_align p e _) as [mz ez].
    pose proof (binary_round_aux_not_nan prec emax s (Z.pos mz) ez loc_Exact
                  ltac:(lia)) as Hn.
    destruct (binary_round_aux prec emax s (Z.pos mz) ez loc_Exact);
      try reflexivity. contradiction. }
  destruct m; simpl; auto.
Qed.

Lemma sub_not_nan x y :
  F64.is_finite x = true -> F64.is_finite y = true ->
  F64.is_nan (F64.sub x y) = false.
Proof.
  destruct x as [[]|[]| |sx mx ex], y as [[]|[]| |sy my ey];
    try discriminate; try reflexivity. intros _ _.
  unfold F64.sub, SFsub. apply binary_normalize_not_nan.
Qed.

Lemma mul_not_nan x y :
  F64.is_nan x = false -> F64.is_finite y = true -> F64.is_zero y = false ->
  F64.is_nan (F64.mul x y) = false.
Proof.
  destruct x as [[]|[]| |sx mx ex], y as [[]|[]| |sy my ey];
    try discriminate; try reflexivity. intros _ _ _.
  unfold F64.mul, SFmul.
  pose proof (binary_round_aux_not_nan F64.prec F64.emax (xorb sx sy)
                (Z.pos (mx * my)) (ex + ey) loc_Exact ltac:(lia)) as Hn.
  destruct (binary_round_aux _ _ _ _ _ _); try reflexivity. contradiction.
Qed.

Lemma div_core_nonneg prec emax m1 e1 m2 e2 :
  0 < m1 -> 0 < m2 -> 0 <= (SFdiv_core_binary prec emax m1 e1 m2 e2).1.1.
Proof.
  intros H1 H2. unfold SFdiv_core_binary.
  set (s := e1 - e2 - _).
  set (m' := match s with Z.pos _ => Z.shiftl m1 s | 0 => m1 | _ => 0 end).
  assert (0 <= m') as Hm'.
  { unfold m'. destruct s; try lia. apply Z.shiftl_nonneg. lia. }
  pose proof (Z.div_pos m' m2 Hm' H2) as Hq. unfold Z.div in Hq.
  destruct (Z.div_eucl m' m2) as [q r]. exact Hq.
Qed.

Lemma div_not_nan x y :
  F64.is_nan x = false -> F64.is_finite y = true -> F64.is_zero y = false ->
  F64.is_nan (F64.div x y) = false.
Proof.
  destruct x as [[]|[]| |sx mx ex], y as [[]|[]| |sy my ey];
    try discriminate; try reflexivity. intros _ _ _.
  unfold F64.div, SFdiv.
  pose proof (div_core_nonneg F64.prec F64.emax (Z.pos mx) ex (Z.pos my) ey
                ltac:(lia) ltac:(lia)) as Hq.
  destruct (SFdiv_core_binary _ _ _ _ _ _) as [[mz ez] lz]. simpl in Hq.
  pose proof (binary_round_aux_not_nan F64.prec F64.emax (xorb sx sy)
                mz ez lz Hq) as Hn.
  destruct (binary_round_aux _ _ _ _ _ _); try reflexivity. contradiction.
Qed.

Lemma rint_not_nan x : F64.is_nan x = false -> F64.is_nan (F64.rint x) = false.
Proof.
  destruct x as [s|s| |s m e]; try discriminate; try reflexivity. intros _.
  unfold F64.rint. destruct (0 <=? e); [reflexivity|].
  destruct (F64.round_half_even _ _) eqn:E; [reflexivity| |];
    apply binary_normalize_not_nan.
Qed.

Lemma hundred_eq : hundred = S754_finite false 7036874417766400 (-46).
Proof. reflexivity. Qed.

Lemma round2_not_nan x : F64.is_nan x = false -> F64.is_nan (F64.round2 x) = false.
Proof.
  intros Hx. unfold F64.round2. fold hundred. rewrite hundred_eq.
  apply div_not_nan; try reflexivity. apply rint_not_nan.
  apply mul_not_nan; try reflexivity. exact Hx.
Qed.

Lemma abs_not_nan x : F64.is_nan x = false -> F64.is_nan (F64.abs x) = false.
Proof. destruct x; simpl; auto. Qed.

(** *** Exact values of the quotient, the product and the rounding *)

(** The rounded quotient is within half a unit of the ratio. *)
Lemma round_half_even_error N D :
  0 < D ->
  - D <= 2 * (F64.round_half_even N D * D - N) <= D.
Proof.
  intros HD. unfold F64.round_half_even.
  pose proof (Z.div_mod N D ltac:(lia)) as E.
  pose proof (Z.mod_pos_bound N D HD) as Ht.
  destruct (Z.compare_spec (2 * (N mod D)) D);
    [destruct (Z.even (N / D))| |]; nia.
Qed.

(** An integer strictly within half a unit of the ratio is its rounding. *)
Lemma round_half_even_unique N D r :
  0 < D -> - D < 2 * (r * D - N) < D -> F64.round_half_even N D = r.
Proof.
  intros HD Hr. unfold F64.round_half_even.
  pose proof (Z.div_mod N D ltac:(lia)) as E.
  pose proof (Z.mod_pos_bound N D HD) as Ht.
  set (q := N / D) in *. set (t := N mod D) in *.
  assert (r = q \/ r = q + 1) as [->| ->] by nia;
    destruct (Z.compare_spec (2 * t) D); try reflexivity; try nia.
Qed.

(** A ratio that is an integer rounds to itself. *)
Lemma round_half_even_exact q D :
  0 < D -> F64.round_half_even (q * D) D = q.
Proof. intros HD. apply round_half_even_unique; lia. Qed.

Lemma round_half_even_1 q : F64.round_half_even q 1 = q.
Proof. apply round_half_even_unique; lia. Qed.

(** [binary_round_aux] on a significand of at least 53 bits, in the range
    of the normal numbers: the result is the ratio rounded to 53 bits. *)
Lemma binary_round_aux_normal s m e l N D :
  0 <= N -> 0 < D -> represents (shr_record_of_loc m l) N D ->
  53 <= Zdigits2 m -> -1074 <= e -> e + (Zdigits2 m - 53) + 1 <= 971 ->
  exists g m4,
    binary_round_aux 53 1024 s m e l = S754_finite s m4 (e + g) /\
    (g = Zdigits2 m - 53 \/
     g = Zdigits2 m - 53 + 1 /\
     F64.round_half_even N (D * 2 ^ (Zdigits2 m - 53)) = 2 ^ 53) /\
    Z.pos m4 = F64.round_half_even N (D * 2 ^ g) /\
    2 ^ 52 <= Z.pos m4 < 2 ^ 53.
Proof.
  intros HN HD Hrep Hdig He Hemax.
  assert (m = N / D) as Hm.
  { destruct Hrep as [H _]. rewrite shr_record_of_loc_m in H. exact H. }
  assert (0 < m) as Hmpos.
  { assert (0 <= m) by (rewrite Hm; apply Z.div_pos; lia).
    destruct m; simpl in Hdig; lia. }
  pose proof (Zdigits2_bounds m Hmpos) as [Hlo Hhi].
  set (n := Zdigits2 m - 53) in *.
  assert (0 <= n) as Hn by (unfold n; lia).
  rewrite (binary_round_aux_ratio 53 1024 s m e l N D HN HD Hrep).
  rewrite fexp64.
  replace (Z.max 0 (Z.max (Zdigits2 m + e - 53) (-1074) - e)) with n
    by (unfold n; lia).
  assert (0 < 2 ^ n) as HP by (apply Z.pow_pos_nonneg; lia).
  set (m1 := F64.round_half_even N (D * 2 ^ n)).
  assert (2 ^ 52 <= m / 2 ^ n < 2 ^ 53) as Hq.
  { replace (Zdigits2 m - 1) with (52 + n) in Hlo by (unfold n; lia).
    replace (Zdigits2 m) with (53 + n) in Hhi by (unfold n; lia).
    rewrite Z.pow_add_r in Hlo, Hhi by lia.
    split; [apply Z.div_le_lower_bound|apply Z.div_lt_upper_bound]; lia. }
  assert (2 ^ 52 <= m1 <= 2 ^ 53) as Hm1.
  { pose proof (round_half_even_bounds N (D * 2 ^ n)) as Hb. fold m1 in Hb.
    rewrite <- Z.div_div in Hb by lia. rewrite <- Hm in Hb. lia. }
  destruct (renorm_shape 53 1024 s m1 (e + n) ltac:(lia) ltac:(lia))
    as [[_ H0]|[[Hinf _]|(_ & m2 & -> & Hm2 & Hlt)]]; rewrite fexp64 in *.
  - exfalso.
    assert (Zdigits2 m1 <= 54) by (apply Zdigits2_le_of_lt; simpl; lia).
    pose proof (Zdigits2_nonneg m1).
    assert (Z.max (e + n) (Z.max (Zdigits2 m1 + (e + n) - 53) (-1074)) - (e + n) = 0 \/
            Z.max (e + n) (Z.max (Zdigits2 m1 + (e + n) - 53) (-1074)) - (e + n) = 1)
      as [E|E] by lia; rewrite E in H0.
    + rewrite Z.div_1_r in H0. lia.
    + change (2 ^ 1) with 2 in H0.
      assert (2 ^ 51 <= m1 / 2) by (apply Z.div_le_lower_bound; lia). lia.
  - exfalso.
    assert (Zdigits2 m1 <= 54) by (apply Zdigits2_le_of_lt; simpl; lia).
    lia.
  - destruct (Z.eq_dec m1 (2 ^ 53)) as [E53|N53].
    + assert (Zdigits2 m1 = 54) as Ed by (rewrite E53; reflexivity).
      rewrite Ed in *.
      replace (Z.max (e + n) (Z.max (54 + (e + n) - 53) (-1074)))
        with (e + (n + 1)) in * by lia.
      replace (e + (n + 1) - (e + n)) with 1 in Hm2 by lia.
      rewrite E53 in Hm2. change (2 ^ 53 / 2 ^ 1) with (2 ^ 52) in Hm2.
      exists (n + 1), m2. split; [reflexivity|].
      split; [right; split; [reflexivity|exact E53]|].
      split; [|lia]. rewrite Hm2. symmetry.
      pose proof (round_half_even_error N (D * 2 ^ n) ltac:(nia)) as Herr.
      fold m1 in Herr. rewrite E53 in Herr.
      apply round_half_even_unique.
      * rewrite Z.pow_add_r by lia. change (2 ^ 1) with 2. nia.
      * rewrite Z.pow_add_r by lia. change (2 ^ 1) with 2.
        change (2 ^ 53) with (2 * 2 ^ 52) in Herr. nia.
    + assert (Zdigits2 m1 = 53) as Ed by (apply Zdigits2_unique; lia).
      rewrite Ed in *.
      replace (Z.max (e + n) (Z.max (53 + (e + n) - 53) (-1074)))
        with (e + n) in * by lia.
      rewrite Z.sub_diag, Z.div_1_r in Hm2.
      exists n, m2. split; [reflexivity|]. split; [left; reflexivity|].
      split; [exact Hm2|lia].
Qed.

Lemma digits_small a : 0 < a < 2 ^ 53 -> 1 <= Zdigits2 a <= 53.
Proof.
  intros Ha.
  split; [rewrite Zdigits2_log2 by lia; pose proof (Z.log2_nonneg a); lia|].
  apply Zdigits2_le_of_lt; lia.
Qed.

(** The float of [a / b]: a 53-bit significand that is the quotient,
    scaled by a power of two, rounded to the nearest integer. *)
Lemma int_truediv_value a b :
  0 < a < 2 ^ 50 -> 0 < b < 2 ^ 53 ->
  exists m K,
    int_truediv a b = Ok (S754_finite false m (- K)) /\
    Z.pos m = F64.round_half_even (a * 2 ^ K) b /\
    2 ^ 52 <= Z.pos m < 2 ^ 53 /\
    51 + Zdigits2 b - Zdigits2 a <= K <= 53 + Zdigits2 b - Zdigits2 a.
Proof.
  intros Ha Hb.
  assert (0 < a < 2 ^ 53) as Ha' by lia.
  pose proof (digits_small a Ha') as Hda.
  pose proof (digits_small b Hb) as Hdb.
  assert (Zdigits2 a <= 50) as Hda50 by (apply Zdigits2_le_of_lt; lia).
  pose proof (Zdigits2_bounds a ltac:(lia)) as Hba.
  pose proof (Zdigits2_bounds b ltac:(lia)) as Hbb.
  set (s := 53 + Zdigits2 b - Zdigits2 a).
  assert (4 <= s <= 105) as Hs by (unfold s; lia).
  set (Q := a * 2 ^ s / b).
  assert (2 ^ 52 <= Q < 2 ^ 54) as HQ.
  { assert (2 ^ (Zdigits2 a - 1) * 2 ^ s = 2 ^ 52 * 2 ^ Zdigits2 b) as E1.
    { rewrite <- !Z.pow_add_r by lia. f_equal. unfold s. lia. }
    assert (2 ^ Zdigits2 a * 2 ^ s = 2 ^ 54 * 2 ^ (Zdigits2 b - 1)) as E2.
    { rewrite <- !Z.pow_add_r by lia. f_equal. unfold s. lia. }
    assert (0 < 2 ^ s) by (apply Z.pow_pos_nonneg; lia).
    split.
    - apply Z.div_le_lower_bound; [lia|]. nia.
    - apply Z.div_lt_upper_bound; [lia|]. nia. }
  assert (53 <= Zdigits2 Q <= 54) as HdQ.
  { destruct (Z_lt_le_dec Q (2 ^ 53)) as [Hlt|Hge].
    - assert (Zdigits2 Q = 53) as E by (apply Zdigits2_unique; lia). lia.
    - assert (Zdigits2 Q = 54) as E by (apply Zdigits2_unique; lia). lia. }
  unfold int_truediv.
  destruct b as [|pb|pb]; try lia. destruct a as [|pa|pa]; try lia.
  change (Z.pos pa <? 0) with false. change (Z.pos pb <? 0) with false.
  change (Z.to_pos (Z.abs (Z.pos pa))) with pa.
  change (Z.to_pos (Z.abs (Z.pos pb))) with pb.
  unfold F64.div, SFdiv, F64.prec, F64.emax.
  rewrite (div_core_ints (Z.pos pa) (Z.pos pb) Ha' Hb). fold s. fold Q.
  assert (0 < 2 ^ s) as HPs by (apply Z.pow_pos_nonneg; lia).
  destruct (binary_round_aux_normal (xorb false false) Q (- s)
              (new_location (Z.pos pb) ((Z.pos pa * 2 ^ s) mod Z.pos pb))
              (Z.pos pa * 2 ^ s) (Z.pos pb))
    as (g & m4 & -> & Hg & Hm4 & Hr); try lia.
  { apply new_location_represents; lia. }
  assert (0 <= g <= 2) as Hg' by lia.
  exists m4, (s - g). replace (- (s - g)) with (- s + g) by lia.
  split; [reflexivity|]. split; [|split; [exact Hr|unfold s; lia]].
  rewrite Hm4. replace s with ((s - g) + g) at 1 by lia.
  rewrite Z.pow_add_r by lia. rewrite Z.mul_assoc.
  apply round_half_even_scale; [apply Z.pow_pos_nonneg|]; lia.
Qed.

Lemma pos_iter_xO p d : Z.pos (Pos.iter xO p d) = Z.pos p * 2 ^ Z.pos d.
Proof.
  induction d as [|d IH] using Pos.peano_ind.
  - simpl. lia.
  - rewrite Pos.iter_succ, Pos2Z.inj_succ, Z.pow_succ_r by lia.
    rewrite Pos2Z.inj_xO, IH. lia.
Qed.

(** The float of a positive [int] below [2^53] is that integer. *)
Lemma of_int_value y :
  0 < y < 2 ^ 53 ->
  exists m k,
    F64.of_int y = S754_finite false m (- k) /\
    Z.pos m = y * 2 ^ k /\ 0 <= k <= 52 /\ k = 53 - Zdigits2 y /\
    2 ^ 52 <= Z.pos m < 2 ^ 53.
Proof.
  intros Hy. pose proof (digits_small y Hy) as Hd.
  pose proof (Zdigits2_bounds y ltac:(lia)) as Hb.
  destruct y as [|p|p]; try lia.
  unfold F64.of_int, binary_normalize, binary_round, F64.prec, F64.emax.
  change (Zdigits2 (Z.pos p)) with (Z.pos (digits2_pos p)) in *.
  rewrite fexp64.
  set (k := 53 - Z.pos (digits2_pos p)).
  assert (0 < 2 ^ k) as HP by (apply Z.pow_pos_nonneg; unfold k; lia).
  destruct (shl_align p 0 (Z.max (Z.pos (digits2_pos p) + 0 - 53) (-1074)))
    as [mz ez] eqn:E.
  assert (Z.pos mz = Z.pos p * 2 ^ k /\ ez = - k) as [Hmz Hez].
  { unfold shl_align in E.
    destruct (Z.max (Z.pos (digits2_pos p) + 0 - 53) (-1074) - 0) as [|d|d] eqn:Ed;
      inversion E; subst.
    - replace k with 0 by (unfold k; lia). simpl. lia.
    - lia.
    - unfold shift_pos. rewrite pos_iter_xO.
      replace k with (Z.pos d) by (unfold k; lia). lia. }
  assert (Zdigits2 (Z.pos mz) = 53) as Hdz.
  { apply Zdigits2_unique; [|lia]. rewrite Hmz.
    assert (2 ^ (53 - 1) = 2 ^ (Z.pos (digits2_pos p) - 1) * 2 ^ k) as ->
      by (rewrite <- Z.pow_add_r by (unfold k; lia); f_equal; unfold k; lia).
    assert (2 ^ 53 = 2 ^ Z.pos (digits2_pos p) * 2 ^ k) as ->
      by (rewrite <- Z.pow_add_r by (unfold k; lia); f_equal; unfold k; lia).
    nia. }
  destruct (binary_round_aux_normal false (Z.pos mz) ez loc_Exact (Z.pos mz) 1)
    as (g & m4 & -> & Hg & Hm4 & Hr); try lia.
  { apply exact_represents. }
  rewrite Hdz in Hg. change (53 - 53) with 0 in Hg.
  change (1 * 2 ^ 0) with 1 in Hg.
  pose proof (Zdigits2_bounds (Z.pos mz) ltac:(lia)) as Hbz.
  rewrite Hdz in Hbz.
  assert (g = 0) as ->.
  { destruct Hg as [->|[_ Hc]]; [reflexivity|].
    rewrite round_half_even_1 in Hc. lia. }
  change (1 * 2 ^ 0) with 1 in Hm4. rewrite round_half_even_1 in Hm4.
  exists m4, k. rewrite Z.add_0_r, Hez. split; [reflexivity|].
  rewrite Hm4. unfold k in *. repeat split; lia.
Qed.

(** The product of two finite positive floats with 53-bit significands. *)
Lemma mul_value mx ex my ey :
  2 ^ 52 <= Z.pos mx < 2 ^ 53 -> 2 ^ 52 <= Z.pos my < 2 ^ 53 ->
  -1074 <= ex + ey <= 900 ->
  exists g m4,
    F64.mul (S754_finite false mx ex) (S754_finite false my ey)
    = S754_finite false m4 (ex + ey + g) /\
    Zdigits2 (Z.pos mx * Z.pos my) - 53 <= g
      <= Zdigits2 (Z.pos mx * Z.pos my) - 53 + 1 /\
    Z.pos m4 = F64.round_half_even (Z.pos mx * Z.pos my) (2 ^ g) /\
    2 ^ 52 <= Z.pos m4 < 2 ^ 53.
Proof.
  intros Hx Hy He.
  assert (2 ^ 104 <= Z.pos mx * Z.pos my < 2 ^ 106) as Hp.
  { change (2 ^ 104) with (2 ^ 52 * 2 ^ 52).
    change (2 ^ 106) with (2 ^ 53 * 2 ^ 53). nia. }
  assert (105 <= Zdigits2 (Z.pos mx * Z.pos my) <= 106) as Hd.
  { destruct (Z_lt_le_dec (Z.pos mx * Z.pos my) (2 ^ 105)).
    - rewrite (Zdigits2_unique _ 105); simpl; lia.
    - rewrite (Zdigits2_unique _ 106); simpl; lia. }
  unfold F64.mul, SFmul, F64.prec, F64.emax. simpl xorb.
  rewrite Pos2Z.inj_mul.
  destruct (binary_round_aux_normal false (Z.pos mx * Z.pos my) (ex + ey)
              loc_Exact (Z.pos mx * Z.pos my) 1)
    as (g & m4 & -> & Hg & Hm4 & Hr); try lia.
  { apply exact_represents. }
  exists g, m4. split; [reflexivity|]. split; [lia|].
  rewrite Z.mul_1_l in Hm4. auto.
Qed.

(** [round] on a finite positive float with a negative exponent. *)
Lemma round_float_value m h :
  0 < h -> round_float (S754_finite false m (- h))
           = Ok (F64.round_half_even (Z.pos m) (2 ^ h)).
Proof.
  intros Hh. unfold round_float, F64.nearest.
  destruct (Z.leb_spec 0 (- h)); [lia|].
  rewrite Z.opp_involutive. reflexivity.
Qed.

(** Away from a tie the rounded quotient is strictly within half a unit. *)
Lemma round_half_even_error_strict N D :
  0 < D -> 2 * (N mod D) <> D ->
  - D < 2 * (F64.round_half_even N D * D - N) < D.
Proof.
  intros HD Hne. unfold F64.round_half_even.
  pose proof (Z.div_mod N D ltac:(lia)) as E.
  pose proof (Z.mod_pos_bound N D HD) as Ht.
  set (q := N / D) in *. set (t := N mod D) in *.
  destruct (Z.compare_spec (2 * t) D); [lia| |].
  - replace (q * D - N) with (- t) by lia. lia.
  - replace ((q + 1) * D - N) with (D - t) by lia. lia.
Qed.

Lemma mul_between x e B :
  0 <= x -> - B <= e <= B -> - (x * B) <= x * e <= x * B.
Proof. intros Hx He. split; nia. Qed.

(** Three roundings in a row give the rounding of the exact ratio, when
    that ratio is not half way between two integers. *)
Lemma three_roundings a b y G H X :
  0 < b -> 0 < y -> 0 < G -> 0 < H -> X = G * H ->
  (G + y) * b < X ->
  2 * ((y * a) mod b) <> b ->
  F64.round_half_even
    (F64.round_half_even (y * F64.round_half_even (a * X) b) G) H
  = F64.round_half_even (y * a) b.
Proof.
  intros Hb Hy HG HH HX Hsmall Htie.
  set (M := F64.round_half_even (a * X) b).
  set (m4 := F64.round_half_even (y * M) G).
  set (r := F64.round_half_even (y * a) b).
  pose proof (round_half_even_error (a * X) b Hb) as E1. fold M in E1.
  pose proof (round_half_even_error (y * M) G HG) as E2. fold m4 in E2.
  pose proof (round_half_even_error_strict (y * a) b Hb Htie) as E3. fold r in E3.
  apply round_half_even_unique; [assumption|].
  set (e1 := 2 * (M * b - a * X)) in *.
  set (e2 := 2 * (m4 * G - y * M)) in *.
  set (e3 := 2 * (r * b - y * a)) in *.
  assert (2 * (r * H - m4) * (G * b) = X * e3 - b * e2 - y * e1) as Hid.
  { unfold e1, e2, e3. rewrite HX. ring. }
  assert (0 < X) as HXpos by (rewrite HX; apply Z.mul_pos_pos; lia).
  pose proof (mul_between X e3 (b - 1) ltac:(lia) ltac:(lia)) as B3.
  pose proof (mul_between b e2 G ltac:(lia) ltac:(lia)) as B2.
  pose proof (mul_between y e1 b ltac:(lia) ltac:(lia)) as B1.
  assert (0 < G * b) as HGb by (apply Z.mul_pos_pos; lia).
  set (v := 2 * (r * H - m4)) in *.
  assert (- (H * (G * b)) < v * (G * b) < H * (G * b)) as Hfin.
  { rewrite Hid. replace (H * (G * b)) with (X * b) by (rewrite HX; ring).
    replace (X * (b - 1)) with (X * b - X) in B3 by ring.
    replace ((G + y) * b) with (b * G + y * b) in Hsmall by ring.
    lia. }
  destruct Hfin as [Hf1 Hf2].
  split.
  - apply (Z.mul_lt_mono_pos_r (G * b)); [assumption|]. lia.
  - apply (Z.mul_lt_mono_pos_r (G * b)); [assumption|]. lia.
Qed.

(** On a tie the three roundings are exact when the quotient is a dyadic
    number. *)
Lemma three_roundings_tie a b y G H X w :
  0 < b -> 0 < G -> 0 < H -> X = G * (2 * H) ->
  a * X = w * b ->
  2 * ((y * a) mod b) = b ->
  F64.round_half_even
    (F64.round_half_even (y * F64.round_half_even (a * X) b) G) (2 * H)
  = F64.round_half_even (y * a) b.
Proof.
  intros Hb HG HH HX Hw Htie.
  rewrite Hw, round_half_even_exact by assumption.
  pose proof (Z.div_mod (y * a) b ltac:(lia)) as E.
  set (q := y * a / b) in *. set (c := (y * a) mod b) in *.
  set (t := 2 * q + 1).
  assert (b = 2 * c) as Hbc by lia.
  assert (y * a = t * c) as Hya.
  { rewrite E, Hbc. unfold t. ring. }
  assert (y * w = t * H * G) as Hyw.
  { apply (Z.mul_cancel_r _ _ b); [lia|].
    replace (y * w * b) with (y * (w * b)) by ring. rewrite <- Hw.
    replace (y * (a * X)) with (y * a * X) by ring. rewrite Hya, HX.
    rewrite Hbc. ring. }
  rewrite Hyw, round_half_even_exact by assumption.
  rewrite Hya, Hbc.
  rewrite !round_half_even_scale by lia. reflexivity.
Qed.

(** The one tie of the dashboard's domain whose quotient is not dyadic:
    half the mileage of a six-year-old car. *)
Lemma three_roundings_half a g H X :
  0 < H -> 1 <= g <= 3 -> X = 2 ^ g * (4 * H) ->
  X mod 3 <> 0 -> a mod 2 = 1 -> a mod 3 <> 0 ->
  F64.round_half_even
    (F64.round_half_even (3 * F64.round_half_even (a * X) 6) (2 ^ g)) (4 * H)
  = F64.round_half_even (3 * a) 6.
Proof.
  intros HH Hg HX HX3 Ha2 Ha3.
  assert (0 < 2 ^ g) as HG by (apply Z.pow_pos_nonneg; lia).
  assert (exists d, (d = 1 \/ d = -1) /\
                    3 * F64.round_half_even (a * X) 6 = a * 2 ^ g * (2 * H) + d)
    as (d & Hd & ->).
  { pose proof (Z.div_mod (a * X) 6 ltac:(lia)) as E.
    pose proof (Z.mod_pos_bound (a * X) 6 ltac:(lia)) as Hr.
    assert ((a * X) mod 2 = 0) as Hev.
    { rewrite HX. replace (a * (2 ^ g * (4 * H))) with (a * 2 ^ g * 2 * H * 2) by ring.
      apply Z.mod_mul. lia. }
    assert ((a * X) mod 3 <> 0) as Hn3.
    { rewrite Z.mul_mod by lia.
      pose proof (Z.mod_pos_bound a 3 ltac:(lia)).
      pose proof (Z.mod_pos_bound X 3 ltac:(lia)).
      assert (a mod 3 = 1 \/ a mod 3 = 2) as [->| ->] by lia;
        (assert (X mod 3 = 1 \/ X mod 3 = 2) as [->| ->] by lia);
        discriminate. }
    assert ((a * X) mod 6 = 2 \/ (a * X) mod 6 = 4) as Hcase.
    { rewrite (Z.div_mod (a * X) 6) in Hev, Hn3 by lia.
      set (u := (a * X) / 6) in *. set (v := (a * X) mod 6) in *.
      replace (6 * u + v) with (v + (3 * u) * 2) in Hev by ring.
      replace (6 * u + v) with (v + (2 * u) * 3) in Hn3 by ring.
      rewrite Z.mod_add in Hev, Hn3 by lia.
      assert (v = 0 \/ v = 1 \/ v = 2 \/ v = 3 \/ v = 4 \/ v = 5)
        as [->|[->|[->|[->|[->| ->]]]]] by lia;
        simpl in Hev, Hn3; try lia. contradiction. }
    assert (a * X = 2 * (a * 2 ^ g * (2 * H))) as EX by (rewrite HX; ring).
    unfold F64.round_half_even.
    destruct Hcase as [Hc|Hc]; rewrite Hc in *.
    - exists (-1). split; [right; reflexivity|].
      change (2 * 2 ?= 6) with Lt. cbv iota. lia.
    - exists 1. split; [left; reflexivity|].
      change (2 * 4 ?= 6) with Gt. cbv iota. lia. }
  assert (F64.round_half_even (a * 2 ^ g * (2 * H) + d) (2 ^ g) = a * (2 * H))
    as ->.
  { assert (g = 1 \/ g = 2 \/ g = 3) as [->|[->| ->]] by lia.
    - change (2 ^ 1) with 2.
      unfold F64.round_half_even.
      destruct Hd as [->| ->].
      + replace (a * 2 * (2 * H) + 1) with (1 + (a * (2 * H)) * 2) by ring.
        rewrite Z.div_add, Z.mod_add by lia. simpl (1 / 2). simpl (1 mod 2).
        simpl (2 * 1 ?= 2). rewrite Z.add_0_l.
        replace (a * (2 * H)) with (2 * (a * H)) by ring.
        rewrite Z.even_mul. reflexivity.
      + replace (a * 2 * (2 * H) + -1) with (1 + (a * (2 * H) - 1) * 2) by ring.
        rewrite Z.div_add, Z.mod_add by lia. simpl (1 / 2). simpl (1 mod 2).
        simpl (2 * 1 ?= 2). rewrite Z.add_0_l.
        replace (a * (2 * H) - 1) with (2 * (a * H) - 1) by ring.
        rewrite Z.even_sub, Z.even_mul. simpl. lia.
    - apply round_half_even_unique; [lia|]. change (2 ^ 2) with 4. lia.
    - apply round_half_even_unique; [lia|]. change (2 ^ 3) with 8. lia. }
  replace (4 * H) with (2 * (2 * H)) by ring.
  rewrite round_half_even_scale by lia.
  change 6 with (2 * 3). rewrite (Z.mul_comm 3 a).
  rewrite round_half_even_scale by lia. reflexivity.
Qed.

Lemma pow2_mod3 K : 0 <= K -> 2 ^ K mod 3 <> 0.
Proof.
  intros HK. pattern K. apply natlike_ind; [discriminate| |assumption].
  intros x Hx IH. rewrite Z.pow_succ_r by assumption.
  rewrite Z.mul_mod by lia.
  pose proof (Z.mod_pos_bound (2 ^ x) 3 ltac:(lia)).
  assert (2 ^ x mod 3 = 1 \/ 2 ^ x mod 3 = 2) as [->| ->] by lia; discriminate.
Qed.

(** [round(y * (a / b))] as the floats compute it: a quotient rounded to
    53 bits, a product rounded to 53 bits, and the rounding to an integer. *)
Lemma past_km_pipeline a b y :
  0 < a -> 0 < b -> 0 < y <= b -> a * b < 2 ^ 47 ->
  exists q fy K g,
    int_truediv a b = Ok q /\ float_of_int y = Ok fy /\
    round_float (F64.mul fy q)
    = Ok (F64.round_half_even
            (F64.round_half_even (y * F64.round_half_even (a * 2 ^ K) b)
               (2 ^ g))
            (2 ^ (K - g))) /\
    Zdigits2 y - 1 <= g <= Zdigits2 y + 1 /\
    51 + Zdigits2 b - Zdigits2 a <= K /\ 3 <= K - g.
Proof.
  intros Ha Hb Hy Hab.
  assert (a < 2 ^ 47) as Ha47 by nia.
  assert (b < 2 ^ 47) as Hb47 by nia.
  pose proof (digits_small a ltac:(lia)) as Hda.
  pose proof (digits_small b ltac:(lia)) as Hdb.
  pose proof (digits_small y ltac:(lia)) as Hdy.
  assert (Zdigits2 a <= 47) as Hda47 by (apply Zdigits2_le_of_lt; lia).
  assert (Zdigits2 y <= Zdigits2 b) as Hyb.
  { apply Zdigits2_le_of_lt; [lia|lia|].
    pose proof (Zdigits2_bounds b ltac:(lia)). lia. }
  destruct (int_truediv_value a b ltac:(lia) ltac:(lia))
    as (mq & K & Hq & Hmq & Hrq & HK).
  destruct (of_int_value y ltac:(lia)) as (my & k & Hfy & Hmy & Hk & Hkd & Hry).
  destruct (mul_value my (- k) mq (- K) Hry Hrq ltac:(lia))
    as (g & m4 & Hmul & Hg & Hm4 & Hr4).
  assert (52 <= g <= 54) as Hg'.
  { assert (2 ^ 104 <= Z.pos my * Z.pos mq < 2 ^ 106) as Hp.
    { change (2 ^ 104) with (2 ^ 52 * 2 ^ 52).
      change (2 ^ 106) with (2 ^ 53 * 2 ^ 53). nia. }
    assert (105 <= Zdigits2 (Z.pos my * Z.pos mq) <= 106).
    { destruct (Z_lt_le_dec (Z.pos my * Z.pos mq) (2 ^ 105)).
      - rewrite (Zdigits2_unique _ 105); simpl; lia.
      - rewrite (Zdigits2_unique _ 106); simpl; lia. }
    lia. }
  exists (S754_finite false mq (- K)), (S754_finite false my (- k)), K, (g - k).
  split; [exact Hq|]. split; [unfold float_of_int; rewrite Hfy; reflexivity|].
  split; [|lia].
  rewrite Hmul. replace (- k + - K + g) with (- (K - (g - k))) by lia.
  rewrite round_float_value by lia. f_equal. f_equal.
  rewrite Hm4, Hmy, <- Hmq.
  replace (2 ^ g) with (2 ^ (g - k) * 2 ^ k)
    by (rewrite <- Z.pow_add_r by lia; f_equal; lia).
  replace (y * 2 ^ k * Z.pos mq) with (y * Z.pos mq * 2 ^ k) by ring.
  apply round_half_even_scale; apply Z.pow_pos_nonneg; lia.
Qed.

Lemma round_half_even_0 D : 0 < D -> F64.round_half_even 0 D = 0.
Proof. intros HD. apply round_half_even_unique; lia. Qed.

(** The code's [int(round(y * (cur_km / cur_age)))] is the exact ratio
    [y * cur_km / cur_age] rounded to the nearest integer, ties to even,
    for every age the loop visits. *)
Lemma past_km_exact a b y :
  0 <= a -> 0 < b < 2 ^ 47 -> 0 <= y <= b -> b < 10 \/ y = b ->
  a * b < 2 ^ 47 ->
  exists q fy,
    int_truediv a b = Ok q /\ float_of_int y = Ok fy /\
    round_float (F64.mul fy q) = Ok (F64.round_half_even (y * a) b).
Proof.
  intros Ha [Hb Hb47] Hy Hdom Hab.
  destruct (Z.eq_dec a 0) as [->|Ha0].
  { rewrite Z.mul_0_r, round_half_even_0 by assumption.
    exists (S754_zero false), (F64.of_int y).
    split; [destruct b; try lia; reflexivity|].
    assert (y < 2 ^ 53) as Hy53 by lia.
    pose proof (of_int_small y ltac:(lia)) as Hs.
    unfold float_of_int.
    destruct (F64.of_int y) as [[]|[]| |[] m e]; try contradiction;
      split; reflexivity. }
  destruct (Z.eq_dec y 0) as [->|Hy0].
  { rewrite Z.mul_0_l, round_half_even_0 by assumption.
    destruct (int_truediv_value a b) as (mq & K & Hq & _); [nia|nia|].
    exists (S754_finite false mq (- K)), (S754_zero false).
    split; [exact Hq|]. split; reflexivity. }
  destruct (past_km_pipeline a b y ltac:(lia) Hb ltac:(lia) Hab)
    as (q & fy & K & g & Hq & Hfy & Hr & Hg & HK & Hh).
  exists q, fy. split; [exact Hq|]. split; [exact Hfy|]. rewrite Hr. f_equal.
  assert (a < 2 ^ 47) as Ha47 by nia.
  pose proof (digits_small a ltac:(lia)) as Hda.
  pose proof (digits_small b ltac:(lia)) as Hdb.
  pose proof (digits_small y ltac:(lia)) as Hdy.
  assert (Zdigits2 a <= 47) as Hda47 by (apply Zdigits2_le_of_lt; lia).
  pose proof (Zdigits2_bounds a ltac:(lia)) as Hba.
  pose proof (Zdigits2_bounds b ltac:(lia)) as Hbb.
  pose proof (Zdigits2_bounds y ltac:(lia)) as Hby.
  assert (0 < 2 ^ g) as HG by (apply Z.pow_pos_nonneg; lia).
  assert (0 < 2 ^ (K - g)) as HH by (apply Z.pow_pos_nonneg; lia).
  assert (2 ^ K = 2 ^ g * 2 ^ (K - g)) as HX
    by (rewrite <- Z.pow_add_r by lia; f_equal; lia).
  destruct (Z.eq_dec (2 * ((y * a) mod b)) b) as [Htie|Hnt].
  - (* a tie: the age is below ten and even *)
    assert (b < 10) as Hb10.
    { destruct Hdom as [?|E]; [assumption|].
      rewrite E, (Z.mul_comm b a), Z.mod_mul in Htie by lia. lia. }
    assert (2 ^ (K - g) = 4 * 2 ^ (K - g - 2)) as HH4.
    { change 4 with (2 ^ 2). rewrite <- Z.pow_add_r by lia. f_equal. lia. }
    assert (0 < 2 ^ (K - g - 2)) as HH' by (apply Z.pow_pos_nonneg; lia).
    assert (5 <= K) as HK5 by lia.
    assert (2 ^ K = 8 * 2 ^ (K - 3)) as HX8.
    { change 8 with (2 ^ 3). rewrite <- Z.pow_add_r by lia. f_equal. lia. }
    assert (forall w, a * 2 ^ K = w * b ->
              F64.round_half_even
                (F64.round_half_even
                   (y * F64.round_half_even (a * 2 ^ K) b) (2 ^ g))
                (2 ^ (K - g))
              = F64.round_half_even (y * a) b) as Hdy_case.
    { intros w Hw. rewrite HH4.
      replace (4 * 2 ^ (K - g - 2)) with (2 * (2 * 2 ^ (K - g - 2))) by ring.
      apply (three_roundings_tie a b y (2 ^ g) (2 * 2 ^ (K - g - 2)) (2 ^ K) w);
        try assumption; lia. }
    pose proof (Z.mod_pos_bound (y * a) b Hb) as Hmb.
    assert (b = 2 \/ b = 4 \/ b = 6 \/ b = 8) as [->|[->|[->| ->]]] by lia.
    + apply (Hdy_case (a * (4 * 2 ^ (K - 3)))). rewrite HX8. ring.
    + apply (Hdy_case (a * (2 * 2 ^ (K - 3)))). rewrite HX8. ring.
    + pose proof (Z.div_mod a 6 ltac:(lia)) as Ea.
      pose proof (Z.mod_pos_bound a 6 ltac:(lia)) as Hra.
      set (u := a / 6) in *. set (v := a mod 6) in *. clearbody u v.
      assert ((y * a) mod 6 = (y * v) mod 6) as Hyv.
      { rewrite Ea. replace (y * (6 * u + v)) with (y * v + (y * u) * 6) by ring.
        apply Z.mod_add. lia. }
      rewrite Hyv in Htie.
      destruct (Z.eq_dec (v mod 3) 0) as [Hv3|Hv3].
      * assert (v = 0 \/ v = 3) as Hv.
        { assert (v = 0 \/ v = 1 \/ v = 2 \/ v = 3 \/ v = 4 \/ v = 5)
            as [E|[E|[E|[E|[E|E]]]]] by lia; rewrite E in Hv3;
            try discriminate; lia. }
        apply (Hdy_case ((2 * u + v / 3) * (4 * 2 ^ (K - 3)))).
        rewrite HX8, Ea.
        destruct Hv as [->| ->]; [change (0 / 3) with 0|change (3 / 3) with 1];
          ring.
      * assert (y = 3 /\ (v = 1 \/ v = 5)) as [-> Hv].
        { assert (y = 1 \/ y = 2 \/ y = 3 \/ y = 4 \/ y = 5 \/ y = 6)
            as [->|[->|[->|[->|[->| ->]]]]] by lia;
          (assert (v = 0 \/ v = 1 \/ v = 2 \/ v = 3 \/ v = 4 \/ v = 5)
            as [E|[E|[E|[E|[E|E]]]]] by lia);
          rewrite E in Htie, Hv3; simpl in Htie, Hv3;
          try discriminate; try contradiction; try lia. }
        change (Zdigits2 3) with 2 in Hg.
        rewrite HH4.
        apply (three_roundings_half a g (2 ^ (K - g - 2)) (2 ^ K));
          try assumption; try lia.
        -- apply pow2_mod3. lia.
        -- rewrite Ea. replace (6 * u + v) with (v + (3 * u) * 2) by ring.
           rewrite Z.mod_add by lia. destruct Hv as [->| ->]; reflexivity.
        -- rewrite Ea. replace (6 * u + v) with (v + (2 * u) * 3) by ring.
           rewrite Z.mod_add by lia. exact Hv3.
    + apply (Hdy_case (a * 2 ^ (K - 3))). rewrite HX8. ring.
  - apply three_roundings; try assumption; try lia.
    assert (2 ^ g <= 4 * y) as HG4.
    { eapply Z.le_trans; [apply (Z.pow_le_mono_r 2 g (Zdigits2 y + 1)); lia|].
      replace (Zdigits2 y + 1) with (2 + (Zdigits2 y - 1)) by lia.
      rewrite Z.pow_add_r by lia. change (2 ^ 2) with 4. lia. }
    assert (2 ^ 51 * 2 ^ Zdigits2 b <= 2 ^ K * 2 ^ Zdigits2 a) as HKb.
    { rewrite <- !Z.pow_add_r by lia. apply Z.pow_le_mono_r; lia. }
    assert (2 ^ Zdigits2 a <= 2 * a) as Hda2.
    { replace (Zdigits2 a) with (1 + (Zdigits2 a - 1)) by lia.
      rewrite Z.pow_add_r by lia. change (2 ^ 1) with 2. lia. }
    assert (0 < 2 ^ K) as HXp by (apply Z.pow_pos_nonneg; lia).
    set (X := 2 ^ K) in *. set (G := 2 ^ g) in *.
    assert (2 ^ 51 * b < X * (2 * a)) as H1.
    { apply (Z.lt_le_trans _ (X * 2 ^ Zdigits2 a));
        [|apply Z.mul_le_mono_nonneg_l; [lia|exact Hda2]].
      apply (Z.lt_le_trans _ (2 ^ 51 * 2 ^ Zdigits2 b)); [|exact HKb].
      apply Z.mul_lt_mono_pos_l; lia. }
    assert ((G + y) * b <= 5 * b * b) as H2.
    { replace (5 * b * b) with ((5 * b) * b) by ring.
      apply Z.mul_le_mono_nonneg_r; lia. }
    assert (5 * b * b * (2 * a) < 2 ^ 51 * b) as H3.
    { replace (5 * b * b * (2 * a)) with ((10 * (a * b)) * b) by ring.
      apply Z.mul_lt_mono_pos_r; [lia|]. change (2 ^ 51) with (16 * 2 ^ 47). lia. }
    assert (5 * b * b < X) as H4.
    { apply (Z.mul_lt_mono_pos_r (2 * a)); lia. }
    lia.
Qed.


(** *** The order on floats *)

Lemma ltb_asym x y : F64.ltb x y = true -> F64.ltb y x = false.
Proof.
  unfold F64.ltb, SFltb, SFcompare.
  destruct x as [[]|[]| |[] mx ex], y as [[]|[]| |[] my ey];
    try discriminate; try reflexivity;
    destruct (Z.compare_spec ex ey), (Z.compare_spec ey ex);
    try discriminate; try reflexivity; try lia;
    change (Pos.compare_cont Eq) with Pos.compare;
    destruct (Pos.compare_spec mx my), (Pos.compare_spec my mx);
    simpl; try discriminate; try reflexivity; lia.
Qed.

Lemma ltb_negtrans x y z :
  F64.is_nan x = false -> F64.is_nan y = false -> F64.is_nan z = false ->
  F64.ltb x y = false -> F64.ltb y z = false -> F64.ltb x z = false.
Proof.
  unfold F64.ltb, SFltb, SFcompare.
  destruct x as [[]|[]| |[] mx ex], y as [[]|[]| |[] my ey],
    z as [[]|[]| |[] mz ez];
    try discriminate; try reflexivity; intros _ _ _;
    try (destruct (Z.compare_spec ex ey));
    try (destruct (Z.compare_spec ey ez));
    try (destruct (Z.compare_spec ex ez));
    try discriminate; try reflexivity; try lia;
    change (Pos.compare_cont Eq) with Pos.compare;
    try (destruct (Pos.compare_spec mx my));
    try (destruct (Pos.compare_spec my mz));
    try (destruct (Pos.compare_spec mx mz));
    simpl; try discriminate; try reflexivity; try lia.
Qed.

(** ** calculate_years_and_kms *)

(** The age axis the function chooses. *)
Lemma years_axis cur_age :
  (if cur_age <? 10 then range 0 11 else range cur_age (cur_age + 4))
  = (if cur_age <? 10 then [0; 1; 2; 3; 4; 5; 6; 7; 8; 9; 10]
     else [cur_age; cur_age + 1; cur_age + 2; cur_age + 3]).
Proof. destruct (cur_age <? 10); [apply range_0_11|apply range_4]. Qed.

Lemma calculate_years_and_kms_ok cur_age cur_km e years kms avg :
  calculate_years_and_kms cur_age cur_km e = Ok (years, kms, avg) ->
  (if 0 <? cur_age then q ← int_truediv cur_km cur_age; int_of_float q
   else Ok cur_km) = Ok avg /\
  years = (if cur_age <? 10 then [0; 1; 2; 3; 4; 5; 6; 7; 8; 9; 10]
           else [cur_age; cur_age + 1; cur_age + 2; cur_age + 3]) /\
  Forall2 (fun y k => km_for_year cur_age cur_km e avg y = Ok k) years kms.
Proof.
  unfold calculate_years_and_kms. intros H.
  apply bind_ok in H as (avg' & Havg & H).
  apply bind_ok in H as (kms' & Hloop & H).
  inversion H; subst. split; [exact Havg|].
  split; [apply years_axis|].
  apply for_append_ok in Hloop as (bs & -> & Hbs). exact Hbs.
Qed.

Lemma int_of_float_small q z :
  small q -> F64.trunc q = Some z -> int_of_float q = Ok z.
Proof.
  destruct q; simpl; try contradiction; intros _ H; inversion H; reflexivity.
Qed.

Lemma float_of_int_small y :
  0 <= y < 2 ^ 53 -> exists fy, float_of_int y = Ok fy /\ small fy.
Proof.
  intros Hy. pose proof (of_int_small y Hy) as Hs. unfold float_of_int.
  destruct (F64.of_int y) eqn:E; simpl in Hs; try contradiction; eauto.
Qed.

Lemma km_for_year_returns cur_age cur_km e avg y :
  0 <= cur_age < 2 ^ 53 -> 0 <= cur_km < 2 ^ 53 -> 0 <= y ->
  returns (km_for_year cur_age cur_km e avg y).
Proof.
  intros Hage Hkm Hy. unfold km_for_year.
  destruct (Z.leb_spec y cur_age).
  - destruct (Z.ltb_spec 0 cur_age); [|eexists; reflexivity].
    destruct (int_truediv_small cur_km cur_age Hkm ltac:(lia)) as (q & -> & Hq & _).
    destruct (float_of_int_small y ltac:(lia)) as (fy & -> & Hfy).
    simpl. apply round_float_finite, mul_small; assumption.
  - destruct e; eexists; reflexivity.
Qed.

(** The call returns whenever age and mileage are below [2^53], where every
    integer is a float; its third component is then the integer quotient. *)
Lemma calculate_years_and_kms_returns cur_age cur_km e :
  0 <= cur_age < 2 ^ 53 -> 0 <= cur_km < 2 ^ 53 ->
  exists years kms,
    calculate_years_and_kms cur_age cur_km e
    = Ok (years, kms, if 0 <? cur_age then cur_km / cur_age else cur_km).
Proof.
  intros Hage Hkm. unfold calculate_years_and_kms.
  set (avg := if 0 <? cur_age then cur_km / cur_age else cur_km).
  assert ((if 0 <? cur_age then q ← int_truediv cur_km cur_age; int_of_float q
           else Ok cur_km) = Ok avg) as ->.
  { unfold avg. destruct (Z.ltb_spec 0 cur_age); [|reflexivity].
    destruct (int_truediv_small cur_km cur_age Hkm ltac:(lia)) as (q & -> & Hq & Ht).
    simpl. apply int_of_float_small; assumption. }
  simpl. rewrite years_axis.
  set (years := if cur_age <? 10 then _ else _).
  destruct (for_append_returns (km_for_year cur_age cur_km e avg) years [])
    as [kms Hk].
  { apply Forall_forall. intros y Hy.
    apply km_for_year_returns; try assumption.
    unfold years in Hy. destruct (Z.ltb_spec cur_age 10); 
      repeat (apply elem_of_cons in Hy as [->|Hy]; [lia|]);
      apply elem_of_nil in Hy; contradiction. }
  rewrite Hk. simpl. eauto.
Qed.

(** C5.  The ages list returned by [calculate_years_and_kms] for an age
    [cur_age >= 0] is exactly 0, 1, ..., 10 (11 points) when [cur_age < 10]
    and exactly [cur_age], ..., [cur_age + 3] (4 points) when
    [cur_age >= 10]; age 9 gives the window 0..10 and age 10 the window
    10..13.  This holds of every returned triple, and the call does return
    whenever age and mileage are below [2^53]. *)
Theorem calculate_years_and_kms_age_axis :
  (forall cur_age cur_km e years kms avg,
     0 <= cur_age ->
     calculate_years_and_kms cur_age cur_km e = Ok (years, kms, avg) ->
     (cur_age < 10 ->
      years = [0; 1; 2; 3; 4; 5; 6; 7; 8; 9; 10] /\ length years = 11%nat) /\
     (10 <= cur_age ->
      years = [cur_age; cur_age + 1; cur_age + 2; cur_age + 3] /\
      length years = 4%nat)) /\
  (forall cur_age cur_km e,
     0 <= cur_age < 2 ^ 53 -> 0 <= cur_km < 2 ^ 53 ->
     returns (calculate_years_and_kms cur_age cur_km e)) /\
  (forall cur_km e years kms avg,
     calculate_years_and_kms 9 cur_km e = Ok (years, kms, avg) ->
     years = [0; 1; 2; 3; 4; 5; 6; 7; 8; 9; 10]) /\
  (forall cur_km e years kms avg,
     calculate_years_and_kms 10 cur_km e = Ok (years, kms, avg) ->
     years = [10; 11; 12; 13]).
Proof.
  split; [|split; [|split]].
  - intros cur_age cur_km e years kms avg Hage H.
    apply calculate_years_and_kms_ok in H as (_ & -> & _).
    destruct (Z.ltb_spec cur_age 10); split; intros; try lia; auto.
  - intros cur_age cur_km e Hage Hkm.
    destruct (calculate_years_and_kms_returns cur_age cur_km e Hage Hkm)
      as (years & kms & H).
    eexists; exact H.
  - intros cur_km e years kms avg H.
    apply calculate_years_and_kms_ok in H as (_ & -> & _). reflexivity.
  - intros cur_km e years kms avg H.
    apply calculate_years_and_kms_ok in H as (_ & -> & _). reflexivity.
Qed.

Lemma calculate_years_and_kms_age_axis_witness :
  returns (calculate_years_and_kms 9 20000 None) /\
  exists kms avg,
    calculate_years_and_kms 10 150000 (Some 12000)
    = Ok ([10; 11; 12; 13], kms, avg).
Proof.
  destruct calculate_years_and_kms_age_axis as (_ & Hret & _ & H10).
  split; [apply Hret; lia|].
  destruct (Hret 10 150000 (Some 12000) ltac:(lia) ltac:(lia))
    as [[[years kms] avg] H].
  exists kms, avg. rewrite <- (H10 _ _ _ _ _ H). exact H.
Defined.

(** C9.  In every triple [calculate_years_and_kms] returns for
    [cur_age >= 0] and [cur_km >= 0], the years and the mileages have one
    length (11 when [cur_age < 10], otherwise 4) and the years are
    consecutive, strictly increasing integers; the call returns whenever
    age and mileage are below [2^53]. *)
Theorem calculate_years_and_kms_lengths :
  (forall cur_age cur_km e years kms avg,
     0 <= cur_age -> 0 <= cur_km ->
     calculate_years_and_kms cur_age cur_km e = Ok (years, kms, avg) ->
     length years = length kms /\
     length years = (if cur_age <? 10 then 11%nat else 4%nat) /\
     (forall (i : nat) a b,
        years !! i = Some a -> years !! S i = Some b -> b = a + 1)) /\
  (forall cur_age cur_km e,
     0 <= cur_age < 2 ^ 53 -> 0 <= cur_km < 2 ^ 53 ->
     returns (calculate_years_and_kms cur_age cur_km e)).
Proof.
  split.
  - intros cur_age cur_km e years kms avg Hage Hkm H.
    apply calculate_years_and_kms_ok in H as (_ & Hy & Hk).
    split; [eapply Forall2_length; exact Hk|].
    subst years. destruct (cur_age <? 10).
    + split; [reflexivity|]. intros i a b Ha Hb.
      do 11 (destruct i as [|i]; [simpl in Ha, Hb; inversion Ha; inversion Hb; lia|]).
      discriminate.
    + split; [reflexivity|]. intros i a b Ha Hb.
      do 4 (destruct i as [|i]; [simpl in Ha, Hb; inversion Ha; inversion Hb; lia|]).
      discriminate.
  - intros cur_age cur_km e Hage Hkm.
    destruct (calculate_years_and_kms_returns cur_age cur_km e Hage Hkm)
      as (years & kms & H).
    eexists; exact H.
Qed.

Lemma calculate_years_and_kms_lengths_witness :
  exists years kms avg,
    calculate_years_and_kms 12 150000 None = Ok (years, kms, avg) /\
    length years = length kms /\ length years = 4%nat.
Proof.
  destruct calculate_years_and_kms_lengths as [Hlen Hret].
  destruct (Hret 12 150000 None ltac:(lia) ltac:(lia)) as [[[years kms] avg] H].
  exists years, kms, avg. split; [exact H|].
  destruct (Hlen 12 150000 None years kms avg ltac:(lia) ltac:(lia) H)
    as (H1 & H2 & _).
  split; [exact H1|exact H2].
Defined.

(** C3, as the specification states it, fails: for age 3 and 20000 km the
    function returns the average 6666, while [round(20000 / 3)] is 6667. *)
Lemma avg_per_year_is_not_rounded :
  avg_per_year_of (calculate_years_and_kms 3 20000 None) = Ok 6666 /\
  avg_km_per_year_spec 3 20000 = Ok 6667.
Proof. split; vm_compute; reflexivity. Qed.

(** C3, amended.  For [0 < cur_age] and [0 <= cur_km], both below [2^53],
    the returned average is the quotient [cur_km / cur_age] truncated to an
    integer; for [cur_age = 0] the call returns [cur_km] itself, without
    dividing. *)
Theorem avg_per_year_truncates :
  (forall cur_age cur_km e,
     0 < cur_age < 2 ^ 53 -> 0 <= cur_km < 2 ^ 53 ->
     avg_per_year_of (calculate_years_and_kms cur_age cur_km e)
     = Ok (cur_km / cur_age)) /\
  (forall cur_km e,
     0 <= cur_km ->
     avg_per_year_of (calculate_years_and_kms 0 cur_km e) = Ok cur_km).
Proof.
  split.
  - intros cur_age cur_km e Hage Hkm.
    destruct (calculate_years_and_kms_returns cur_age cur_km e ltac:(lia) Hkm)
      as (years & kms & ->).
    destruct (Z.ltb_spec 0 cur_age); [reflexivity|lia].
  - intros cur_km e Hkm. unfold calculate_years_and_kms. simpl.
    destruct e; reflexivity.
Qed.

Lemma avg_per_year_truncates_witness :
  avg_per_year_of (calculate_years_and_kms 3 20000 None) = Ok (20000 / 3) /\
  avg_per_year_of (calculate_years_and_kms 0 20000 None) = Ok 20000.
Proof.
  split.
  - apply (proj1 avg_per_year_truncates); lia.
  - apply (proj2 avg_per_year_truncates); lia.
Defined.

(** The ages of the axis are not negative, and one at or below a current
    age of ten or more is the current age itself. *)
Lemma years_axis_elem cur_age (i : nat) y :
  0 <= cur_age ->
  (if cur_age <? 10 then [0; 1; 2; 3; 4; 5; 6; 7; 8; 9; 10]
   else [cur_age; cur_age + 1; cur_age + 2; cur_age + 3]) !! i = Some y ->
  0 <= y /\ (y <= cur_age -> cur_age < 10 \/ y = cur_age).
Proof.
  intros Hage Hy. apply list_elem_of_lookup_2 in Hy.
  destruct (Z.ltb_spec cur_age 10);
    repeat (apply elem_of_cons in Hy as [->|Hy]; [lia|]);
    apply elem_of_nil in Hy; contradiction.
Qed.

(** C4, as the specification states it, fails: for age 5 and
    1125899906842629 km the function returns 675539944105578 at age 3,
    while [3 * 1125899906842629 / 5] is 675539944105577.4 and rounds to
    675539944105577, as an exact ratio and as the float quotient of the
    two integers alike.  The code divides first: the quotient
    [cur_km / cur_age] is rounded to a float before it is multiplied. *)
Lemma calculate_years_and_kms_mileage_inexact :
  exists years kms avg,
    calculate_years_and_kms 5 1125899906842629 None = Ok (years, kms, avg) /\
    years !! 3%nat = Some 3 /\
    kms !! 3%nat = Some 675539944105578 /\
    F64.round_half_even (3 * 1125899906842629) 5 = 675539944105577 /\
    (q ← int_truediv (3 * 1125899906842629) 5; round_float q)
    = Ok 675539944105577.
Proof.
  eexists _, _, _. split; [vm_compute; reflexivity|].
  repeat split; vm_compute; reflexivity.
Qed.

(** C4, amended.  For [0 < cur_age < 2^47] and [0 <= cur_km] with
    [cur_km * cur_age < 2^47] the call returns, and in the trajectory the
    mileage at an age [y <= cur_age] is the exact ratio
    [y * cur_km / cur_age] rounded to the nearest integer, ties to even.
    In every trajectory returned for a positive age, whatever the mileage,
    the one at an age [y > cur_age] is
    [cur_km + (y - cur_age) * expected_annual_km] when the override is given
    and [round(y * avg_per_year)] otherwise.  With age 2, 20000 km and an
    override of 12000 the mileage is 56000 at age 5 and 10000 at age 1. *)
Theorem calculate_years_and_kms_mileage :
  (forall cur_age cur_km e,
     0 < cur_age < 2 ^ 47 -> 0 <= cur_km -> cur_km * cur_age < 2 ^ 47 ->
     exists years kms,
       calculate_years_and_kms cur_age cur_km e
       = Ok (years, kms, cur_km / cur_age) /\
       forall (i : nat) y,
         years !! i = Some y ->
         exists k,
           kms !! i = Some k /\
           (y <= cur_age -> k = F64.round_half_even (y * cur_km) cur_age)) /\
  (forall cur_age cur_km e years kms avg,
     0 < cur_age ->
     calculate_years_and_kms cur_age cur_km e = Ok (years, kms, avg) ->
     forall (i : nat) y,
       years !! i = Some y -> cur_age < y ->
       exists k,
         kms !! i = Some k /\
         match e with
         | Some expected_annual_km =>
             k = cur_km + (y - cur_age) * expected_annual_km
         | None => k = round_int (y * avg)
         end) /\
  (exists years kms avg,
     calculate_years_and_kms 2 20000 (Some 12000) = Ok (years, kms, avg) /\
     years !! 5%nat = Some 5 /\ kms !! 5%nat = Some 56000 /\
     years !! 1%nat = Some 1 /\ kms !! 1%nat = Some 10000).
Proof.
  split; [|split].
  - intros cur_age cur_km e Hage Hkm Hprod.
    assert (cur_km < 2 ^ 47) as Hkm47 by nia.
    destruct (calculate_years_and_kms_returns cur_age cur_km e)
      as (years & kms & H); [lia|lia|].
    destruct (Z.ltb_spec 0 cur_age); [|lia].
    exists years, kms. split; [exact H|]. intros i y Hy.
    apply calculate_years_and_kms_ok in H as (_ & Hyears & Hk).
    destruct (Forall2_lookup_l _ _ _ _ _ Hk Hy) as (k & Hki & Hbody).
    rewrite Hyears in Hy.
    apply years_axis_elem in Hy as [Hy0 Hdom]; [|lia].
    exists k. split; [exact Hki|]. intros Hle.
    unfold km_for_year in Hbody.
    destruct (Z.leb_spec y cur_age); [|lia].
    destruct (Z.ltb_spec 0 cur_age); [|lia].
    apply bind_ok in Hbody as (q & Hq & Hbody).
    apply bind_ok in Hbody as (fy & Hfy & Hbody).
    destruct (past_km_exact cur_km cur_age y Hkm ltac:(lia) ltac:(lia)
                ltac:(auto) Hprod) as (q' & fy' & Hq' & Hfy' & Hr).
    congruence.
  - intros cur_age cur_km e years kms avg Hage H i y Hy Hlt.
    apply calculate_years_and_kms_ok in H as (_ & _ & Hk).
    destruct (Forall2_lookup_l _ _ _ _ _ Hk Hy) as (k & Hki & Hbody).
    exists k. split; [exact Hki|]. unfold km_for_year in Hbody.
    destruct (Z.leb_spec y cur_age); [lia|].
    destruct e; inversion Hbody; reflexivity.
  - eexists _, _, _. split; [vm_compute; reflexivity|]. repeat split.
Qed.

Lemma calculate_years_and_kms_mileage_witness :
  exists years kms,
    calculate_years_and_kms 3 20000 (Some 9000)
    = Ok (years, kms, 20000 / 3) /\
    forall (i : nat) y,
      years !! i = Some y ->
      exists k,
        kms !! i = Some k /\
        (y <= 3 -> k = F64.round_half_even (y * 20000) 3).
Proof.
  apply (proj1 calculate_years_and_kms_mileage 3 20000 (Some 9000)); lia.
Defined.

(** ** calculate_depreciation_metrics *)

Lemma store_lookup_insert (h : store) (l : loc) fr :
  <[l := fr]> h !! l = Some fr.
Proof. apply lookup_insert_eq. Qed.

Lemma store_insert_insert (h : store) (l : loc) fr fr' :
  <[l := fr]> (<[l := fr']> h) = <[l := fr]> h.
Proof. apply insert_insert_eq. Qed.

Lemma calculate_depreciation_metrics_result (h : store) df fr :
  h !! df = Some fr ->
  exists fr',
    calculate_depreciation_metrics df h
    = Some (fresh (dom h), <[fresh (dom h) := fr']> h) /\
    year fr' = year fr /\ km fr' = km fr /\
    prediction fr' = series_round2 (prediction fr) /\
    extra fr' !! "depreciation"%string
    = Some (series_round2 (depreciation_of (prediction fr))) /\
    extra fr' !! "depreciation_pct"%string
    = Some (series_round2 (depreciation_pct_of (prediction fr))) /\
    extra fr' !! "accum_depreciation"%string
    = Some (series_round2 (accum_depreciation_of (prediction fr))) /\
    (forall c : string,
       c <> "depreciation"%string -> c <> "depreciation_pct"%string ->
       c <> "accum_depreciation"%string -> extra fr' !! c = extra fr !! c).
Proof.
  intros H.
  unfold calculate_depreciation_metrics, copy, alloc, set_prediction,
    set_column, get_column.
  rewrite H. simpl.
  repeat (rewrite store_lookup_insert; simpl).
  fold (depreciation_of (prediction fr)).
  fold (depreciation_pct_of (prediction fr)).
  set (base_val := match prediction fr with v :: _ => v | [] => F64.zero end).
  assert ((if float_bool base_val && negb (F64.eqb base_val F64.zero) then
             series_mul_scalar
               (series_div_scalar (scalar_sub_series base_val (prediction fr))
                  base_val) hundred
           else map (fun _ => F64.zero) (prediction fr))
          = accum_depreciation_of (prediction fr)) as Hacc by reflexivity.
  destruct (float_bool base_val && negb (F64.eqb base_val F64.zero));
    rewrite Hacc; clear Hacc;
    repeat (rewrite store_lookup_insert; simpl);
    repeat (first [rewrite lookup_insert_eq
                  | rewrite lookup_insert_ne by discriminate]; simpl);
    rewrite !store_insert_insert;
    (eexists; split; [reflexivity|]; cbn [year km prediction extra];
     repeat split; try reflexivity;
     [ rewrite lookup_insert_ne by discriminate;
       rewrite lookup_insert_ne by discriminate;
       apply lookup_insert_eq
     | rewrite lookup_insert_ne by discriminate; apply lookup_insert_eq
     | apply lookup_insert_eq
     | intros c H1 H2 H3;
       repeat (rewrite lookup_insert_ne by congruence); reflexivity ]).
Qed.

(** *** The columns, cell by cell *)

Lemma eqb_zero x : F64.eqb x F64.zero = F64.is_zero x.
Proof. destruct x as [[]|[]| |[] m e]; reflexivity. Qed.

Lemma shift1_lookup_0 v pred : shift1 (v :: pred) !! 0%nat = Some F64.nan.
Proof. reflexivity. Qed.

Lemma removelast_lookup {A} (l : list A) (i : nat) x :
  l !! S i = Some x -> removelast l !! i = l !! i.
Proof.
  revert i. induction l as [|a l IH]; intros i H; [discriminate|].
  destruct l as [|b l]; [destruct i; discriminate|].
  change (removelast (a :: b :: l)) with (a :: removelast (b :: l)).
  destruct i as [|i]; [reflexivity|]. simpl. apply IH. exact H.
Qed.

Lemma shift1_lookup_S pred (i : nat) v :
  pred !! S i = Some v -> shift1 pred !! S i = pred !! i.
Proof.
  intros H. destruct pred as [|a l]; [discriminate|].
  change (shift1 (a :: l) !! S i) with (removelast (a :: l) !! i).
  eapply removelast_lookup. exact H.
Qed.

Lemma depreciation_of_0 v pred :
  depreciation_of (v :: pred) !! 0%nat = Some F64.zero.
Proof. destruct v; reflexivity. Qed.

Lemma depreciation_of_S pred (i : nat) p v :
  pred !! i = Some p -> pred !! S i = Some v ->
  depreciation_of pred !! S i
  = Some (if F64.is_nan (F64.sub p v) then F64.zero else F64.sub p v).
Proof.
  intros Hp Hv. unfold depreciation_of, fillna0, series_sub.
  rewrite list_lookup_fmap, lookup_zip_with.
  rewrite (shift1_lookup_S pred i v Hv), Hp, Hv. reflexivity.
Qed.

Lemma depreciation_pct_of_0 v pred :
  depreciation_pct_of (v :: pred) !! 0%nat = Some F64.zero.
Proof.
  unfold depreciation_pct_of, series_mul_scalar, fillna0, series_div,
    replace_zero_na.
  rewrite !list_lookup_fmap, lookup_zip_with, list_lookup_fmap.
  rewrite depreciation_of_0, shift1_lookup_0. reflexivity.
Qed.

Lemma depreciation_pct_of_S pred (i : nat) p v :
  pred !! i = Some p -> pred !! S i = Some v ->
  depreciation_pct_of pred !! S i
  = Some (F64.mul
            (let d := if F64.is_nan (F64.sub p v) then F64.zero
                      else F64.sub p v in
             let r := F64.div d (if F64.is_zero p then F64.nan else p) in
             if F64.is_nan r then F64.zero else r)
            hundred).
Proof.
  intros Hp Hv.
  unfold depreciation_pct_of, series_mul_scalar, fillna0 at 1, series_div,
    replace_zero_na.
  rewrite !list_lookup_fmap, lookup_zip_with, list_lookup_fmap.
  rewrite (depreciation_of_S pred i p v Hp Hv).
  rewrite (shift1_lookup_S pred i v Hv), Hp. simpl. rewrite eqb_zero.
  reflexivity.
Qed.

Lemma accum_depreciation_of_lookup pred (i : nat) v0 v :
  pred !! 0%nat = Some v0 -> pred !! i = Some v ->
  accum_depreciation_of pred !! i
  = Some (if F64.is_zero v0 then F64.zero
          else F64.mul (F64.div (F64.sub v0 v) v0) hundred).
Proof.
  intros H0 Hv. destruct pred as [|a l]; [discriminate|].
  inversion H0; subst a. unfold accum_depreciation_of, float_bool.
  rewrite eqb_zero, andb_diag.
  destruct (F64.is_zero v0); simpl negb; cbv iota.
  - rewrite list_lookup_fmap, Hv. reflexivity.
  - unfold series_mul_scalar, series_div_scalar, scalar_sub_series.
    rewrite !list_lookup_fmap, Hv. reflexivity.
Qed.

Lemma round2_zero : F64.round2 F64.zero = F64.zero.
Proof. reflexivity. Qed.

Lemma sub_diag x :
  F64.is_finite x = true -> F64.sub x x = F64.zero.
Proof.
  destruct x as [[]|[]| |s m e]; try discriminate; try reflexivity. intros _.
  unfold F64.sub, SFsub, shl_align. rewrite Z.min_id.
  set (a := cond_Zopp s _).
  replace (a - a) with 0 by lia. reflexivity.
Qed.

(** C1.  For a trajectory of finite prices the output columns of
    [calculate_depreciation_metrics] hold, each rounded to 2 decimals:
    depreciation 0 in the first row and [value[i-1] - value[i]] below it;
    depreciation_pct 0 in the first row and
    [depreciation[i] / value[i-1] * 100] below it, 0 where
    [value[i-1] = 0]; accumulated depreciation
    [(value[0] - value[i]) / value[0] * 100], 0 where [value[0] = 0].  The
    prices 20000, 18000, 15000 give depreciation 0, 2000, 3000,
    depreciation_pct 0, 10.0, 16.67 and accumulated depreciation 0, 10.0,
    25.0. *)
Theorem depreciation_metrics_formulas :
  (forall (h : store) (df : loc) fr,
     h !! df = Some fr ->
     Forall (fun v => F64.is_finite v = true) (prediction fr) ->
     exists out h' fr' dep pct acc,
       calculate_depreciation_metrics df h = Some (out, h') /\
       h' !! out = Some fr' /\
       extra fr' !! "depreciation"%string = Some dep /\
       extra fr' !! "depreciation_pct"%string = Some pct /\
       extra fr' !! "accum_depreciation"%string = Some acc /\
       (forall v0,
          prediction fr !! 0%nat = Some v0 ->
          dep !! 0%nat = Some F64.zero /\ pct !! 0%nat = Some F64.zero) /\
       (forall (i : nat) p v,
          prediction fr !! i = Some p -> prediction fr !! S i = Some v ->
          dep !! S i = Some (F64.round2 (F64.sub p v)) /\
          pct !! S i
          = Some (F64.round2
                    (if F64.is_zero p then F64.zero
                     else F64.mul (F64.div (F64.sub p v) p) hundred))) /\
       (forall (i : nat) v0 v,
          prediction fr !! 0%nat = Some v0 -> prediction fr !! i = Some v ->
          acc !! i
          = Some (F64.round2
                    (if F64.is_zero v0 then F64.zero
                     else F64.mul (F64.div (F64.sub v0 v) v0) hundred)))) /\
  (exists out h' fr',
     calculate_depreciation_metrics 0%nat scenario_c = Some (out, h') /\
     h' !! out = Some fr' /\
     extra fr' !! "depreciation"%string
     = Some [F64.zero; F64.of_int 2000; F64.of_int 3000] /\
     extra fr' !! "depreciation_pct"%string
     = Some [F64.zero; F64.of_int 10;
             F64.div (F64.of_int 1667) (F64.of_int 100)] /\
     extra fr' !! "accum_depreciation"%string
     = Some [F64.zero; F64.of_int 10; F64.of_int 25]).
Proof.
  split.
  - intros h df fr Hdf Hfin.
    destruct (calculate_depreciation_metrics_result h df fr Hdf)
      as (fr' & Hcalc & _ & _ & _ & Hdep & Hpct & Hacc & _).
    exists (fresh (dom h)), (<[fresh (dom h) := fr']> h), fr'.
    eexists _, _, _. split; [exact Hcalc|].
    split; [apply store_lookup_insert|].
    split; [exact Hdep|]. split; [exact Hpct|]. split; [exact Hacc|].
    unfold series_round2.
    assert (forall (i : nat) v, prediction fr !! i = Some v ->
                                F64.is_finite v = true) as Hf.
    { intros i v Hv. rewrite Forall_forall in Hfin. apply Hfin.
      eapply list_elem_of_lookup_2; exact Hv. }
    split; [|split].
    + intros v0 H0. destruct (prediction fr) as [|a l]; [discriminate|].
      rewrite !list_lookup_fmap, depreciation_of_0, depreciation_pct_of_0.
      split; reflexivity.
    + intros i p v Hp Hv.
      pose proof (Hf _ _ Hp) as Fp. pose proof (Hf _ _ Hv) as Fv.
      rewrite !list_lookup_fmap.
      rewrite (depreciation_of_S _ i p v Hp Hv).
      rewrite (depreciation_pct_of_S _ i p v Hp Hv).
      rewrite (sub_not_nan p v Fp Fv). cbv zeta.
      split; [reflexivity|]. simpl. do 2 f_equal.
      destruct (F64.is_zero p) eqn:Ez.
      * destruct (F64.sub p v); reflexivity.
      * rewrite div_not_nan; [reflexivity|apply sub_not_nan; assumption
                               |assumption|assumption].
    + intros i v0 v H0 Hv. rewrite list_lookup_fmap.
      rewrite (accum_depreciation_of_lookup _ i v0 v H0 Hv). reflexivity.
  - eexists _, _, _. split; [vm_compute; reflexivity|].
    split; [vm_compute; reflexivity|]. repeat split.
Qed.

Lemma depreciation_metrics_formulas_witness :
  exists out h' fr' dep,
    calculate_depreciation_metrics 0%nat scenario_c = Some (out, h') /\
    h' !! out = Some fr' /\
    extra fr' !! "depreciation"%string = Some dep /\
    dep !! 1%nat
    = Some (F64.round2 (F64.sub (F64.of_int 20000) (F64.of_int 18000))).
Proof.
  destruct (proj1 depreciation_metrics_formulas scenario_c 0%nat
              (Frame [0; 1; 2] [0; 10000; 20000]
                 [F64.of_int 20000; F64.of_int 18000; F64.of_int 15000] ∅))
    as (out & h' & fr' & dep & pct & acc & H1 & H2 & H3 & _ & _ & _ & HS & _).
  - reflexivity.
  - repeat constructor.
  - exists out, h', fr', dep. repeat split; try assumption.
    apply (HS 0%nat (F64.of_int 20000) (F64.of_int 18000)); reflexivity.
Defined.

(** What rounding to 2 decimals does to a zero. *)
Lemma round2_is_zero x : F64.is_zero x = true -> F64.is_zero (F64.round2 x) = true.
Proof. destruct x as [[]| | |]; try discriminate; reflexivity. Qed.

Lemma accum_first_is_zero v0 :
  F64.is_finite v0 = true ->
  F64.is_zero (if F64.is_zero v0 then F64.zero
               else F64.mul (F64.div (F64.sub v0 v0) v0) hundred) = true.
Proof.
  intros Hf. rewrite (sub_diag v0 Hf).
  destruct v0 as [[]|[]| |[] m e]; try discriminate; reflexivity.
Qed.

(** C6.  For every non-empty trajectory whose first price is finite, the
    first row of the output of [calculate_depreciation_metrics] has
    depreciation, depreciation_pct and accumulated depreciation equal
    to 0. *)
Theorem first_row_is_zero (h : store) (df : loc) fr v0 :
  h !! df = Some fr ->
  prediction fr !! 0%nat = Some v0 ->
  F64.is_finite v0 = true ->
  exists out h' fr' d p a,
    calculate_depreciation_metrics df h = Some (out, h') /\
    h' !! out = Some fr' /\
    extra fr' !! "depreciation"%string ≫= (fun col => col !! 0%nat) = Some d /\
    extra fr' !! "depreciation_pct"%string ≫= (fun col => col !! 0%nat)
    = Some p /\
    extra fr' !! "accum_depreciation"%string ≫= (fun col => col !! 0%nat)
    = Some a /\
    F64.eqb d F64.zero = true /\ F64.eqb p F64.zero = true /\
    F64.eqb a F64.zero = true.
Proof.
  intros Hdf H0 Hfin.
  destruct (calculate_depreciation_metrics_result h df fr Hdf)
    as (fr' & Hcalc & _ & _ & _ & Hdep & Hpct & Hacc & _).
  exists (fresh (dom h)), (<[fresh (dom h) := fr']> h), fr'.
  exists F64.zero, F64.zero.
  exists (F64.round2 (if F64.is_zero v0 then F64.zero
                      else F64.mul (F64.div (F64.sub v0 v0) v0) hundred)).
  split; [exact Hcalc|]. split; [apply store_lookup_insert|].
  rewrite Hdep, Hpct, Hacc. cbn [mbind option_bind]. unfold series_round2.
  rewrite !list_lookup_fmap.
  rewrite (accum_depreciation_of_lookup _ 0%nat v0 v0 H0 H0).
  destruct (prediction fr) as [|b l]; [discriminate|].
  rewrite depreciation_of_0, depreciation_pct_of_0.
  repeat split. rewrite eqb_zero.
  apply round2_is_zero, accum_first_is_zero, Hfin.
Qed.

Lemma first_row_is_zero_witness :
  exists out h' fr' d p a,
    calculate_depreciation_metrics 0%nat scenario_c = Some (out, h') /\
    h' !! out = Some fr' /\
    extra fr' !! "depreciation"%string ≫= (fun col => col !! 0%nat) = Some d /\
    extra fr' !! "depreciation_pct"%string ≫= (fun col => col !! 0%nat)
    = Some p /\
    extra fr' !! "accum_depreciation"%string ≫= (fun col => col !! 0%nat)
    = Some a /\
    F64.eqb d F64.zero = true /\ F64.eqb p F64.zero = true /\
    F64.eqb a F64.zero = true.
Proof.
  apply (first_row_is_zero scenario_c 0%nat
           (Frame [0; 1; 2] [0; 10000; 20000]
              [F64.of_int 20000; F64.of_int 18000; F64.of_int 15000] ∅)
           (F64.of_int 20000)); reflexivity.
Defined.

(** C10.  [calculate_depreciation_metrics] leaves the frame it is given,
    and every other frame of the store, as it was: it writes to a fresh
    copy only.  In that copy the year and km columns are those of the
    input, the prediction column is the input's rounded to 2 decimals, the
    three depreciation columns are present and every other column is
    unchanged. *)
Theorem calculate_depreciation_metrics_frame (h : store) (df : loc) fr :
  h !! df = Some fr ->
  exists out h' fr',
    calculate_depreciation_metrics df h = Some (out, h') /\
    out <> df /\ h !! out = None /\
    h' !! df = Some fr /\
    (forall l : loc, l <> out -> h' !! l = h !! l) /\
    h' !! out = Some fr' /\
    year fr' = year fr /\ km fr' = km fr /\
    prediction fr' = map F64.round2 (prediction fr) /\
    is_Some (extra fr' !! "depreciation"%string) /\
    is_Some (extra fr' !! "depreciation_pct"%string) /\
    is_Some (extra fr' !! "accum_depreciation"%string) /\
    (forall c : string,
       c <> "depreciation"%string -> c <> "depreciation_pct"%string ->
       c <> "accum_depreciation"%string -> extra fr' !! c = extra fr !! c).
Proof.
  intros Hdf.
  destruct (calculate_depreciation_metrics_result h df fr Hdf)
    as (fr' & Hcalc & Hy & Hk & Hp & Hdep & Hpct & Hacc & Hother).
  assert (h !! fresh (dom h) = None) as Hfresh.
  { apply not_elem_of_dom, is_fresh. }
  assert (fresh (dom h) <> df) as Hne by congruence.
  exists (fresh (dom h)), (<[fresh (dom h) := fr']> h), fr'.
  split; [exact Hcalc|]. split; [exact Hne|]. split; [exact Hfresh|].
  split; [rewrite lookup_insert_ne by exact Hne; exact Hdf|].
  split; [intros l Hl; apply lookup_insert_ne; congruence|].
  split; [apply store_lookup_insert|].
  rewrite Hdep, Hpct, Hacc. repeat split; eauto.
Qed.

Lemma calculate_depreciation_metrics_frame_witness :
  exists out h',
    calculate_depreciation_metrics 0%nat scenario_c = Some (out, h') /\
    out <> 0%nat /\
    h' !! 0%nat
    = Some (Frame [0; 1; 2] [0; 10000; 20000]
              [F64.of_int 20000; F64.of_int 18000; F64.of_int 15000] ∅).
Proof.
  destruct (calculate_depreciation_metrics_frame scenario_c 0%nat
              (Frame [0; 1; 2] [0; 10000; 20000]
                 [F64.of_int 20000; F64.of_int 18000; F64.of_int 15000] ∅)
              eq_refl)
    as (out & h' & fr' & H1 & H2 & _ & H3 & _).
  exists out, h'. repeat split; assumption.
Defined.

(** ** build_prediction_payloads *)

(** C2, as the specification states it, fails: with three years and a
    single explicit mileage the call returns payloads, the last two with
    the average-kilometre mileage. *)
Lemma build_prediction_payloads_accepts_mismatch :
  length [7] <> length [0; 1; 2] /\
  build_prediction_payloads [0; 1; 2] "gasolina" "seat" "compacto" "berlina"
    10000 (Some [7])
  = Ok [Payload 7 "gasolina" 0 "seat" "compacto" "berlina";
        Payload 10000 "gasolina" 1 "seat" "compacto" "berlina";
        Payload 20000 "gasolina" 2 "seat" "compacto" "berlina"].
Proof. split; [discriminate|reflexivity]. Qed.

(** C2, amended.  Whatever the length of the explicit mileage list, the call
    returns one payload per year: position [i] carries [explicit_kms[i]]
    when the list reaches that far and [round(year * avg_km_per_year)]
    otherwise; mileages beyond the last year are not used. *)
Theorem build_prediction_payloads_positions
    years fuel_type brand segment body_type avg_km_per_year explicit_kms :
  exists payloads,
    build_prediction_payloads years fuel_type brand segment body_type
      avg_km_per_year (Some explicit_kms) = Ok payloads /\
    length payloads = length years /\
    forall (i : nat) y,
      years !! i = Some y ->
      payloads !! i
      = Some (Payload
                (match explicit_kms !! i with
                 | Some km_y => km_y
                 | None => round_int (y * avg_km_per_year)
                 end)
                fuel_type y brand segment body_type).
Proof.
  eexists. split; [reflexivity|]. split; [apply length_imap|].
  intros i y Hy. rewrite list_lookup_imap, Hy. reflexivity.
Qed.

(** ** validate_selections and the Predict handler *)

Lemma str_bool_false s : str_bool s = false <-> s = ""%string.
Proof. destruct s; simpl; split; congruence. Qed.

Lemma validate_selections_cases f :
  (f_fuel_type f = ""%string \/ f_brand f = ""%string \/
   f_segment f = ""%string \/ f_body_type f = ""%string) ->
  validate_selections f = Some MissingSelection.
Proof.
  unfold validate_selections. rewrite <- !str_bool_false.
  intros [H|[H|[H|H]]]; rewrite H; simpl;
    rewrite ?orb_true_r; reflexivity.
Qed.

(** C8.  [validate_selections] returns an error exactly when one of the
    four categorical filters is empty; the handler then shows that error
    and does nothing else, so the gateway is not called (an empty brand is
    such a selection). *)
Theorem validate_selections_gate :
  (forall f,
     is_Some (validate_selections f) <->
     (f_fuel_type f = ""%string \/ f_brand f = ""%string \/
      f_segment f = ""%string \/ f_body_type f = ""%string)) /\
  (forall cached_predict present_results f error_msg,
     validate_selections f = Some error_msg ->
     error_msg = MissingSelection /\
     predict_clicked cached_predict present_results f
     = [ShowError MissingSelection] /\
     forall payloads,
       GatewayCall payloads ∉ predict_clicked cached_predict present_results f) /\
  (forall cached_predict present_results,
     predict_clicked cached_predict present_results no_brand_selected
     = [ShowError MissingSelection]).
Proof.
  split; [|split].
  - intros f. split.
    + intros [m Hm]. unfold validate_selections in Hm.
      rewrite <- !str_bool_false.
      destruct (str_bool (f_fuel_type f)), (str_bool (f_brand f)),
        (str_bool (f_segment f)), (str_bool (f_body_type f));
        simpl in Hm; try discriminate; auto.
    + intros H. rewrite (validate_selections_cases f H). eexists; reflexivity.
  - intros cached_predict present_results f error_msg H.
    assert (error_msg = MissingSelection) as ->.
    { unfold validate_selections in H.
      destruct (_ || _); inversion H; reflexivity. }
    split; [reflexivity|]. unfold predict_clicked. rewrite H.
    split; [reflexivity|]. intros payloads Hin.
    apply list_elem_of_singleton in Hin. discriminate.
  - reflexivity.
Qed.

Lemma validate_selections_gate_witness :
  validate_selections no_brand_selected = Some MissingSelection /\
  predict_clicked (fun _ => Ok []) (fun _ _ _ _ => []) no_brand_selected
  = [ShowError MissingSelection].
Proof.
  split; [reflexivity|].
  apply (proj1 (proj2 validate_selections_gate) (fun _ => Ok [])
           (fun _ _ _ _ => []) no_brand_selected MissingSelection eq_refl).
Defined.

(** *** The stable sort *)

Section sorted_by.
Context {A : Type} (key : A -> float).

Lemma insert_by_perm x l : insert_by key x l ≡ₚ x :: l.
Proof.
  induction l as [|y l IH]; simpl; [reflexivity|].
  destruct (F64.ltb (key y) (key x)); [|reflexivity].
  rewrite IH. apply Permutation_swap.
Qed.

Lemma sorted_by_perm l : sorted_by key l ≡ₚ l.
Proof.
  induction l as [|x l IH]; simpl; [reflexivity|].
  rewrite insert_by_perm, IH. reflexivity.
Qed.

Lemma sorted_by_length l : length (sorted_by key l) = length l.
Proof. apply Permutation_length, sorted_by_perm. Qed.

Lemma insert_by_sorted x l :
  F64.is_nan (key x) = false ->
  Forall (fun a => F64.is_nan (key a) = false) l ->
  StronglySorted (key_le key) l -> StronglySorted (key_le key) (insert_by key x l).
Proof.
  intros Hx Hl Hs. induction Hs as [|y l Hs IH Hy]; simpl.
  - repeat constructor.
  - apply Forall_cons in Hl as [Hny Hl].
    destruct (F64.ltb (key y) (key x)) eqn:E.
    + constructor; [apply IH; assumption|].
      rewrite insert_by_perm. constructor; [|assumption].
      unfold key_le. apply ltb_asym. exact E.
    + constructor; [constructor; assumption|].
      constructor; [exact E|].
      rewrite Forall_forall in Hy, Hl |- *. intros z Hz.
      unfold key_le in *.
      apply (ltb_negtrans (key z) (key y) (key x)); auto.
Qed.

Lemma sorted_by_sorted l :
  Forall (fun a => F64.is_nan (key a) = false) l ->
  StronglySorted (key_le key) (sorted_by key l).
Proof.
  induction 1 as [|x l Hx Hl IH]; simpl; [constructor|].
  apply insert_by_sorted; try assumption.
  rewrite sorted_by_perm. exact Hl.
Qed.
End sorted_by.

Lemma insert_by_map {A B} (f : A -> B) (key : B -> float) x l :
  insert_by key (f x) (map f l) = map f (insert_by (fun a => key (f a)) x l).
Proof.
  induction l as [|y l IH]; simpl; [reflexivity|].
  destruct (F64.ltb (key (f y)) (key (f x))); simpl; congruence.
Qed.

Lemma sorted_by_map {A B} (f : A -> B) (key : B -> float) l :
  sorted_by key (map f l) = map f (sorted_by (fun a => key (f a)) l).
Proof.
  induction l as [|x l IH]; simpl; [reflexivity|].
  rewrite IH. apply insert_by_map.
Qed.

Lemma sort_reverse_by_map {A B} (f : A -> B) (key : B -> float) l :
  sort_reverse_by key (map f l)
  = map f (sort_reverse_by (fun a => key (f a)) l).
Proof.
  unfold sort_reverse_by.
  change (map f l) with (f <$> l).
  rewrite <- fmap_reverse. change (f <$> reverse l) with (map f (reverse l)).
  rewrite sorted_by_map.
  change (map f (sorted_by (fun a => key (f a)) (reverse l)))
    with (f <$> sorted_by (fun a => key (f a)) (reverse l)).
  rewrite fmap_reverse. reflexivity.
Qed.

Lemma sort_reverse_by_perm {A} (key : A -> float) l :
  sort_reverse_by key l ≡ₚ l.
Proof.
  unfold sort_reverse_by.
  rewrite reverse_Permutation, sorted_by_perm, reverse_Permutation.
  reflexivity.
Qed.

Lemma StronglySorted_lookup {A} (R : A -> A -> Prop) l (i j : nat) a b :
  StronglySorted R l -> (i < j)%nat -> l !! i = Some a -> l !! j = Some b ->
  R a b.
Proof.
  intros Hs. revert i j. induction Hs as [|x l Hs IH Hx]; intros i j Hij Ha Hb.
  - discriminate.
  - destruct j as [|j]; [lia|]. destruct i as [|i].
    + inversion Ha; subst. rewrite Forall_forall in Hx. apply Hx.
      eapply list_elem_of_lookup_2. exact Hb.
    + apply (IH i j); [lia|exact Ha|exact Hb].
Qed.

(** In a list sorted with [reverse=True] no element has a key below that
    of a later element. *)
Lemma sort_reverse_by_descending {A} (key : A -> float) l (i j : nat) a b :
  Forall (fun a => F64.is_nan (key a) = false) l ->
  (i < j)%nat ->
  sort_reverse_by key l !! i = Some a -> sort_reverse_by key l !! j = Some b ->
  F64.ltb (key a) (key b) = false.
Proof.
  intros Hl Hij Ha Hb. unfold sort_reverse_by in *.
  set (s := sorted_by key (reverse l)) in *.
  assert (StronglySorted (key_le key) s) as Hs.
  { apply sorted_by_sorted. rewrite Forall_forall in Hl |- *.
    intros x Hx. apply Hl. apply elem_of_reverse. exact Hx. }
  assert (j < length s)%nat as Hj.
  { apply lookup_lt_Some in Hb. rewrite length_reverse in Hb. exact Hb. }
  rewrite reverse_lookup in Ha, Hb by lia.
  change (key_le key b a).
  eapply (StronglySorted_lookup _ s (length s - S j) (length s - S i));
    [exact Hs|lia|exact Hb|exact Ha].
Qed.

(** *** Dicts *)

Lemma dict_set_elem {V} k (v : V) d b w :
  (b, w) ∈ dict_set k v d -> (b = k /\ w = v) \/ (b, w) ∈ d.
Proof.
  induction d as [|[k' v'] d IH]; simpl.
  - intros H. apply list_elem_of_singleton in H. inversion H. auto.
  - destruct (decide (k' = k)) as [->|Hne]; intros H;
      apply elem_of_cons in H as [H|H].
    + inversion H. auto.
    + right. right. exact H.
    + right. rewrite H. left.
    + destruct (IH H) as [?|?]; [auto|]. right. right. assumption.
Qed.

Lemma dict_keys_set {V} k (v : V) d b :
  b ∈ dict_keys (dict_set k v d) <-> b = k \/ b ∈ dict_keys d.
Proof.
  unfold dict_keys. induction d as [|[k' v'] d IH]; simpl.
  - rewrite list_elem_of_singleton. rewrite elem_of_nil. tauto.
  - destruct (decide (k' = k)) as [->|Hne]; simpl.
    + rewrite elem_of_cons. tauto.
    + rewrite !elem_of_cons, IH. tauto.
Qed.

Lemma dict_set_NoDup {V} k (v : V) d :
  NoDup (dict_keys d) -> NoDup (dict_keys (dict_set k v d)).
Proof.
  unfold dict_keys. induction d as [|[k' v'] d IH]; simpl; intros Hd.
  - apply NoDup_singleton.
  - apply NoDup_cons in Hd as [Hk' Hd].
    destruct (decide (k' = k)) as [->|Hne]; simpl.
    + apply NoDup_cons. auto.
    + apply NoDup_cons. split; [|auto].
      intros Hin. apply (dict_keys_set k v d k') in Hin as [?|?]; auto.
Qed.

Lemma dict_get_elem {V} k (d : list (string * V)) :
  k ∈ dict_keys d -> exists v, dict_get k d = Ok v /\ (k, v) ∈ d.
Proof.
  unfold dict_keys. induction d as [|[k' v'] d IH]; simpl; intros H.
  - apply elem_of_nil in H. contradiction.
  - destruct (decide (k' = k)) as [->|Hne].
    + exists v'. split; [reflexivity|left].
    + apply elem_of_cons in H as [H|H]; [congruence|].
      destruct (IH H) as (v & Hv & Hin). exists v. split; [exact Hv|].
      right. exact Hin.
Qed.

(** *** The brand comparison *)

Section brand_data_facts.
Variable g : list payload -> result (list float).
Variables str_upper str_title : string -> string.
Variables format_thousands format_percent : float -> string.
Variable series_mean : list float -> float.
Hypothesis Hg : well_behaved g.

Lemma brand_data_returns brand f avg :
  exists row v0 rest,
    g (imap (fun (i : nat) y =>
               Payload (round_int (y * avg)) (f_fuel_type f) y brand
                 (f_segment f) (f_body_type f)) (range 0 11))
    = Ok (v0 :: rest) /\
    F64.is_finite v0 = true /\
    brand_data g str_upper str_title format_thousands format_percent
      series_mean brand f avg = Ok (row, F64.round2 v0).
Proof using Hg.
  unfold brand_data, build_prediction_payloads. cbn [mbind result_bind].
  set (ps := imap _ (range 0 11)).
  destruct (Hg ps) as (vs & Hvs & Hlen & Hfin). rewrite Hvs.
  cbn [mbind result_bind].
  assert (length ps = 11%nat) as Hps by reflexivity.
  rewrite Hps in Hlen.
  do 11 (destruct vs as [|? vs]; [discriminate|]).
  destruct vs; [|discriminate].
  apply Forall_cons in Hfin as [Hf0 _].
  unfold new_frame. simpl length. simpl andb. cbv iota. cbn [mbind result_bind].
  unfold alloc.
  set (fr := Frame _ _ _ _).
  set (l := fresh (dom (∅ : store))).
  destruct (calculate_depreciation_metrics_result (<[l := fr]> ∅) l fr
              (store_lookup_insert _ _ _))
    as (out & -> & Hy & _ & Hp & _).
  cbn [mbind option_bind fst snd]. rewrite store_lookup_insert.
  rewrite Hy, Hp. unfold fr. cbn [year prediction]. unfold series_round2.
  eexists _, _, _. split; [reflexivity|]. split; [exact Hf0|]. reflexivity.
Qed.

(** The row of a brand, its sorting key and the gateway's answer. *)
Lemma brand_data_row brand f avg :
  exists row v0,
    brand_data g str_upper str_title format_thousands format_percent
      series_mean brand f avg = Ok (row, F64.round2 v0) /\
    initial_value g f avg brand = Ok (F64.round2 v0) /\
    F64.is_finite v0 = true /\
    row_of g str_upper str_title format_thousands f avg brand row.
Proof using Hg.
  unfold brand_data, build_prediction_payloads, initial_value, row_of.
  cbn [mbind result_bind].
  change (imap _ (range 0 11)) with (comparison_request f avg brand).
  set (ps := comparison_request f avg brand).
  destruct (Hg ps) as (vs & Hvs & Hlen & Hfin). rewrite Hvs.
  cbn [mbind result_bind].
  assert (length ps = 11%nat) as Hps by reflexivity.
  rewrite Hps in Hlen.
  do 11 (destruct vs as [|? vs]; [discriminate|]).
  destruct vs; [|discriminate].
  apply Forall_cons in Hfin as [Hf0 _].
  unfold new_frame. simpl length. simpl andb. cbv iota. cbn [mbind result_bind].
  unfold alloc.
  set (fr := Frame _ _ _ _).
  set (l := fresh (dom (∅ : store))).
  destruct (calculate_depreciation_metrics_result (<[l := fr]> ∅) l fr
              (store_lookup_insert _ _ _))
    as (out & -> & Hy & _ & Hp & _).
  cbn [mbind option_bind fst snd]. rewrite store_lookup_insert.
  rewrite Hy, Hp. unfold fr. cbn [year prediction]. unfold series_round2.
  eexists _, _. split; [reflexivity|]. split; [reflexivity|].
  split; [exact Hf0|].
  eexists _, _, _, _. repeat split.
Qed.

Variable f : filters.
Variable avg : Z.

Lemma year0_price_returns brand :
  exists v, year0_price g f brand = Ok v /\ F64.is_finite v = true.
Proof using Hg.
  unfold year0_price.
  destruct (Hg [Payload 0 (f_fuel_type f) 0 brand (f_segment f) (f_body_type f)])
    as (vs & -> & Hlen & Hfin).
  destruct vs as [|v [|? ?]]; try discriminate.
  apply Forall_cons in Hfin as [Hv _]. exists v. split; [reflexivity|exact Hv].
Qed.

Lemma initial_values_loop_spec brands d :
  initial_values_inv g f d ->
  exists d',
    initial_values_loop g brands f d = Ok d' /\ initial_values_inv g f d' /\
    forall b, b ∈ dict_keys d' <-> b ∈ dict_keys d \/ b ∈ brands.
Proof using Hg.
  revert d. induction brands as [|brand brands IH]; intros d Hinv; simpl.
  - exists d. split; [reflexivity|]. split; [exact Hinv|].
    intros b. rewrite elem_of_nil. clear. tauto.
  - destruct (year0_price_returns brand) as (v & Hv & Hfin).
    unfold year0_price in Hv.
    destruct (g _) as [pred|e] eqn:Hpred; [|discriminate].
    cbn [mbind result_bind] in Hv |- *. rewrite Hv. cbn [mbind result_bind].
    destruct (IH (dict_set brand v d)) as (d' & Hd' & Hinv' & Hkeys).
    { destruct Hinv as [Hnd Hall]. split; [apply dict_set_NoDup, Hnd|].
      intros b w Hin. apply dict_set_elem in Hin as [[-> ->]|Hin]; [|auto].
      split; [|exact Hfin]. unfold year0_price. rewrite Hpred. exact Hv. }
    exists d'. split; [exact Hd'|]. split; [exact Hinv'|].
    intros b. rewrite Hkeys, dict_keys_set, elem_of_cons. clear. tauto.
Qed.

Local Abbreviation data :=
  (brand_entry g str_upper str_title format_thousands format_percent
     series_mean f avg).
Local Abbreviation brand_data' :=
  (fun b => brand_data g str_upper str_title format_thousands format_percent
              series_mean b f avg).

Lemma brand_data_entry b : brand_data' b = Ok (data b).
Proof using Hg.
  destruct (brand_data_returns b f avg) as (row & v0 & rest & _ & _ & H).
  unfold brand_entry. rewrite H. reflexivity.
Qed.

Lemma brand_entry_key_not_nan b : F64.is_nan (data b).2 = false.
Proof using Hg.
  destruct (brand_data_returns b f avg) as (row & v0 & rest & _ & Hf & H).
  unfold brand_entry. rewrite H. simpl. apply round2_not_nan.
  destruct v0; try discriminate; reflexivity.
Qed.

Lemma rows_loop_others brands selected cd sd :
  selected ∉ brands ->
  rows_loop g str_upper str_title format_thousands format_percent series_mean
    brands selected f avg cd sd
  = Ok (cd ++ map data brands, sd).
Proof using Hg.
  revert cd. induction brands as [|b brands IH]; intros cd Hsel; simpl.
  - rewrite app_nil_r. reflexivity.
  - apply not_elem_of_cons in Hsel as [Hne Hsel].
    pose proof (brand_data_entry b) as Hb. simpl in Hb. rewrite Hb.
    cbn [mbind result_bind].
    destruct (decide (b = selected)); [congruence|].
    rewrite IH by exact Hsel. rewrite <- app_assoc. reflexivity.
Qed.

Lemma rows_loop_selected names selected :
  selected ∉ names ->
  rows_loop g str_upper str_title format_thousands format_percent series_mean
    (selected :: names) selected f avg [] None
  = Ok (map data names, Some (data selected)).
Proof using Hg.
  intros Hsel. simpl.
  pose proof (brand_data_entry selected) as Hb. simpl in Hb. rewrite Hb.
  cbn [mbind result_bind].
  destruct (decide (selected = selected)); [|congruence].
  apply rows_loop_others. exact Hsel.
Qed.

Lemma brand_distances_elem selected sel d b dv :
  (b, dv) ∈ brand_distances selected sel d <->
  b <> selected /\ exists v, (b, v) ∈ d /\ dv = F64.abs (F64.sub v sel).
Proof.
  unfold brand_distances. change map with (@fmap list _). 
  rewrite list_elem_of_fmap. split.
  - intros ([b' v] & Heq & Hin). apply list_elem_of_filter in Hin as [Hne Hin].
    simpl in *. inversion Heq; subst. eauto.
  - intros (Hne & v & Hin & ->). exists (b, v). split; [reflexivity|].
    apply list_elem_of_filter. auto.
Qed.

Lemma brand_distances_keys selected sel d :
  dict_keys (brand_distances selected sel d) `sublist_of` dict_keys d.
Proof.
  unfold dict_keys, brand_distances. rewrite map_map. simpl.
  change (map (fun x : string * float => x.1)) with (@fmap list _ _ _ (@fst string float)).
  apply fmap_sublist, sublist_filter.
Qed.

Lemma brand_data_key b :
  initial_value g f avg b = Ok (data b).2 /\
  row_of g str_upper str_title format_thousands f avg b (data b).1.
Proof using Hg.
  destruct (brand_data_row b f avg) as (row & v0 & H & Hv & _ & Hrow).
  unfold brand_entry. rewrite H. auto.
Qed.

(** C7, amended.  With a gateway that answers every request with finite
    prices, and a brand list that contains the selected brand,
    [calculate_brand_comparison_data] returns the selected brand's row
    followed by the rows of a shortlist of at most 6 other brands of the
    list, and no brand left out of the shortlist is nearer to the selected
    brand's year-0 price than a shortlisted one.  Each row shows its
    brand's display name and the prices the gateway gives the brand in the
    request for the ages 0 to 10.  The rows after the first are in
    descending order of their initial value, the first price of that
    request rounded to 2 decimals; with a gateway that prices each record
    on its own, that is the brand's year-0 price rounded to 2 decimals. *)
Theorem brand_comparison_shortlist all_brands selected :
  selected ∈ all_brands ->
  exists shortlist order keys rows sel_price,
    calculate_brand_comparison_data g str_upper str_title format_thousands
      format_percent series_mean all_brands selected f avg = Ok rows /\
    year0_price g f selected = Ok sel_price /\
    NoDup shortlist /\ (length shortlist <= 6)%nat /\
    (forall b, b ∈ shortlist -> b ∈ all_brands /\ b <> selected) /\
    (forall c,
       c ∈ all_brands -> c <> selected -> c ∉ shortlist ->
       length shortlist = 6%nat /\
       forall b vb vc,
         b ∈ shortlist ->
         year0_price g f b = Ok vb -> year0_price g f c = Ok vc ->
         F64.ltb (F64.abs (F64.sub vc sel_price))
                 (F64.abs (F64.sub vb sel_price)) = false) /\
    order ≡ₚ shortlist /\
    Forall2 (row_of g str_upper str_title format_thousands f avg)
      (selected :: order) rows /\
    Forall2 (fun b k => initial_value g f avg b = Ok k) order keys /\
    (forall (i j : nat) kb kc,
       (i < j)%nat -> keys !! i = Some kb -> keys !! j = Some kc ->
       F64.ltb kb kc = false) /\
    (forall price,
       (forall ps, g ps = Ok (map price ps)) ->
       forall b,
         initial_value g f avg b = F64.round2 <$> year0_price g f b).
Proof using Hg.
  intros Hsel.
  destruct (initial_values_loop_spec all_brands [])
    as (d & Hd & [Hnd Hall] & Hkeys).
  { split; [constructor|]. intros b v H. apply elem_of_nil in H. contradiction. }
  assert (forall b, b ∈ dict_keys d <-> b ∈ all_brands) as Hkeys'.
  { intros b. rewrite Hkeys. unfold dict_keys. simpl. rewrite elem_of_nil.
    clear. tauto. }
  destruct (dict_get_elem selected d) as (sel & Hget & Hin);
    [apply Hkeys', Hsel|].
  destruct (Hall _ _ Hin) as [Hpsel Hfsel].
  set (diffs := brand_distances selected sel d).
  set (sorted := sorted_by snd diffs).
  set (names := map fst (take 6 sorted)).
  set (order := sort_reverse_by (fun b => (data b).2) names).
  assert (forall b dv, (b, dv) ∈ sorted <-> (b, dv) ∈ diffs) as Hsorted_in.
  { intros b dv. unfold sorted. rewrite sorted_by_perm. reflexivity. }
  assert (Forall (fun a : string * float => F64.is_nan a.2 = false) diffs)
    as Hnan.
  { apply Forall_forall. intros [b dv] Hb.
    apply brand_distances_elem in Hb as (_ & v & Hv & ->).
    destruct (Hall _ _ Hv) as [_ Hfv]. simpl.
    apply abs_not_nan, sub_not_nan; assumption. }
  assert (StronglySorted (key_le snd) sorted) as Hss
    by (apply sorted_by_sorted, Hnan).
  assert (forall b, b ∈ names -> exists dv, (b, dv) ∈ take 6 sorted) as Hnames.
  { intros b Hb. unfold names in Hb. change map with (@fmap list _) in Hb.
    apply list_elem_of_fmap in Hb as ([b' dv] & -> & Hb). eauto. }
  assert (forall b, b ∈ names -> b <> selected /\ b ∈ all_brands) as Hcand.
  { intros b Hb. destruct (Hnames b Hb) as (dv & Hdv).
    pose proof (elem_of_sublist _ _ _ Hdv (sublist_take _ _)) as Hdv'.
    clear Hdv. apply Hsorted_in, brand_distances_elem in Hdv'
      as (Hne & v & Hv & _).
    split; [exact Hne|]. apply Hkeys'. unfold dict_keys.
    change map with (@fmap list _). apply list_elem_of_fmap.
    exists (b, v). auto. }
  assert (selected ∉ names) as Hselnot.
  { intros H. apply Hcand in H as [H _]. congruence. }
  exists names, order, (map (fun b => (data b).2) order),
    (map fst (data selected :: map data order)), sel.
  split.
  { unfold calculate_brand_comparison_data. rewrite Hd.
    cbn [mbind result_bind]. rewrite Hget. cbn [mbind result_bind].
    fold diffs. fold sorted. fold names.
    rewrite (rows_loop_selected names selected Hselnot).
    cbn [mbind result_bind]. rewrite sort_reverse_by_map. reflexivity. }
  split; [exact Hpsel|].
  split.
  { unfold names. change map with (@fmap list _).
    apply (sublist_NoDup _ (fst <$> sorted));
      [|apply fmap_sublist, sublist_take].
    unfold sorted. rewrite sorted_by_perm.
    apply (sublist_NoDup _ (dict_keys d));
      [exact Hnd|apply brand_distances_keys]. }
  split.
  { unfold names. rewrite length_map, length_take. lia. }
  split.
  { intros b Hb. destruct (Hcand b Hb). auto. }
  split.
  { intros c Hc Hne Hnot.
    apply Hkeys' in Hc. unfold dict_keys in Hc.
    change map with (@fmap list _) in Hc.
    apply list_elem_of_fmap in Hc as ([c' v] & -> & Hv). simpl in *.
    assert ((c', F64.abs (F64.sub v sel)) ∈ drop 6 sorted) as Hdrop.
    { assert ((c', F64.abs (F64.sub v sel)) ∈ sorted) as Hs.
      { apply Hsorted_in, brand_distances_elem. eauto. }
      rewrite <- (take_drop 6 sorted) in Hs.
      apply elem_of_app in Hs as [Hs|Hs]; [|exact Hs].
      exfalso. apply Hnot. unfold names. change map with (@fmap list _).
      apply list_elem_of_fmap. exists (c', F64.abs (F64.sub v sel)). auto. }
    split.
    { unfold names. rewrite length_map, length_take.
      assert (length (drop 6 sorted) <> 0)%nat as Hlen.
      { destruct (drop 6 sorted); [apply elem_of_nil in Hdrop; contradiction|].
        discriminate. }
      rewrite length_drop in Hlen. lia. }
    intros b vb vc Hb Hvb Hvc.
    destruct (Hnames b Hb) as (dv & Hdv).
    rewrite <- (take_drop 6 sorted) in Hss.
    pose proof (StronglySorted_app_1_elem_of _ _ _ _ _ Hss Hdv Hdrop) as Hle.
    unfold key_le in Hle. simpl in Hle.
    pose proof (elem_of_sublist _ _ _ Hdv (sublist_take _ _)) as Hdv'.
    apply Hsorted_in, brand_distances_elem in Hdv' as (_ & vb' & Hvb' & ->).
    destruct (Hall _ _ Hvb') as [Hpb _]. destruct (Hall _ _ Hv) as [Hpc _].
    rewrite Hpb in Hvb. rewrite Hpc in Hvc. inversion Hvb; inversion Hvc; subst.
    exact Hle. }
  split; [apply sort_reverse_by_perm|].
  split.
  { cbn [map]. constructor; [apply brand_data_key|].
    generalize order. intros l. induction l as [|b l IH]; simpl; constructor;
      [apply brand_data_key|exact IH]. }
  split.
  { generalize order. intros l. induction l as [|b l IH]; simpl; constructor;
      [apply brand_data_key|exact IH]. }
  split.
  { intros i j kb kc Hij Hb Hc.
    change map with (@fmap list _) in Hb, Hc.
    rewrite list_lookup_fmap in Hb, Hc.
    destruct (order !! i) as [b|] eqn:Hbi; [|discriminate].
    destruct (order !! j) as [c|] eqn:Hcj; [|discriminate].
    simpl in Hb, Hc. inversion Hb; inversion Hc; subst.
    apply (sort_reverse_by_descending (fun b => (data b).2) names i j b c);
      try assumption.
    apply Forall_forall. intros x _. apply brand_entry_key_not_nan. }
  intros price Hprice b. unfold initial_value, year0_price.
  rewrite !Hprice. reflexivity.
Qed.
End brand_data_facts.

Lemma sample_gateway_well_behaved : well_behaved sample_gateway.
Proof.
  intros ps. eexists. split; [reflexivity|]. split; [apply length_map|].
  apply Forall_forall. intros v Hv. change map with (@fmap list _) in Hv.
  apply list_elem_of_fmap in Hv as (p & -> & _).
  repeat case_decide; reflexivity.
Qed.

Lemma brand_comparison_shortlist_witness :
  exists rows,
    calculate_brand_comparison_data sample_gateway id id (fun _ => ""%string)
      (fun _ => ""%string) (fun _ => F64.zero)
      ["audi"; "dacia"; "seat"; "volvo"]%string "seat" sample_filters 10000
    = Ok rows.
Proof.
  destruct (brand_comparison_shortlist sample_gateway id id
              (fun _ => ""%string) (fun _ => ""%string) (fun _ => F64.zero)
              sample_gateway_well_behaved sample_filters 10000
              ["audi"; "dacia"; "seat"; "volvo"]%string "seat"%string)
    as (shortlist & order & keys & rows & sel_price & H & _).
  - apply (list_elem_of_lookup_2 _ 2%nat). reflexivity.
  - exists rows. exact H.
Defined.

(** The sample gateway prices seat at 20000, volvo at 18000, audi at 30000
    and dacia at 12000: the rows come out as seat, then audi, volvo and
    dacia by descending initial value. *)
Example brand_comparison_sample :
  map r_brand <$>
    calculate_brand_comparison_data sample_gateway id id (fun _ => ""%string)
      (fun _ => ""%string) (fun _ => F64.zero)
      ["audi"; "dacia"; "seat"; "volvo"]%string "seat" sample_filters 10000
  = Ok ["seat"; "audi"; "volvo"; "dacia"]%string.
Proof. vm_compute. reflexivity. Qed.

(** C7, as the specification states it, fails: the rows are sorted by the
    initial value rounded to 2 decimals, not by the year-0 price.  With
    seat selected, audi priced at 20000.001 and volvo at 20000.002, both
    initial values are 20000.0, the sort leaves the two rows in the order
    of the shortlist (nearest first), and audi's row comes before volvo's
    although its year-0 price is the lower one. *)
Lemma brand_comparison_not_by_year0_price :
  exists pa pv ka kv,
    year0_price close_gateway sample_filters "audi" = Ok pa /\
    year0_price close_gateway sample_filters "volvo" = Ok pv /\
    F64.ltb pa pv = true /\
    initial_value close_gateway sample_filters 10000 "audi" = Ok ka /\
    initial_value close_gateway sample_filters 10000 "volvo" = Ok kv /\
    F64.eqb ka kv = true /\
    map r_brand <$>
      calculate_brand_comparison_data close_gateway id id
        (fun _ => ""%string) (fun _ => ""%string) (fun _ => F64.zero)
        ["volvo"; "seat"; "audi"]%string "seat" sample_filters 10000
    = Ok ["seat"; "audi"; "volvo"]%string.
Proof.
  eexists _, _, _, _.
  split; [vm_compute; reflexivity|]. split; [vm_compute; reflexivity|].
  split; [vm_compute; reflexivity|].
  split; [vm_compute; reflexivity|]. split; [vm_compute; reflexivity|].
  split; vm_compute; reflexivity.
Qed.

(** * Further properties of the code *)

(** ** validate_payloads *)

(** The categorical fields of a payload that are empty. *)
Lemma missing_of_elem p name :
  name ∈ missing_of p <->
  (name = "fuel_type"%string /\ p_fuel_type p = ""%string) \/
  (name = "brand"%string /\ p_brand p = ""%string) \/
  (name = "segment"%string /\ p_segment p = ""%string) \/
  (name = "body_type"%string /\ p_body_type p = ""%string).
Proof.
  unfold missing_of. rewrite !elem_of_app, <- !str_bool_false.
  destruct (str_bool (p_fuel_type p)), (str_bool (p_brand p)),
    (str_bool (p_segment p)), (str_bool (p_body_type p));
    rewrite ?list_elem_of_singleton, ?elem_of_nil; intuition congruence.
Qed.

Lemma missing_of_nil p :
  missing_of p = [] <->
  p_fuel_type p <> ""%string /\ p_brand p <> ""%string /\
  p_segment p <> ""%string /\ p_body_type p <> ""%string.
Proof.
  unfold missing_of. rewrite <- !str_bool_false.
  destruct (str_bool (p_fuel_type p)), (str_bool (p_brand p)),
    (str_bool (p_segment p)), (str_bool (p_body_type p)); simpl;
    intuition congruence.
Qed.

Lemma concat_missing_nil payloads :
  concat (map missing_of payloads) = [] <->
  Forall (fun p => missing_of p = []) payloads.
Proof.
  induction payloads as [|p ps IH]; simpl.
  - split; [constructor|reflexivity].
  - rewrite Forall_cons, <- IH. split.
    + intros H. apply app_eq_nil in H. exact H.
    + intros [-> ->]. reflexivity.
Qed.

Lemma elem_of_concat_map {A B} (f : A -> list B) (l : list A) (b : B) :
  b ∈ concat (map f l) <-> exists a, a ∈ l /\ b ∈ f a.
Proof.
  induction l as [|a l IH]; simpl.
  - rewrite elem_of_nil. split; [contradiction|].
    intros (a & Ha & _). apply elem_of_nil in Ha. contradiction.
  - rewrite elem_of_app, IH. split.
    + intros [H|(a' & Ha' & H)]; [exists a|exists a'];
        rewrite elem_of_cons; auto.
    + intros (a' & Ha' & H). apply elem_of_cons in Ha' as [->|Ha']; eauto.
Qed.

(** X1.  [validate_payloads] accepts a list of payloads exactly when the
    list is not empty and every payload has a non-empty fuel type, brand,
    segment and body type; the empty list is the only one reported as
    "no payloads generated". *)
Theorem validate_payloads_accepts payloads :
  (validate_payloads payloads = None <->
   payloads <> [] /\
   Forall (fun p => p_fuel_type p <> ""%string /\ p_brand p <> ""%string /\
                    p_segment p <> ""%string /\ p_body_type p <> ""%string)
     payloads) /\
  (validate_payloads payloads = Some NoPayloads <-> payloads = []).
Proof.
  assert (Forall (fun p => missing_of p = []) payloads <->
          Forall (fun p => p_fuel_type p <> ""%string /\
                           p_brand p <> ""%string /\
                           p_segment p <> ""%string /\
                           p_body_type p <> ""%string) payloads) as HF.
  { apply Forall_iff. intros p. apply missing_of_nil. }
  rewrite <- HF, <- concat_missing_nil.
  unfold validate_payloads. destruct payloads as [|p ps].
  - split; [split; [discriminate|intros [H _]; congruence]|].
    split; reflexivity.
  - destruct (concat (map missing_of (p :: ps))) eqn:E.
    + split; [split; [intros _; split; [discriminate|reflexivity]|reflexivity]|].
      split; discriminate.
    + split; [split; [discriminate|intros [_ H]; discriminate]|].
      split; discriminate.
Qed.

(** X2.  When [validate_payloads] reports missing fields, the reported set
    holds exactly the names of the categorical fields that are empty in at
    least one payload. *)
Theorem validate_payloads_missing_fields payloads fields :
  validate_payloads payloads = Some (MissingFields fields) ->
  forall name : string,
    name ∈ fields <->
    exists p,
      p ∈ payloads /\
      ((name = "fuel_type"%string /\ p_fuel_type p = ""%string) \/
       (name = "brand"%string /\ p_brand p = ""%string) \/
       (name = "segment"%string /\ p_segment p = ""%string) \/
       (name = "body_type"%string /\ p_body_type p = ""%string)).
Proof.
  unfold validate_payloads. intros H name.
  assert (fields = list_to_set (concat (map missing_of payloads))) as ->.
  { destruct payloads; [discriminate|].
    destruct (concat (map missing_of (p :: payloads))); [discriminate|].
    inversion H. reflexivity. }
  rewrite elem_of_list_to_set, elem_of_concat_map.
  split; intros (p & Hp & Hm); exists p; (split; [exact Hp|]);
    apply missing_of_elem, Hm.
Qed.

Lemma validate_payloads_missing_fields_witness :
  "brand"%string ∈ ({["brand"%string]} : gset string) <->
  exists p,
    p ∈ [Payload 0 "gasolina" 0 "" "compacto" "berlina"] /\
    (("brand"%string = "fuel_type"%string /\ p_fuel_type p = ""%string) \/
     ("brand"%string = "brand"%string /\ p_brand p = ""%string) \/
     ("brand"%string = "segment"%string /\ p_segment p = ""%string) \/
     ("brand"%string = "body_type"%string /\ p_body_type p = ""%string)).
Proof.
  apply (validate_payloads_missing_fields
           [Payload 0 "gasolina" 0 "" "compacto" "berlina"]).
  reflexivity.
Defined.

(** ** build_prediction_payloads with the validators *)

Lemma concat_map_const {A B} (f : A -> list B) (l : list A) (c : list B) :
  (forall a, a ∈ l -> f a = c) -> l <> [] ->
  forall b, b ∈ concat (map f l) <-> b ∈ c.
Proof.
  intros Hf Hl b. rewrite elem_of_concat_map. split.
  - intros (a & Ha & Hb). rewrite <- (Hf a Ha). exact Hb.
  - intros Hb. destruct l as [|a l]; [congruence|].
    exists a. split; [left|]. rewrite Hf; [exact Hb|left].
Qed.

(** Payloads built for at least one year from non-empty categorical
    arguments pass the validation. *)
Lemma built_payloads_pass
    years fuel_type brand segment body_type avg_km_per_year explicit_kms
    payloads :
  years <> [] ->
  fuel_type <> ""%string -> brand <> ""%string ->
  segment <> ""%string -> body_type <> ""%string ->
  build_prediction_payloads years fuel_type brand segment body_type
    avg_km_per_year explicit_kms = Ok payloads ->
  validate_payloads payloads = None.
Proof.
  intros Hy H1 H2 H3 H4 H. unfold build_prediction_payloads in H.
  injection H as Hp.
  assert (concat (map missing_of payloads) = []) as Hnone.
  { apply concat_missing_nil, Forall_forall. intros p Hin.
    rewrite <- Hp in Hin.
    apply list_elem_of_lookup_1 in Hin as [i Hi].
    rewrite list_lookup_imap in Hi.
    destruct (years !! i); inversion Hi. apply missing_of_nil. simpl. auto. }
  destruct payloads as [|p ps].
  - destruct years; [congruence|discriminate].
  - unfold validate_payloads. cbv zeta. rewrite Hnone. reflexivity.
Qed.

(** X3.  What [validate_payloads] says of the payloads
    [build_prediction_payloads] has built depends only on the arguments
    of the builder: no years give "no payloads generated"; otherwise the
    payloads pass when the four categorical arguments are non-empty, and
    the empty ones are reported as missing. *)
Theorem built_payloads_validation
    years fuel_type brand segment body_type avg_km_per_year explicit_kms
    payloads :
  build_prediction_payloads years fuel_type brand segment body_type
    avg_km_per_year explicit_kms = Ok payloads ->
  validate_payloads payloads
  = match years with
    | [] => Some NoPayloads
    | _ =>
        match missing_of (Payload 0 fuel_type 0 brand segment body_type) with
        | [] => None
        | missing => Some (MissingFields (list_to_set missing))
        end
    end.
Proof.
  unfold build_prediction_payloads. intros H. inversion H as [Hp]. clear H.
  set (mk := fun (i : nat) (y : Z) => Payload _ _ _ _ _ _) in *.
  destruct years as [|y0 years]; [reflexivity|].
  set (ps := imap mk (y0 :: years)) in *.
  assert (ps <> []) as Hne by discriminate.
  assert (forall p, p ∈ ps ->
            missing_of p = missing_of (Payload 0 fuel_type 0 brand segment
                                         body_type)) as Hconst.
  { intros p Hin. unfold ps in Hin.
    apply list_elem_of_lookup_1 in Hin as [i Hi].
    rewrite list_lookup_imap in Hi.
    destruct ((y0 :: years) !! i); inversion Hi. reflexivity. }
  pose proof (concat_map_const missing_of ps _ Hconst Hne) as Hset.
  unfold validate_payloads.
  destruct ps as [|p ps']; [congruence|].
  set (c := concat (map missing_of (p :: ps'))) in *.
  set (m := missing_of (Payload 0 fuel_type 0 brand segment body_type)) in *.
  destruct c as [|x c], m as [|z m]; try reflexivity.
  - exfalso. apply (elem_of_nil z), Hset. left.
  - exfalso. apply (elem_of_nil x), Hset. left.
  - f_equal. f_equal. apply set_eq. intros b.
    rewrite !elem_of_list_to_set. apply Hset.
Qed.


Lemma built_payloads_validation_witness :
  validate_payloads
    [Payload 7 "gasolina" 0 "" "compacto" "berlina";
     Payload 8 "gasolina" 1 "" "compacto" "berlina"]
  = Some (MissingFields (list_to_set ["brand"%string])).
Proof.
  apply (built_payloads_validation [0; 1] "gasolina" "" "compacto" "berlina"
           10000 (Some [7; 8])).
  reflexivity.
Defined.

(** With one explicit mileage per year the payloads carry the years and
    the mileages. *)
Lemma build_prediction_payloads_explicit
    years fuel_type brand segment body_type avg_km_per_year explicit_kms :
  length explicit_kms = length years ->
  exists payloads,
    build_prediction_payloads years fuel_type brand segment body_type
      avg_km_per_year (Some explicit_kms) = Ok payloads /\
    map p_age payloads = years /\ map p_km payloads = explicit_kms.
Proof.
  intros Hlen. eexists. split; [reflexivity|]. split.
  - apply list_eq. intros i. rewrite list_lookup_fmap, list_lookup_imap.
    destruct (years !! i); reflexivity.
  - apply list_eq. intros i. rewrite list_lookup_fmap, list_lookup_imap.
    destruct (years !! i) as [y|] eqn:Ey; simpl.
    + destruct (lookup_lt_is_Some_2 explicit_kms i) as [k Hk].
      { rewrite Hlen. eapply lookup_lt_Some, Ey. }
      rewrite Hk. reflexivity.
    + symmetry. apply lookup_ge_None. rewrite Hlen.
      apply lookup_ge_None, Ey.
Qed.

(** X4.  When there is one explicit mileage per year, the payloads carry
    the years as their ages and the explicit mileages as their mileages, in
    order; without explicit mileages the mileage of each payload is its
    year times the average. *)
Theorem build_prediction_payloads_columns
    years fuel_type brand segment body_type avg_km_per_year :
  (forall explicit_kms,
     length explicit_kms = length years ->
     exists payloads,
       build_prediction_payloads years fuel_type brand segment body_type
         avg_km_per_year (Some explicit_kms) = Ok payloads /\
       map p_age payloads = years /\ map p_km payloads = explicit_kms) /\
  (exists payloads,
     build_prediction_payloads years fuel_type brand segment body_type
       avg_km_per_year None = Ok payloads /\
     map p_age payloads = years /\
     map p_km payloads = map (fun y => y * avg_km_per_year) years).
Proof.
  split.
  - intros kms Hlen. apply build_prediction_payloads_explicit, Hlen.
  - eexists. split; [reflexivity|]. split.
    + apply list_eq. intros i. rewrite list_lookup_fmap, list_lookup_imap.
      destruct (years !! i); reflexivity.
    + apply list_eq. intros i.
      rewrite !list_lookup_fmap, list_lookup_imap.
      destruct (years !! i); reflexivity.
Qed.

(** ** The handler of the Predict button *)

Lemma calculate_years_and_kms_shape cur_age cur_km e years kms avg :
  calculate_years_and_kms cur_age cur_km e = Ok (years, kms, avg) ->
  years <> [] /\ length kms = length years.
Proof.
  intros H. apply calculate_years_and_kms_ok in H as (_ & -> & Hk).
  split; [destruct (cur_age <? 10); discriminate|].
  symmetry. eapply Forall2_length, Hk.
Qed.

Lemma validate_selections_none f :
  validate_selections f = None ->
  f_fuel_type f <> ""%string /\ f_brand f <> ""%string /\
  f_segment f <> ""%string /\ f_body_type f <> ""%string.
Proof.
  unfold validate_selections. rewrite <- !str_bool_false.
  destruct (str_bool (f_fuel_type f)), (str_bool (f_brand f)),
    (str_bool (f_segment f)), (str_bool (f_body_type f));
    simpl; try discriminate; intuition congruence.
Qed.

(** X5.  Once the selection is valid the handler has four outcomes:
    the mileage computation raises and the exception is shown; or the
    gateway is called once, with one payload per year, and then either
    the gateway's exception is shown, or a [ValueError] because the number
    of predictions is not the number of years, or the results are
    presented for the frame of years, explicit mileages and predictions.
    The payload and prediction validators never report an error. *)
Theorem predict_clicked_outcomes
    (cached_predict : list payload -> result (list float))
    (present_results : filters -> frame -> Z -> list Z -> list event) f :
  validate_selections f = None ->
  (exists e,
     calculate_years_and_kms (f_age f) (f_km f) (f_expected_annual_km f)
     = Raise e /\
     predict_clicked cached_predict present_results f = [ShowException e]) \/
  (exists years explicit_kms avg_per_year payloads,
     calculate_years_and_kms (f_age f) (f_km f) (f_expected_annual_km f)
     = Ok (years, explicit_kms, avg_per_year) /\
     build_prediction_payloads years (f_fuel_type f) (f_brand f)
       (f_segment f) (f_body_type f) avg_per_year (Some explicit_kms)
     = Ok payloads /\
     map p_age payloads = years /\ map p_km payloads = explicit_kms /\
     ((exists e,
         cached_predict payloads = Raise e /\
         predict_clicked cached_predict present_results f
         = [GatewayCall payloads; ShowException e]) \/
      (exists preds,
         cached_predict payloads = Ok preds /\
         length preds <> length years /\
         predict_clicked cached_predict present_results f
         = [GatewayCall payloads; ShowException ValueError]) \/
      (exists preds,
         cached_predict payloads = Ok preds /\
         length preds = length years /\
         predict_clicked cached_predict present_results f
         = GatewayCall payloads ::
           present_results f (Frame years explicit_kms preds ∅)
             avg_per_year explicit_kms))).
Proof.
  intros Hsel. unfold predict_clicked. rewrite Hsel.
  destruct (calculate_years_and_kms (f_age f) (f_km f)
              (f_expected_annual_km f)) as [[[years kms] avg]|e] eqn:Hcalc;
    [|left; exists e; split; reflexivity].
  right. destruct (calculate_years_and_kms_shape _ _ _ _ _ _ Hcalc)
    as [Hne Hlen].
  destruct (build_prediction_payloads_explicit years (f_fuel_type f)
              (f_brand f) (f_segment f) (f_body_type f) avg kms Hlen)
    as (ps & Hps & Hage & Hkm).
  exists years, kms, avg, ps. split; [reflexivity|].
  split; [exact Hps|]. split; [exact Hage|]. split; [exact Hkm|].
  assert (Hps' := Hps). unfold build_prediction_payloads in Hps'.
  inversion Hps' as [Hps'']. clear Hps'. simpl. rewrite Hps''.
  destruct (validate_selections_none f Hsel) as (H1 & H2 & H3 & H4).
  rewrite (built_payloads_pass _ _ _ _ _ _ _ _ Hne H1 H2 H3 H4 Hps).
  destruct (cached_predict ps) as [preds|e] eqn:Hg; simpl;
    [|left; exists e; split; reflexivity].
  right. rewrite Hkm. unfold new_frame. rewrite Hlen, Nat.eqb_refl. simpl.
  destruct (Nat.eqb_spec (length years) (length preds)) as [E|E]; simpl.
  - right. exists preds. split; [reflexivity|]. split; [congruence|].
    f_equal. unfold validate_predictions. simpl.
    destruct preds as [|v preds]; [destruct years; [congruence|discriminate]|].
    destruct years; [congruence|reflexivity].
  - left. exists preds. split; [reflexivity|]. split; [congruence|reflexivity].
Qed.

Lemma predict_clicked_outcomes_witness :
  (exists e,
     calculate_years_and_kms (f_age sample_filters) (f_km sample_filters)
       (f_expected_annual_km sample_filters) = Raise e /\
     predict_clicked sample_gateway (fun _ _ _ _ => []) sample_filters
     = [ShowException e]) \/
  (exists years explicit_kms avg_per_year payloads,
     calculate_years_and_kms (f_age sample_filters) (f_km sample_filters)
       (f_expected_annual_km sample_filters)
     = Ok (years, explicit_kms, avg_per_year) /\
     build_prediction_payloads years (f_fuel_type sample_filters)
       (f_brand sample_filters) (f_segment sample_filters)
       (f_body_type sample_filters) avg_per_year (Some explicit_kms)
     = Ok payloads /\
     map p_age payloads = years /\ map p_km payloads = explicit_kms /\
     ((exists e,
         sample_gateway payloads = Raise e /\
         predict_clicked sample_gateway (fun _ _ _ _ => []) sample_filters
         = [GatewayCall payloads; ShowException e]) \/
      (exists preds,
         sample_gateway payloads = Ok preds /\
         length preds <> length years /\
         predict_clicked sample_gateway (fun _ _ _ _ => []) sample_filters
         = [GatewayCall payloads; ShowException ValueError]) \/
      (exists preds,
         sample_gateway payloads = Ok preds /\
         length preds = length years /\
         predict_clicked sample_gateway (fun _ _ _ _ => []) sample_filters
         = GatewayCall payloads ::
           (fun _ _ _ _ => []) sample_filters
             (Frame years explicit_kms preds ∅) avg_per_year explicit_kms))).
Proof.
  apply (predict_clicked_outcomes sample_gateway (fun _ _ _ _ => [])
           sample_filters).
  reflexivity.
Defined.

(** ** More on calculate_years_and_kms *)

(** The mileage the loop appends for the current age is the current
    mileage. *)
Lemma km_for_current_age cur_age cur_km e avg :
  0 < cur_age < 2 ^ 47 -> 0 <= cur_km -> cur_km * cur_age < 2 ^ 47 ->
  km_for_year cur_age cur_km e avg cur_age = Ok cur_km.
Proof.
  intros Hage Hkm Hprod. unfold km_for_year.
  rewrite Z.leb_refl. destruct (Z.ltb_spec 0 cur_age); [|lia].
  destruct (past_km_exact cur_km cur_age cur_age Hkm Hage ltac:(lia)
              ltac:(auto) Hprod) as (q & fy & -> & Hfy & Hr).
  simpl. rewrite Hfy. simpl. rewrite Hr.
  rewrite (Z.mul_comm cur_age cur_km), round_half_even_exact by lia.
  reflexivity.
Qed.

(** X6.  The current age occurs exactly once on the age axis, and the
    mileage at that age is the current mileage: the trajectory passes
    through the vehicle's present state. *)
Theorem trajectory_through_present cur_age cur_km e years kms avg :
  0 < cur_age < 2 ^ 47 -> 0 <= cur_km -> cur_km * cur_age < 2 ^ 47 ->
  calculate_years_and_kms cur_age cur_km e = Ok (years, kms, avg) ->
  exists i : nat,
    years !! i = Some cur_age /\ kms !! i = Some cur_km /\
    forall j : nat, years !! j = Some cur_age -> j = i.
Proof.
  intros Hage Hkm Hprod H.
  apply calculate_years_and_kms_ok in H as (_ & Hyears & Hk).
  assert (exists i : nat,
            years !! i = Some cur_age /\
            forall j : nat, years !! j = Some cur_age -> j = i)
    as (i & Hi & Huniq).
  { rewrite Hyears. destruct (Z.ltb_spec cur_age 10).
    - exists (Z.to_nat cur_age). split.
      + assert (cur_age = 1 \/ cur_age = 2 \/ cur_age = 3 \/ cur_age = 4 \/
                cur_age = 5 \/ cur_age = 6 \/ cur_age = 7 \/ cur_age = 8 \/
                cur_age = 9) as Hc by lia.
        repeat (destruct Hc as [->|Hc]; [reflexivity|]). rewrite Hc. reflexivity.
      + intros j Hj.
        do 11 (destruct j as [|j]; [inversion Hj; subst; reflexivity|]).
        discriminate.
    - exists 0%nat. split; [reflexivity|]. intros j Hj.
      do 4 (destruct j as [|j]; [inversion Hj; try reflexivity; lia|]).
      discriminate. }
  exists i. split; [exact Hi|]. split; [|exact Huniq].
  destruct (Forall2_lookup_l _ _ _ _ _ Hk Hi) as (k & Hki & Hbody).
  rewrite km_for_current_age in Hbody by assumption. congruence.
Qed.

Lemma trajectory_through_present_witness :
  exists i : nat,
    [0; 1; 2; 3; 4; 5; 6; 7; 8; 9; 10] !! i = Some 3 /\
    [0; 6667; 13333; 20000; 29000; 38000; 47000; 56000; 65000; 74000; 83000]
      !! i = Some 20000 /\
    forall j : nat, [0; 1; 2; 3; 4; 5; 6; 7; 8; 9; 10] !! j = Some 3 -> j = i.
Proof.
  apply (trajectory_through_present 3 20000 (Some 9000) _ _ 6666).
  - split; [lia|reflexivity].
  - lia.
  - reflexivity.
  - vm_compute. reflexivity.
Defined.

(** X7.  For a new vehicle (age 0) the call always returns the ages 0 to
    10; the mileage at age 0 is 0 whatever the current mileage, and the
    mileage at a later age [y] is [cur_km + y * expected_annual_km] with
    the override and [y * cur_km] without it, the average being the
    current mileage itself. *)
Theorem new_vehicle_trajectory cur_km e :
  calculate_years_and_kms 0 cur_km e
  = Ok ([0; 1; 2; 3; 4; 5; 6; 7; 8; 9; 10],
        0 :: map (fun y => match e with
                           | Some expected_annual_km =>
                               cur_km + y * expected_annual_km
                           | None => y * cur_km
                           end) [1; 2; 3; 4; 5; 6; 7; 8; 9; 10],
        cur_km).
Proof.
  unfold calculate_years_and_kms. simpl. unfold km_for_year, round_int.
  simpl. destruct e; simpl; repeat f_equal; lia.
Qed.

(** Rounding to the nearest integer is monotone in the numerator. *)
Lemma round_half_even_mono N N' D :
  0 < D -> N <= N' -> F64.round_half_even N D <= F64.round_half_even N' D.
Proof.
  intros HD HN. destruct (Z.eq_dec N N') as [->|Hne]; [lia|].
  pose proof (round_half_even_error N D HD) as E.
  pose proof (round_half_even_error N' D HD) as E'.
  set (r := F64.round_half_even N D) in *.
  set (r' := F64.round_half_even N' D) in *.
  destruct (Z_le_gt_dec r r') as [|Hgt]; [assumption|exfalso].
  assert (r' * D + D <= r * D) by nia. lia.
Qed.

(** The mileage at each age of the axis, as a function of the age. *)
Lemma km_for_year_value cur_age cur_km e y k :
  0 < cur_age < 2 ^ 47 -> 0 <= cur_km -> cur_km * cur_age < 2 ^ 47 ->
  0 <= y -> (y <= cur_age -> cur_age < 10 \/ y = cur_age) ->
  km_for_year cur_age cur_km e (cur_km / cur_age) y = Ok k ->
  k = if y <=? cur_age then F64.round_half_even (y * cur_km) cur_age
      else match e with
           | Some expected_annual_km =>
               cur_km + (y - cur_age) * expected_annual_km
           | None => y * (cur_km / cur_age)
           end.
Proof.
  intros Hage Hkm Hprod Hy Hdom. unfold km_for_year.
  destruct (Z.leb_spec y cur_age).
  - destruct (Z.ltb_spec 0 cur_age); [|lia].
    destruct (past_km_exact cur_km cur_age y Hkm Hage ltac:(lia)
                ltac:(auto) Hprod) as (q & fy & -> & Hfy & Hr).
    simpl. rewrite Hfy. simpl. rewrite Hr. congruence.
  - destruct e; unfold round_int; congruence.
Qed.

(** X8.  Along a trajectory the mileage never decreases with age when an
    override of at least 0 km a year is given, or, without an override,
    when the remainder of [cur_km / cur_age] does not exceed the quotient
    (as it does not once [cur_km >= cur_age^2]). *)
Theorem mileage_never_decreases cur_age cur_km e years kms avg :
  0 < cur_age < 2 ^ 47 -> 0 <= cur_km -> cur_km * cur_age < 2 ^ 47 ->
  match e with
  | Some expected_annual_km => 0 <= expected_annual_km
  | None => cur_km mod cur_age <= cur_km / cur_age
  end ->
  calculate_years_and_kms cur_age cur_km e = Ok (years, kms, avg) ->
  forall (i j : nat) ki kj,
    (i <= j)%nat -> kms !! i = Some ki -> kms !! j = Some kj -> ki <= kj.
Proof.
  intros Hage Hkm Hprod He H i j ki kj Hij Hi Hj.
  assert (cur_km < 2 ^ 47) as Hkm47 by nia.
  destruct (calculate_years_and_kms_returns cur_age cur_km e
              ltac:(lia) ltac:(lia)) as (years' & kms' & H').
  rewrite H in H'. inversion H' as [[Hy' Hk' Havg]]. clear H' Hy' Hk'.
  destruct (Z.ltb_spec 0 cur_age); [|lia]. subst avg.
  apply calculate_years_and_kms_ok in H as (_ & Hyears & Hk).
  destruct (Forall2_lookup_r _ _ _ _ _ Hk Hi) as (yi & Hyi & Hbi).
  destruct (Forall2_lookup_r _ _ _ _ _ Hk Hj) as (yj & Hyj & Hbj).
  assert (yi <= yj) as Hyij.
  { rewrite Hyears in Hyi, Hyj. clear - Hij Hyi Hyj.
    destruct (cur_age <? 10).
    - assert (yi = Z.of_nat i).
      { do 11 (destruct i as [|i]; [inversion Hyi; reflexivity|]). discriminate. }
      assert (yj = Z.of_nat j).
      { do 11 (destruct j as [|j]; [inversion Hyj; reflexivity|]). discriminate. }
      lia.
    - assert (yi = cur_age + Z.of_nat i).
      { do 4 (destruct i as [|i]; [inversion Hyi; lia|]). discriminate. }
      assert (yj = cur_age + Z.of_nat j).
      { do 4 (destruct j as [|j]; [inversion Hyj; lia|]). discriminate. }
      lia. }
  rewrite Hyears in Hyi, Hyj.
  apply years_axis_elem in Hyi as [Hyi0 Hdi]; [|lia].
  apply years_axis_elem in Hyj as [Hyj0 Hdj]; [|lia].
  apply km_for_year_value in Hbi; try assumption.
  apply km_for_year_value in Hbj; try assumption.
  subst ki kj.
  pose proof (Z.div_mod cur_km cur_age ltac:(lia)) as Edm.
  pose proof (Z.mod_pos_bound cur_km cur_age ltac:(lia)) as Hr.
  assert (0 <= cur_km / cur_age) as Hq by (apply Z.div_pos; lia).
  assert (forall y, 0 <= y <= cur_age ->
            F64.round_half_even (y * cur_km) cur_age <= cur_km) as Hpast.
  { intros y Hy.
    rewrite <- (round_half_even_exact cur_km cur_age) at 2 by lia.
    apply round_half_even_mono; [lia|]. nia. }
  destruct (Z.leb_spec yi cur_age), (Z.leb_spec yj cur_age); try lia.
  - apply round_half_even_mono; [lia|]. nia.
  - eapply Z.le_trans; [apply Hpast; lia|].
    destruct e as [ev|]; nia.
  - destruct e as [ev|]; nia.
Qed.

Lemma mileage_never_decreases_witness :
  calculate_years_and_kms 3 20000 (Some 9000)
  = Ok ([0; 1; 2; 3; 4; 5; 6; 7; 8; 9; 10],
        [0; 6667; 13333; 20000; 29000; 38000; 47000; 56000; 65000; 74000;
         83000], 6666) /\
  6667 <= 29000.
Proof.
  split; [vm_compute; reflexivity|].
  apply (mileage_never_decreases 3 20000 (Some 9000)
           [0; 1; 2; 3; 4; 5; 6; 7; 8; 9; 10]
           [0; 6667; 13333; 20000; 29000; 38000; 47000; 56000; 65000;
            74000; 83000] 6666 ltac:(split; [lia|reflexivity]) ltac:(lia)
           ltac:(reflexivity) ltac:(simpl; lia) ltac:(vm_compute; reflexivity)
           1%nat 4%nat); [lia|reflexivity|reflexivity].
Defined.

(** ** More on calculate_depreciation_metrics *)

Lemma length_shift1 xs : length (shift1 xs) = length xs.
Proof.
  destruct xs as [|x xs]; [reflexivity|].
  unfold shift1. cbn [length]. f_equal.
  revert x. induction xs as [|y xs IH]; intros x; [reflexivity|].
  change (removelast (x :: y :: xs)) with (x :: removelast (y :: xs)).
  cbn [length]. f_equal. apply IH.
Qed.

Lemma length_depreciation_of pred :
  length (depreciation_of pred) = length pred.
Proof.
  unfold depreciation_of, fillna0, series_sub.
  rewrite length_map, length_zip_with, length_shift1. lia.
Qed.

Lemma length_depreciation_pct_of pred :
  length (depreciation_pct_of pred) = length pred.
Proof.
  unfold depreciation_pct_of, series_mul_scalar, fillna0 at 1, series_div,
    replace_zero_na.
  rewrite !length_map, length_zip_with, length_map, length_depreciation_of,
    length_shift1. lia.
Qed.

Lemma length_accum_depreciation_of pred :
  length (accum_depreciation_of pred) = length pred.
Proof.
  unfold accum_depreciation_of, series_mul_scalar, series_div_scalar,
    scalar_sub_series.
  destruct (_ && _); rewrite !length_map; reflexivity.
Qed.

(** X9.  The frame [calculate_depreciation_metrics] returns has one cell
    per input row in the prediction column and in each of the three
    depreciation columns; an empty frame gives empty columns, without an
    error. *)
Theorem depreciation_metrics_row_count (h : store) (df : loc) fr :
  h !! df = Some fr ->
  exists out h' fr' dep pct acc,
    calculate_depreciation_metrics df h = Some (out, h') /\
    h' !! out = Some fr' /\
    extra fr' !! "depreciation"%string = Some dep /\
    extra fr' !! "depreciation_pct"%string = Some pct /\
    extra fr' !! "accum_depreciation"%string = Some acc /\
    length (prediction fr') = length (prediction fr) /\
    length dep = length (prediction fr) /\
    length pct = length (prediction fr) /\
    length acc = length (prediction fr).
Proof.
  intros Hdf.
  destruct (calculate_depreciation_metrics_result h df fr Hdf)
    as (fr' & Hcalc & _ & _ & Hp & Hdep & Hpct & Hacc & _).
  exists (fresh (dom h)), (<[fresh (dom h) := fr']> h), fr'.
  eexists _, _, _. split; [exact Hcalc|].
  split; [apply store_lookup_insert|].
  split; [exact Hdep|]. split; [exact Hpct|]. split; [exact Hacc|].
  rewrite Hp. unfold series_round2. rewrite !length_map.
  rewrite length_depreciation_of, length_depreciation_pct_of,
    length_accum_depreciation_of. auto.
Qed.

Lemma depreciation_metrics_row_count_witness :
  exists out h' fr' dep pct acc,
    calculate_depreciation_metrics 0%nat scenario_c = Some (out, h') /\
    h' !! out = Some fr' /\
    extra fr' !! "depreciation"%string = Some dep /\
    extra fr' !! "depreciation_pct"%string = Some pct /\
    extra fr' !! "accum_depreciation"%string = Some acc /\
    length (prediction fr') = 3%nat /\
    length dep = 3%nat /\ length pct = 3%nat /\ length acc = 3%nat.
Proof.
  apply (depreciation_metrics_row_count scenario_c 0%nat
           (Frame [0; 1; 2] [0; 10000; 20000]
              [F64.of_int 20000; F64.of_int 18000; F64.of_int 15000] ∅)).
  reflexivity.
Defined.

Lemma sub_nan_r x : F64.sub x F64.nan = F64.nan.
Proof. destruct x as [[]|[]| |[] m e]; reflexivity. Qed.

Lemma sub_nan_l x : F64.sub F64.nan x = F64.nan.
Proof. destruct x as [[]|[]| |[] m e]; reflexivity. Qed.

Lemma is_nan_eq x : F64.is_nan x = true -> x = F64.nan.
Proof. destruct x; try discriminate; reflexivity. Qed.

(** X10.  A missing (NaN) price is not reported as missing depreciation:
    the yearly depreciation is 0 in the row of the missing price and in
    the row after it. *)
Theorem missing_price_gives_zero_depreciation
    (h : store) (df : loc) fr (i : nat) v :
  h !! df = Some fr ->
  prediction fr !! i = Some v -> F64.is_nan v = true ->
  exists out h' fr' dep,
    calculate_depreciation_metrics df h = Some (out, h') /\
    h' !! out = Some fr' /\
    extra fr' !! "depreciation"%string = Some dep /\
    dep !! i = Some F64.zero /\
    (forall w, prediction fr !! S i = Some w -> dep !! S i = Some F64.zero).
Proof.
  intros Hdf Hv Hnan. apply is_nan_eq in Hnan. subst v.
  destruct (calculate_depreciation_metrics_result h df fr Hdf)
    as (fr' & Hcalc & _ & _ & _ & Hdep & _).
  exists (fresh (dom h)), (<[fresh (dom h) := fr']> h), fr'.
  eexists. split; [exact Hcalc|]. split; [apply store_lookup_insert|].
  split; [exact Hdep|]. unfold series_round2. rewrite !list_lookup_fmap.
  split.
  - destruct i as [|i].
    + destruct (prediction fr) as [|a l]; [discriminate|].
      rewrite depreciation_of_0. reflexivity.
    + destruct (lookup_lt_is_Some_2 (prediction fr) i) as [p Hp].
      { apply lookup_lt_Some in Hv. lia. }
      rewrite (depreciation_of_S _ i p F64.nan Hp Hv), sub_nan_r.
      reflexivity.
  - intros w Hw.
    rewrite (depreciation_of_S _ i F64.nan w Hv Hw), sub_nan_l. reflexivity.
Qed.

Lemma missing_price_gives_zero_depreciation_witness :
  exists out h' fr' dep,
    calculate_depreciation_metrics 0%nat
      {[ 0%nat := Frame [0; 1; 2] [0; 10000; 20000]
                    [F64.of_int 20000; F64.nan; F64.of_int 15000] ∅ ]}
    = Some (out, h') /\
    h' !! out = Some fr' /\
    extra fr' !! "depreciation"%string = Some dep /\
    dep !! 1%nat = Some F64.zero /\
    (forall w,
       [F64.of_int 20000; F64.nan; F64.of_int 15000] !! 2%nat = Some w ->
       dep !! 2%nat = Some F64.zero).
Proof.
  apply (missing_price_gives_zero_depreciation
           {[ 0%nat := Frame [0; 1; 2] [0; 10000; 20000]
                         [F64.of_int 20000; F64.nan; F64.of_int 15000] ∅ ]}
           0%nat
           (Frame [0; 1; 2] [0; 10000; 20000]
              [F64.of_int 20000; F64.nan; F64.of_int 15000] ∅)
           1%nat F64.nan); reflexivity.
Defined.

(** X11.  When the first price is missing (NaN), the accumulated
    depreciation is NaN in every row: the guard on the base value lets a
    NaN through. *)
Theorem missing_first_price_accumulates_nan
    (h : store) (df : loc) fr v0 :
  h !! df = Some fr ->
  prediction fr !! 0%nat = Some v0 -> F64.is_nan v0 = true ->
  exists out h' fr' acc,
    calculate_depreciation_metrics df h = Some (out, h') /\
    h' !! out = Some fr' /\
    extra fr' !! "accum_depreciation"%string = Some acc /\
    length acc = length (prediction fr) /\
    Forall (fun a => F64.is_nan a = true) acc.
Proof.
  intros Hdf H0 Hnan. apply is_nan_eq in Hnan. subst v0.
  destruct (calculate_depreciation_metrics_result h df fr Hdf)
    as (fr' & Hcalc & _ & _ & _ & _ & _ & Hacc & _).
  exists (fresh (dom h)), (<[fresh (dom h) := fr']> h), fr'.
  eexists. split; [exact Hcalc|]. split; [apply store_lookup_insert|].
  split; [exact Hacc|]. unfold series_round2.
  split; [rewrite length_map; apply length_accum_depreciation_of|].
  apply Forall_lookup. intros i a Ha.
  rewrite list_lookup_fmap in Ha.
  destruct (lookup_lt_is_Some_2 (prediction fr) i) as [v Hv].
  { rewrite <- (length_accum_depreciation_of (prediction fr)).
    destruct (accum_depreciation_of (prediction fr) !! i) eqn:E;
      [eapply lookup_lt_Some, E|discriminate]. }
  rewrite (accum_depreciation_of_lookup _ i F64.nan v H0 Hv) in Ha.
  inversion Ha. destruct v as [[]|[]| |[] m e]; reflexivity.
Qed.

Lemma missing_first_price_accumulates_nan_witness :
  exists out h' fr' acc,
    calculate_depreciation_metrics 0%nat
      {[ 0%nat := Frame [0; 1] [0; 10000] [F64.nan; F64.of_int 15000] ∅ ]}
    = Some (out, h') /\
    h' !! out = Some fr' /\
    extra fr' !! "accum_depreciation"%string = Some acc /\
    length acc = 2%nat /\
    Forall (fun a => F64.is_nan a = true) acc.
Proof.
  apply (missing_first_price_accumulates_nan
           {[ 0%nat := Frame [0; 1] [0; 10000]
                         [F64.nan; F64.of_int 15000] ∅ ]}
           0%nat (Frame [0; 1] [0; 10000] [F64.nan; F64.of_int 15000] ∅)
           F64.nan); reflexivity.
Defined.

(** ** Dicts, continued *)

Lemma dict_get_missing {V} k (d : list (string * V)) :
  k ∉ dict_keys d -> dict_get k d = Raise KeyError.
Proof.
  unfold dict_keys. induction d as [|[k' v'] d IH]; simpl; intros H.
  - reflexivity.
  - rewrite not_elem_of_cons in H. destruct H as [Hne H].
    destruct (decide (k' = k)); [congruence|]. apply IH, H.
Qed.

Lemma dict_get_set_eq {V} k (v : V) d : dict_get k (dict_set k v d) = Ok v.
Proof.
  induction d as [|[k' v'] d IH]; simpl.
  - destruct (decide (k = k)); [reflexivity|congruence].
  - destruct (decide (k' = k)) as [->|Hne]; simpl.
    + destruct (decide (k = k)); [reflexivity|congruence].
    + destruct (decide (k' = k)); [congruence|]. exact IH.
Qed.

Lemma dict_get_set_ne {V} k k' (v : V) d :
  k <> k' -> dict_get k (dict_set k' v d) = dict_get k d.
Proof.
  intros Hne. induction d as [|[k'' v''] d IH]; simpl.
  - destruct (decide (k' = k)); [congruence|reflexivity].
  - destruct (decide (k'' = k')) as [->|Hne']; simpl.
    + destruct (decide (k' = k)); [congruence|reflexivity].
    + destruct (decide (k'' = k)); [reflexivity|]. exact IH.
Qed.

Lemma dict_of_pairs_snoc {V} (pairs : list (string * V)) k v :
  dict_of_pairs (pairs ++ [(k, v)]) = dict_set k v (dict_of_pairs pairs).
Proof. unfold dict_of_pairs. rewrite foldl_app. reflexivity. Qed.

Lemma dict_of_pairs_keys {V} (pairs : list (string * V)) k :
  k ∈ dict_keys (dict_of_pairs pairs) <-> k ∈ map fst pairs.
Proof.
  induction pairs as [|[k' v'] pairs IH] using rev_ind.
  - reflexivity.
  - rewrite dict_of_pairs_snoc, dict_keys_set, IH, map_app, elem_of_app.
    simpl. rewrite list_elem_of_singleton. tauto.
Qed.

(** The value of a key is the one of its last pair. *)
Lemma dict_of_pairs_last {V} (l1 l2 : list (string * V)) k v :
  k ∉ map fst l2 -> dict_get k (dict_of_pairs (l1 ++ (k, v) :: l2)) = Ok v.
Proof.
  induction l2 as [|[k' v'] l2 IH] using rev_ind; intros Hk.
  - rewrite dict_of_pairs_snoc. apply dict_get_set_eq.
  - rewrite map_app, not_elem_of_app in Hk. destruct Hk as [Hk Hk'].
    simpl in Hk'. rewrite not_elem_of_cons in Hk'. destruct Hk' as [Hne _].
    change (l1 ++ (k, v) :: l2 ++ [(k', v')])
      with (l1 ++ ((k, v) :: l2) ++ [(k', v')]).
    rewrite app_assoc, dict_of_pairs_snoc, dict_get_set_ne by exact Hne.
    apply IH, Hk.
Qed.

(** ** calculate_brand_comparison_data: a brand that is not an option *)

(** X12.  With a gateway that answers every request, asking for the
    comparison of a brand that is not in the list of brands raises
    [KeyError]: the selected brand's initial value is looked up in the
    dict built from the list. *)
Theorem brand_comparison_unknown_brand
    (g : list payload -> result (list float))
    (str_upper str_title : string -> string)
    (format_thousands format_percent : float -> string)
    (series_mean : list float -> float)
    all_brands selected f avg :
  well_behaved g -> selected ∉ all_brands ->
  calculate_brand_comparison_data g str_upper str_title format_thousands
    format_percent series_mean all_brands selected f avg = Raise KeyError.
Proof.
  intros Hg Hsel. unfold calculate_brand_comparison_data.
  destruct (initial_values_loop_spec g Hg f all_brands [])
    as (d & -> & _ & Hkeys).
  { split; [constructor|]. intros b v H. apply elem_of_nil in H. contradiction. }
  cbn [mbind result_bind]. rewrite dict_get_missing; [reflexivity|].
  rewrite Hkeys. unfold dict_keys. simpl. rewrite elem_of_nil. tauto.
Qed.

Lemma brand_comparison_unknown_brand_witness :
  calculate_brand_comparison_data sample_gateway (fun s => s) (fun s => s)
    (fun _ => ""%string) (fun _ => ""%string) (fun _ => F64.zero)
    ["seat"; "audi"]%string "volvo"%string sample_filters 10000
  = Raise KeyError.
Proof.
  apply (brand_comparison_unknown_brand sample_gateway).
  - apply sample_gateway_well_behaved.
  - intros H. repeat (apply elem_of_cons in H as [H|H]; [discriminate|]).
    apply elem_of_nil in H. exact H.
Defined.

(** ** create_display_mapping *)

(** X13.  [create_display_mapping] returns the display name of every
    option, in order, and a dict that knows exactly those display names;
    looking a display name up gives the last option with that name, so an
    option is found again through its display name when no later option
    shares it. *)
Theorem create_display_mapping_lookup original_list modifier_func :
  (create_display_mapping original_list modifier_func).1
  = map modifier_func original_list /\
  (forall s,
     s ∉ map modifier_func original_list ->
     dict_get s (create_display_mapping original_list modifier_func).2
     = Raise KeyError) /\
  (forall l1 x l2,
     original_list = l1 ++ x :: l2 ->
     modifier_func x ∉ map modifier_func l2 ->
     dict_get (modifier_func x)
       (create_display_mapping original_list modifier_func).2 = Ok x).
Proof.
  unfold create_display_mapping. cbn [fst snd].
  split; [reflexivity|]. split.
  - intros s Hs. apply dict_get_missing. rewrite dict_of_pairs_keys.
    change (map fst) with (@fmap list _ _ _ (@fst string string)).
    change (map modifier_func original_list)
      with (modifier_func <$> original_list) in *.
    rewrite fst_zip by (rewrite length_fmap; lia). exact Hs.
  - intros l1 x l2 -> Hx.
    rewrite map_app. simpl map.
    change (map modifier_func l1) with (modifier_func <$> l1).
    rewrite zip_with_app by (rewrite length_fmap; reflexivity).
    simpl. apply dict_of_pairs_last.
    change (map fst) with (@fmap list _ _ _ (@fst string string)).
    change (map modifier_func l2) with (modifier_func <$> l2) in *.
    rewrite fst_zip by (rewrite length_fmap; lia). exact Hx.
Qed.

Lemma create_display_mapping_lookup_witness :
  dict_get "BMW"%string
    (create_display_mapping ["bmw"; "Bmw"]%string (fun _ => "BMW"%string)).2
  = Ok "Bmw"%string.
Proof.
  apply (proj2 (proj2 (create_display_mapping_lookup ["bmw"; "Bmw"]%string
                         (fun _ => "BMW"%string)))
           ["bmw"%string] "Bmw"%string []).
  - reflexivity.
  - intros H. apply elem_of_nil in H. exact H.
Defined.

(** ** The preselected option of a selector *)

Lemma first_index_Some {A} (p : A -> bool) l (i : nat) :
  first_index p l = Some i <->
  exists x, l !! i = Some x /\ p x = true /\
            forall (j : nat) y, (j < i)%nat -> l !! j = Some y -> p y = false.
Proof.
  revert i. induction l as [|a l IH]; intros i; simpl.
  - split; [discriminate|]. intros (x & Hx & _). discriminate.
  - destruct (p a) eqn:Ha.
    + split.
      * intros H. inversion H. subst i. exists a.
        split; [reflexivity|]. split; [exact Ha|]. intros j y Hj. lia.
      * intros (x & Hx & Hpx & Hmin). destruct i as [|i]; [reflexivity|].
        specialize (Hmin 0%nat a ltac:(lia) eq_refl). congruence.
    + destruct (first_index p l) as [k|] eqn:Hk; simpl.
      * split.
        -- intros H. inversion H. subst i.
           destruct (proj1 (IH k) eq_refl) as (x & Hx & Hpx & Hmin).
           exists x. split; [exact Hx|]. split; [exact Hpx|].
           intros [|j] y Hj Hy; [inversion Hy; subst; exact Ha|].
           apply (Hmin j); [lia|exact Hy].
        -- intros (x & Hx & Hpx & Hmin). destruct i as [|i].
           ++ inversion Hx. congruence.
           ++ f_equal. assert (Some k = Some i) as E; [|congruence].
              apply IH. exists x. split; [exact Hx|]. split; [exact Hpx|].
              intros j y Hj Hy. apply (Hmin (S j)); [lia|exact Hy].
      * split; [discriminate|]. intros (x & Hx & Hpx & Hmin).
        destruct i as [|i]; [inversion Hx; congruence|].
        assert (None = Some i) as E; [|discriminate].
        apply IH. exists x. split; [exact Hx|]. split; [exact Hpx|].
        intros j y Hj Hy. apply (Hmin (S j)); [lia|exact Hy].
Qed.

Lemma first_index_None {A} (p : A -> bool) l :
  first_index p l = None <-> Forall (fun x => p x = false) l.
Proof.
  induction l as [|a l IH]; simpl.
  - split; [constructor|reflexivity].
  - rewrite Forall_cons. destruct (p a).
    + split; [discriminate|]. intros [? _]. discriminate.
    + rewrite <- IH. destruct (first_index p l); simpl;
        split; try discriminate; try tauto. intros [_ ?]. discriminate.
Qed.

(** X14.  The index [render_sidebar_filters] preselects in the fuel and
    brand selectors is always a position of the option list (the blank
    option followed by one display name per option).  When an option
    reads [wanted] in lower case, the preselected entry is the display
    name of the first such option; otherwise it is the blank option or the
    first display name. *)
Theorem default_option_index_valid
    (str_lower : string -> string) wanted original_list display_list :
  length display_list = length original_list ->
  (default_option_index str_lower wanted original_list display_list
   < length (selector_options display_list))%nat /\
  (forall (i : nat) orig,
     original_list !! i = Some orig -> str_lower orig = wanted ->
     (forall (j : nat) o,
        (j < i)%nat -> original_list !! j = Some o -> str_lower o <> wanted) ->
     selector_options display_list
       !! default_option_index str_lower wanted original_list display_list
     = display_list !! i) /\
  (Forall (fun o => str_lower o <> wanted) original_list ->
   (default_option_index str_lower wanted original_list display_list
    <= 1)%nat).
Proof.
  intros Hlen. unfold default_option_index, selector_options.
  set (p := fun orig => bool_decide (str_lower orig = wanted)).
  destruct (first_index p original_list) as [k|] eqn:Hk.
  - apply first_index_Some in Hk as (x & Hx & Hpx & Hmin).
    split; [|split].
    + simpl. apply lookup_lt_Some in Hx. lia.
    + intros i orig Hi Ho Hfirst. simpl.
      destruct (Nat.lt_trichotomy i k) as [Hlt|[->|Hgt]]; [| reflexivity |].
      * specialize (Hmin i orig Hlt Hi). unfold p in Hmin.
        apply bool_decide_eq_false in Hmin. contradiction.
      * unfold p in Hpx. apply bool_decide_eq_true in Hpx.
        exfalso. exact (Hfirst k x Hgt Hx Hpx).
    + intros Hall. exfalso. rewrite Forall_forall in Hall.
      unfold p in Hpx. apply bool_decide_eq_true in Hpx.
      apply (Hall x); [eapply list_elem_of_lookup_2, Hx|exact Hpx].
  - apply first_index_None in Hk. split; [|split].
    + destruct display_list as [|d l]; simpl; [lia|].
      destruct (str_bool d); lia.
    + intros i orig Hi Ho _. exfalso. rewrite Forall_forall in Hk.
      specialize (Hk orig ltac:(eapply list_elem_of_lookup_2, Hi)).
      unfold p in Hk. apply bool_decide_eq_false in Hk. contradiction.
    + intros _. destruct (head display_list) as [d|]; [destruct (str_bool d)|];
        lia.
Qed.

Lemma default_option_index_valid_witness :
  selector_options ["Diesel"; "Gasolina"]%string
    !! default_option_index (fun s => if String.eqb s "Gasolina"
                                      then "gasolina"%string else s)
         "gasolina"%string ["Diesel"; "Gasolina"]%string
         ["Diesel"; "Gasolina"]%string
  = ["Diesel"; "Gasolina"]%string !! 1%nat.
Proof.
  apply (proj1 (proj2 (default_option_index_valid
                         (fun s => if String.eqb s "Gasolina"
                                   then "gasolina"%string else s)
                         "gasolina"%string ["Diesel"; "Gasolina"]%string
                         ["Diesel"; "Gasolina"]%string eq_refl))
           1%nat "Gasolina"%string eq_refl eq_refl).
  intros j o Hj Ho. destruct j as [|j]; [|lia].
  inversion Ho. discriminate.
Defined.

(** ** build_comparison_data *)

(** X15.  The payloads [build_comparison_data] sends for a compared fuel
    type (or brand) are the dicts of the payloads
    [build_prediction_payloads] builds for the selection with that fuel
    type (or brand) in place of the selected one; for the selected value
    itself they are the payloads of the main prediction. *)
Theorem comparison_payloads_as_built f years val avg_km_per_year explicit_kms :
  Ok (comparison_payloads years val "fuel_type" (comparison_base_payload f)
        avg_km_per_year explicit_kms)
  = (fun payloads : list payload => map payload_dict payloads) <$>
    build_prediction_payloads years val (f_brand f) (f_segment f)
      (f_body_type f) avg_km_per_year explicit_kms /\
  Ok (comparison_payloads years val "brand" (comparison_base_payload f)
        avg_km_per_year explicit_kms)
  = (fun payloads : list payload => map payload_dict payloads) <$>
    build_prediction_payloads years (f_fuel_type f) val (f_segment f)
      (f_body_type f) avg_km_per_year explicit_kms.
Proof.
  unfold build_prediction_payloads, comparison_payloads.
  split; cbn [fmap result_fmap]; f_equal; apply list_eq; intros i;
    rewrite list_lookup_fmap, !list_lookup_imap;
    destruct (years !! i) as [y|]; reflexivity.
Qed.

Section comparison_facts.
Variable predict_func : list pydict -> result (list float).

Lemma comparison_loop_rows years values key base avg kms rows
    (answers : string -> list float) :
  (forall val, val ∈ values ->
     predict_func (comparison_payloads years val key base avg kms)
     = Ok (answers val)) ->
  comparison_loop predict_func years values key base avg kms rows
  = Ok (rows ++ concat (map (fun val => zip_with (comparison_row key val)
                                         years (answers val)) values)).
Proof.
  revert rows. induction values as [|val values IH]; intros rows Hans; simpl.
  - rewrite app_nil_r. reflexivity.
  - rewrite (Hans val) by left. cbn [mbind result_bind].
    rewrite IH, app_assoc; [reflexivity|].
    intros v Hv. apply Hans. right. exact Hv.
Qed.

Lemma comparison_loop_raises years l1 val l2 key base avg kms rows
    (answers : string -> list float) e :
  (forall v, v ∈ l1 ->
     predict_func (comparison_payloads years v key base avg kms)
     = Ok (answers v)) ->
  predict_func (comparison_payloads years val key base avg kms) = Raise e ->
  comparison_loop predict_func years (l1 ++ val :: l2) key base avg kms rows
  = Raise e.
Proof.
  revert rows. induction l1 as [|v l1 IH]; intros rows Hans He; simpl.
  - rewrite He. reflexivity.
  - rewrite (Hans v) by left. cbn [mbind result_bind].
    apply IH; [|exact He]. intros v' Hv'. apply Hans. right. exact Hv'.
Qed.

(** X16.  [build_comparison_data] asks for the predictions of one compared
    value after the other.  When every request is answered, the rows are
    those of the first value, then those of the second, and so on, each
    group pairing the years with the predictions in order.  When a request
    raises, the exception is the outcome of the call and no row is
    returned. *)
Theorem build_comparison_data_rows years key base avg kms
    (answers : string -> list float) :
  (forall values,
     (forall val, val ∈ values ->
        predict_func (comparison_payloads years val key base avg kms)
        = Ok (answers val)) ->
     build_comparison_data predict_func years values key base avg kms
     = Ok (concat (map (fun val => zip_with (comparison_row key val)
                                     years (answers val)) values))) /\
  (forall l1 val l2 e,
     (forall v, v ∈ l1 ->
        predict_func (comparison_payloads years v key base avg kms)
        = Ok (answers v)) ->
     predict_func (comparison_payloads years val key base avg kms)
     = Raise e ->
     build_comparison_data predict_func years (l1 ++ val :: l2) key base
       avg kms = Raise e).
Proof.
  split.
  - intros values Hans. unfold build_comparison_data.
    rewrite (comparison_loop_rows _ _ _ _ _ _ _ answers Hans). reflexivity.
  - intros l1 val l2 e Hans He. unfold build_comparison_data.
    apply (comparison_loop_raises _ _ _ _ _ _ _ _ _ answers); assumption.
Qed.

End comparison_facts.

Lemma build_comparison_data_rows_witness :
  build_comparison_data (fun ps => Ok (map (fun _ => F64.zero) ps))
    [0; 1] ["diesel"; "glp"]%string "fuel_type"
    (comparison_base_payload sample_filters) 10000 None
  = Ok (concat (map (fun val => zip_with (comparison_row "fuel_type" val)
                                  [0; 1] [F64.zero; F64.zero])
                  ["diesel"; "glp"]%string)).
Proof.
  apply (proj1 (build_comparison_data_rows
                  (fun ps => Ok (map (fun _ => F64.zero) ps))
                  [0; 1] "fuel_type" (comparison_base_payload sample_filters)
                  10000 None (fun _ => [F64.zero; F64.zero]))
           ["diesel"; "glp"]%string).
  intros val _. reflexivity.
Defined.

(** ** load_model *)

Section load_model_facts.
Context {path obj exc : Type} `{EqDecision path}.
Variable is_ModuleNotFoundError : exc -> bool.
Implicit Types (d : disk path obj exc) (c : model_cache path obj).

Local Abbreviation load := (load_model is_ModuleNotFoundError).

Lemma cache_hit_holds c model_path (model : obj) :
  _MODEL c = Some model -> _MODEL_PATH c = Some model_path ->
  forall p, cache_hit c p = bool_decide (p = model_path).
Proof.
  intros Hm Hp p. unfold cache_hit. rewrite Hm, Hp.
  rewrite (bool_decide_eq_true_2 _ (ltac:(eexists; reflexivity)
                                     : is_Some (Some model))).
  cbn [andb]. apply bool_decide_ext. split; congruence.
Qed.

Lemma load_model_miss d model_path c :
  cache_hit c model_path = false ->
  load d model_path c
  = if negb (path_exists d model_path) then (RaisedFileNotFoundError, c)
    else match joblib_load d model_path with
         | JRaise e =>
             if is_ModuleNotFoundError e then (RaisedImportError e, c)
             else (Propagated e, c)
         | JReturn model =>
             (Returned model, ModelCache model (Some model_path))
         end.
Proof. intros Hmiss. unfold load_model. rewrite Hmiss. reflexivity. Qed.

(** After a call has returned a model, the globals hold it for the path of
    the call. *)
Lemma load_model_returned d model_path c c' (model : obj) :
  load d model_path c = (Returned (Some model), c') ->
  _MODEL c' = Some model /\ _MODEL_PATH c' = Some model_path.
Proof.
  unfold load_model, cache_hit. intros H.
  destruct (bool_decide (is_Some (_MODEL c))
            && bool_decide (_MODEL_PATH c = Some model_path)) eqn:Hhit.
  - inversion H; subst.
    apply andb_true_iff in Hhit as [_ Hp].
    apply bool_decide_eq_true in Hp. split; [congruence|exact Hp].
  - destruct (negb (path_exists d model_path)); [discriminate|].
    destruct (joblib_load d model_path) as [m|e].
    + inversion H; subst. split; reflexivity.
    + destruct (is_ModuleNotFoundError e); discriminate.
Qed.

(** X17.  [load_model] keeps one model.  Once a call has returned a model
    for a path, the calls that follow with that path return the same model
    and leave the globals as they are, whatever the disk holds by then,
    through every sequence of calls in which each call with another path
    finds no file or one that [joblib.load] does not load.  A call with
    another path that returns takes the model's place in the globals: the
    next call with the first path has the outcome of a call with empty
    globals, and raises [FileNotFoundError] when the file is gone. *)
Theorem load_model_cached d model_path c c' (model : obj) :
  load_model is_ModuleNotFoundError d model_path c
  = (Returned (Some model), c') ->
  (forall calls,
     (forall d' p,
        (d', p) ∈ calls -> p <> model_path ->
        path_exists d' p = false \/
        forall m, joblib_load d' p <> JReturn m) ->
     exists outcomes,
       load_models is_ModuleNotFoundError calls c' = (outcomes, c') /\
       Forall2 (fun call outcome =>
                  call.2 = model_path -> outcome = Returned (Some model))
         calls outcomes) /\
  (forall d2 p2 m2 c2 d3,
     p2 <> model_path ->
     load_model is_ModuleNotFoundError d2 p2 c' = (Returned m2, c2) ->
     (load_model is_ModuleNotFoundError d3 model_path c2).1
     = (load_model is_ModuleNotFoundError d3 model_path
          (ModelCache None None)).1 /\
     (path_exists d3 model_path = false ->
      load_model is_ModuleNotFoundError d3 model_path c2
      = (RaisedFileNotFoundError, c2))).
Proof.
  intros H. apply load_model_returned in H as [Hm Hp].
  pose proof (cache_hit_holds c' model_path model Hm Hp) as Hhit.
  split.
  - induction calls as [|[d' p] calls IH]; intros Hother.
    + exists []. split; [reflexivity|constructor].
    + destruct IH as (outcomes & Hrun & Hall).
      { intros d'' p' Hin. apply Hother. right. exact Hin. }
      assert (exists outcome,
                load d' p c' = (outcome, c') /\
                (p = model_path -> outcome = Returned (Some model)))
        as (outcome & Hcall & Hsame).
      { destruct (decide (p = model_path)) as [->|Hne].
        - exists (Returned (Some model)). unfold load_model.
          rewrite Hhit, bool_decide_eq_true_2, Hm by reflexivity. auto.
        - rewrite load_model_miss
            by (rewrite Hhit; apply bool_decide_eq_false_2, Hne).
          destruct (Hother d' p ltac:(left) Hne) as [He|Hl].
          + rewrite He. simpl. eexists. split; [reflexivity|congruence].
          + destruct (negb (path_exists d' p));
              [eexists; split; [reflexivity|congruence]|].
            destruct (joblib_load d' p) as [m|e]; [destruct (Hl m eq_refl)|].
            destruct (is_ModuleNotFoundError e);
              eexists; (split; [reflexivity|congruence]). }
      exists (outcome :: outcomes). split.
      * cbn [load_models]. rewrite Hcall, Hrun. reflexivity.
      * constructor; [exact Hsame|exact Hall].
  - intros d2 p2 m2 c2 d3 Hne H2.
    rewrite load_model_miss in H2
      by (rewrite Hhit; apply bool_decide_eq_false_2, Hne).
    assert (c2 = ModelCache m2 (Some p2)) as ->.
    { destruct (negb (path_exists d2 p2)); [discriminate|].
      destruct (joblib_load d2 p2) as [m|e].
      - inversion H2; subst. reflexivity.
      - destruct (is_ModuleNotFoundError e); discriminate. }
    assert (cache_hit (ModelCache m2 (Some p2)) model_path = false) as Hmiss.
    { unfold cache_hit. cbn [_MODEL _MODEL_PATH].
      rewrite (bool_decide_eq_false_2 (Some p2 = Some model_path))
        by congruence.
      apply andb_false_r. }
    rewrite !(load_model_miss _ _ _ Hmiss), load_model_miss by reflexivity.
    split.
    + destruct (negb (path_exists d3 model_path)); [reflexivity|].
      destruct (joblib_load d3 model_path) as [m|e]; [reflexivity|].
      destruct (is_ModuleNotFoundError e); reflexivity.
    + intros ->. reflexivity.
Qed.

(** X18.  A call of [load_model] that does not return leaves the globals
    as they were.  It ends in the function's own [FileNotFoundError]
    exactly when the globals do not hold a model for the path and the file
    does not exist; in the function's own [ImportError], chained to its
    cause, exactly when they do not hold one, the file exists and
    [joblib.load] raises a [ModuleNotFoundError]; and every other
    exception of [joblib.load], an [ImportError] that is no
    [ModuleNotFoundError] or a [FileNotFoundError] among them, reaches the
    caller as it is. *)
Theorem load_model_failure d model_path c outcome c' :
  load_model is_ModuleNotFoundError d model_path c = (outcome, c') ->
  ((forall model, outcome <> Returned model) -> c' = c) /\
  (outcome = RaisedFileNotFoundError <->
   cache_hit c model_path = false /\ path_exists d model_path = false) /\
  (forall e,
     outcome = RaisedImportError e <->
     cache_hit c model_path = false /\ path_exists d model_path = true /\
     joblib_load d model_path = JRaise e /\
     is_ModuleNotFoundError e = true) /\
  (forall e,
     outcome = Propagated e <->
     cache_hit c model_path = false /\ path_exists d model_path = true /\
     joblib_load d model_path = JRaise e /\
     is_ModuleNotFoundError e = false).
Proof.
  unfold load_model.
  destruct (cache_hit c model_path) eqn:Hhit.
  - intros [= <- <-]. split; [reflexivity|].
    split; [split; [discriminate|intros [? _]; discriminate]|].
    split; intros e; (split; [discriminate|intros [? _]; discriminate]).
  - destruct (path_exists d model_path) eqn:He; cbn [negb].
    + destruct (joblib_load d model_path) as [m|e'] eqn:Hl.
      * intros [= <- <-].
        split; [intros Hne; destruct (Hne m eq_refl)|].
        split; [split; [discriminate|intros [_ ?]; discriminate]|].
        split; intros e;
          (split; [discriminate|intros (_ & _ & ? & _); discriminate]).
      * destruct (is_ModuleNotFoundError e') eqn:Hc; intros [= <- <-].
        -- split; [reflexivity|].
           split; [split; [discriminate|intros [_ ?]; discriminate]|].
           split; intros e.
           ++ split; [intros [= <-]; auto|].
              intros (_ & _ & [= <-] & _). reflexivity.
           ++ split; [discriminate|].
              intros (_ & _ & [= <-] & ?). congruence.
        -- split; [reflexivity|].
           split; [split; [discriminate|intros [_ ?]; discriminate]|].
           split; intros e.
           ++ split; [discriminate|].
              intros (_ & _ & [= <-] & ?). congruence.
           ++ split; [intros [= <-]; auto|].
              intros (_ & _ & [= <-] & _). reflexivity.
    + intros [= <- <-]. split; [reflexivity|].
      split; [split; [auto|reflexivity]|].
      split; intros e;
        (split; [discriminate|intros (_ & ? & _); discriminate]).
Qed.

End load_model_facts.

Lemma load_model_cached_witness :
  exists outcomes,
    load_models (fun _ : unit => false)
      [(Disk (fun _ : nat => false) (fun _ => JRaise tt), 1%nat);
       (Disk (fun _ : nat => false) (fun _ => JRaise tt), 2%nat);
       (Disk (fun _ : nat => true) (fun _ => JRaise tt), 1%nat)]
      (ModelCache (Some "model"%string) (Some 1%nat))
    = (outcomes, ModelCache (Some "model"%string) (Some 1%nat)) /\
    Forall2 (fun (call : disk nat string unit * nat) outcome =>
               call.2 = 1%nat -> outcome = Returned (Some "model"%string))
      [(Disk (fun _ : nat => false) (fun _ => JRaise tt), 1%nat);
       (Disk (fun _ : nat => false) (fun _ => JRaise tt), 2%nat);
       (Disk (fun _ : nat => true) (fun _ => JRaise tt), 1%nat)]
      outcomes.
Proof.
  apply (proj1 (load_model_cached (fun _ : unit => false)
                  (Disk (fun _ : nat => true)
                     (fun _ => JReturn (Some "model"%string)))
                  1%nat (ModelCache None None) _ "model"%string eq_refl)).
  intros d' p Hin Hne.
  repeat (apply elem_of_cons in Hin as [Hin|Hin];
          [inversion Hin; subst; first [congruence|right; discriminate]|]).
  apply elem_of_nil in Hin. contradiction.
Defined.

(** A loader that meets a plain [ImportError]: it is not a
    [ModuleNotFoundError], and passes through [load_model] as it is. *)
Lemma load_model_failure_witness :
  @Propagated string string "ImportError" = Propagated "ImportError" <->
  cache_hit (@ModelCache nat string None None) 1%nat = false /\
  Nat.eqb 1 1 = true /\
  @JRaise string string "ImportError" = JRaise "ImportError" /\
  String.eqb "ImportError" "ModuleNotFoundError" = false.
Proof.
  apply (proj2 (proj2 (proj2
           (load_model_failure
              (fun e => String.eqb e "ModuleNotFoundError")
              (Disk (fun p : nat => Nat.eqb p 1)
                 (fun _ => JRaise "ImportError"%string))
              1%nat (ModelCache None None)
              (Propagated "ImportError"%string) (ModelCache None None)
              eq_refl))) "ImportError"%string).
Defined.

(** A second path evicts the first: after path 2 has been loaded, a call
    with path 1 looks for the file again. *)
Example load_model_evicted :
  load_models (fun _ : unit => false)
    [(Disk (fun _ : nat => true) (fun _ => JReturn (Some "a"%string)), 1%nat);
     (Disk (fun _ : nat => true) (fun _ => JReturn (Some "b"%string)), 2%nat);
     (Disk (fun _ : nat => false) (fun _ => JRaise tt), 1%nat)]
    (ModelCache None None)
  = ([Returned (Some "a"%string); Returned (Some "b"%string);
      RaisedFileNotFoundError],
     ModelCache (Some "b"%string) (Some 2%nat)).
Proof. reflexivity. Qed.

(** ** The Vehicle Review block *)

Lemma rows_where_none (keep : Z -> bool) years (col : list float) :
  Forall (fun y => keep y = false) years -> rows_where keep years col = [].
Proof.
  unfold rows_where. revert col.
  induction years as [|y years IH]; intros col Hall; [reflexivity|].
  destruct col as [|c col]; [reflexivity|].
  apply Forall_cons in Hall as [Hy Hall]. simpl.
  rewrite filter_cons_False by (simpl; congruence).
  apply IH, Hall.
Qed.

(** The frame the handler hands to the review block: the output of
    [calculate_depreciation_metrics] for the frame of the trajectory. *)
Lemma handler_frame years kms preds fr (h : store) (df : loc) :
  new_frame years kms preds = Ok fr ->
  exists out h' df_out,
    calculate_depreciation_metrics df (<[df := fr]> h) = Some (out, h') /\
    h' !! out = Some df_out /\
    year df_out = years /\
    prediction df_out = map F64.round2 preds /\
    length preds = length years /\
    extra df_out !! "value"%string = None /\
    extra df_out !! "depreciation"%string
    = Some (series_round2 (depreciation_of preds)) /\
    extra df_out !! "depreciation_pct"%string
    = Some (series_round2 (depreciation_pct_of preds)).
Proof.
  unfold new_frame. intros H.
  destruct (Nat.eqb_spec (length years) (length kms)) as [E1|]; [|discriminate].
  destruct (Nat.eqb_spec (length years) (length preds)) as [E2|]; [|discriminate].
  inversion H; subst fr. clear H.
  destruct (calculate_depreciation_metrics_result (<[df := Frame years kms preds ∅]> h)
              df _ (store_lookup_insert _ _ _))
    as (fr' & Hcalc & Hy & _ & Hp & Hdep & Hpct & _ & Hother).
  eexists _, _, fr'. split; [exact Hcalc|]. split; [apply store_lookup_insert|].
  split; [exact Hy|]. split; [exact Hp|]. split; [congruence|].
  split; [|split; [exact Hdep|exact Hpct]].
  rewrite Hother by discriminate. reflexivity.
Qed.

(** X19.  For a vehicle aged 10 or more the trajectory has no row of
    age 0, so the review block fails on the initial value: it shows its
    introduction and ends with [IndexError], before the metrics and
    before the brand comparison. *)
Theorem vehicle_review_without_year_0
    (g : list payload -> result (list float))
    (str_upper str_title : string -> string)
    (format_thousands format_percent : float -> string)
    (series_mean : list float -> float)
    f all_brands cur_age cur_km e years kms avg preds fr
    (h h' : store) (df out : loc) df_out :
  10 <= cur_age ->
  calculate_years_and_kms cur_age cur_km e = Ok (years, kms, avg) ->
  new_frame years kms preds = Ok fr ->
  calculate_depreciation_metrics df (<[df := fr]> h) = Some (out, h') ->
  h' !! out = Some df_out ->
  vehicle_review g str_upper str_title format_thousands format_percent
    series_mean f df_out avg all_brands
  = ([ReviewIntro (f_brand f) (f_segment f) (f_fuel_type f)],
     Some IndexError).
Proof.
  intros Hage Hcalc Hfr Hm Hout.
  destruct (handler_frame years kms preds fr h df Hfr)
    as (out' & h'' & df_out' & Hm' & Hout' & Hy & Hp & _ & Hval & _).
  rewrite Hm in Hm'. inversion Hm'; subst out' h''. clear Hm'.
  rewrite Hout in Hout'. inversion Hout'; subst df_out'. clear Hout'.
  apply calculate_years_and_kms_ok in Hcalc as (_ & Hyears & _).
  destruct (Z.ltb_spec cur_age 10); [lia|].
  unfold vehicle_review. rewrite Hval, Hy.
  rewrite rows_where_none; [reflexivity|].
  rewrite Hyears. repeat constructor; lia.
Qed.

Lemma vehicle_review_without_year_0_witness :
  exists out h' df_out,
    calculate_depreciation_metrics 0%nat
      (<[0%nat := Frame [12; 13; 14; 15] [120000; 130000; 140000; 150000]
                    [F64.of_int 4; F64.of_int 3; F64.of_int 2; F64.of_int 1]
                    ∅]> ∅)
    = Some (out, h') /\
    h' !! out = Some df_out /\
    vehicle_review sample_gateway (fun s => s) (fun s => s)
      (fun _ => ""%string) (fun _ => ""%string) (fun _ => F64.zero)
      sample_filters df_out 10000 ["seat"; "audi"]%string
    = ([ReviewIntro "seat" "compacto" "gasolina"], Some IndexError).
Proof.
  destruct (handler_frame [12; 13; 14; 15] [120000; 130000; 140000; 150000]
              [F64.of_int 4; F64.of_int 3; F64.of_int 2; F64.of_int 1]
              _ ∅ 0%nat eq_refl) as (out & h' & df_out & Hm & Hout & _).
  exists out, h', df_out. split; [exact Hm|]. split; [exact Hout|].
  apply (vehicle_review_without_year_0 sample_gateway (fun s => s)
           (fun s => s) (fun _ => ""%string) (fun _ => ""%string)
           (fun _ => F64.zero) sample_filters ["seat"; "audi"]%string
           12 120000 None [12; 13; 14; 15]
           [120000; 130000; 140000; 150000] 10000
           [F64.of_int 4; F64.of_int 3; F64.of_int 2; F64.of_int 1]
           _ ∅ h' 0%nat out df_out ltac:(lia) ltac:(vm_compute; reflexivity)
           eq_refl Hm Hout).
Defined.

Lemma rows_where_year_0 (col : list float) c0 rest :
  col = c0 :: rest ->
  rows_where (fun y => y =? 0) [0; 1; 2; 3; 4; 5; 6; 7; 8; 9; 10] col = [c0].
Proof.
  intros ->. unfold rows_where.
  do 10 (destruct rest as [|? rest]; [reflexivity|]). reflexivity.
Qed.

Lemma rows_where_later_years (col : list float) :
  length col = 11%nat ->
  rows_where (fun y => negb (y =? 0)) [0; 1; 2; 3; 4; 5; 6; 7; 8; 9; 10] col
  = tail col.
Proof.
  intros H. do 11 (destruct col as [|? col]; [discriminate|]).
  destruct col; [reflexivity|discriminate].
Qed.

(** X20.  For a vehicle younger than 10 the review block always gets past
    the metrics: the initial value shown is the first prediction rounded
    to 2 decimals, and the two annual averages are taken over every row of
    the trajectory but the first.  What follows is the outcome of
    [calculate_brand_comparison_data]: its table, or its exception. *)
Theorem vehicle_review_with_year_0
    (g : list payload -> result (list float))
    (str_upper str_title : string -> string)
    (format_thousands format_percent : float -> string)
    (series_mean : list float -> float)
    f all_brands cur_age cur_km e years kms avg preds fr
    (h h' : store) (df out : loc) df_out :
  cur_age < 10 ->
  calculate_years_and_kms cur_age cur_km e = Ok (years, kms, avg) ->
  new_frame years kms preds = Ok fr ->
  calculate_depreciation_metrics df (<[df := fr]> h) = Some (out, h') ->
  h' !! out = Some df_out ->
  exists v0 rest,
    preds = v0 :: rest /\
    vehicle_review g str_upper str_title format_thousands format_percent
      series_mean f df_out avg all_brands
    = let intro := ReviewIntro (f_brand f) (f_segment f) (f_fuel_type f) in
      let metrics :=
        Metrics (format_thousands (F64.round2 v0))
          (format_percent
             (series_mean (tail (series_round2 (depreciation_pct_of preds)))))
          (format_thousands
             (series_mean (tail (series_round2 (depreciation_of preds))))) in
      match
        calculate_brand_comparison_data g str_upper str_title
          format_thousands format_percent series_mean all_brands (f_brand f)
          f avg
      with
      | Raise exc => ([intro; metrics], Some exc)
      | Ok comparison_data =>
          ([intro; metrics; ComparisonTable comparison_data], None)
      end.
Proof.
  intros Hage Hcalc Hfr Hm Hout.
  destruct (handler_frame years kms preds fr h df Hfr)
    as (out' & h'' & df_out' & Hm' & Hout' & Hy & Hp & Hlen & Hval & Hdep & Hpct).
  rewrite Hm in Hm'. inversion Hm'; subst out' h''. clear Hm'.
  rewrite Hout in Hout'. inversion Hout'; subst df_out'. clear Hout'.
  apply calculate_years_and_kms_ok in Hcalc as (_ & Hyears & _).
  destruct (Z.ltb_spec cur_age 10); [|lia].
  rewrite Hyears in Hlen, Hy. change (length [0; 1; 2; 3; 4; 5; 6; 7; 8; 9; 10]) with 11%nat in Hlen.
  destruct preds as [|v0 rest]; [discriminate|].
  exists v0, rest. split; [reflexivity|].
  unfold vehicle_review. rewrite Hval, Hy, Hp, Hdep, Hpct.
  rewrite (rows_where_year_0 _ (F64.round2 v0) (map F64.round2 rest))
    by reflexivity.
  cbn [index0].
  rewrite !rows_where_later_years; [reflexivity| |];
    unfold series_round2; rewrite length_map.
  - rewrite length_depreciation_of. exact Hlen.
  - rewrite length_depreciation_pct_of. exact Hlen.
Qed.

Lemma vehicle_review_with_year_0_witness :
  exists out h' df_out v0 rest,
    calculate_depreciation_metrics 0%nat
      (<[0%nat := Frame [0; 1; 2; 3; 4; 5; 6; 7; 8; 9; 10]
                    [0; 6667; 13333; 20000; 29000; 38000; 47000; 56000;
                     65000; 74000; 83000]
                    (replicate 11 (F64.of_int 9000)) ∅]> ∅)
    = Some (out, h') /\
    h' !! out = Some df_out /\
    replicate 11 (F64.of_int 9000) = v0 :: rest /\
    vehicle_review sample_gateway (fun s => s) (fun s => s)
      (fun _ => ""%string) (fun _ => ""%string) (fun _ => F64.zero)
      sample_filters df_out 6666 ["seat"; "audi"]%string
    = let intro := ReviewIntro "seat" "compacto" "gasolina" in
      let metrics :=
        Metrics ((fun _ => ""%string) (F64.round2 v0))
          ((fun _ => ""%string)
             ((fun _ => F64.zero)
                (tail (series_round2
                         (depreciation_pct_of
                            (replicate 11 (F64.of_int 9000)))))))
          ((fun _ => ""%string)
             ((fun _ => F64.zero)
                (tail (series_round2
                         (depreciation_of
                            (replicate 11 (F64.of_int 9000))))))) in
      match
        calculate_brand_comparison_data sample_gateway (fun s => s)
          (fun s => s) (fun _ => ""%string) (fun _ => ""%string)
          (fun _ => F64.zero) ["seat"; "audi"]%string "seat"%string
          sample_filters 6666
      with
      | Raise exc => ([intro; metrics], Some exc)
      | Ok comparison_data =>
          ([intro; metrics; ComparisonTable comparison_data], None)
      end.
Proof.
  destruct (handler_frame [0; 1; 2; 3; 4; 5; 6; 7; 8; 9; 10]
              [0; 6667; 13333; 20000; 29000; 38000; 47000; 56000; 65000;
               74000; 83000] (replicate 11 (F64.of_int 9000))
              _ ∅ 0%nat eq_refl) as (out & h' & df_out & Hm & Hout & _).
  destruct (vehicle_review_with_year_0 sample_gateway (fun s => s)
              (fun s => s) (fun _ => ""%string) (fun _ => ""%string)
              (fun _ => F64.zero) sample_filters ["seat"; "audi"]%string
              3 20000 (Some 9000) [0; 1; 2; 3; 4; 5; 6; 7; 8; 9; 10]
              [0; 6667; 13333; 20000; 29000; 38000; 47000; 56000; 65000;
               74000; 83000] 6666 (replicate 11 (F64.of_int 9000))
              _ ∅ h' 0%nat out df_out ltac:(lia)
              ltac:(vm_compute; reflexivity) eq_refl Hm Hout)
    as (v0 & rest & Hv & Hr).
  exists out, h', df_out, v0, rest.
  split; [exact Hm|]. split; [exact Hout|]. split; [exact Hv|exact Hr].
Defined.

(** ** format_dataframe_for_display *)

(** Induction on a list, three elements at a time. *)
Lemma list_ind3 {A} (P : list A -> Prop) :
  P [] -> (forall a, P [a]) -> (forall a b, P [a; b]) ->
  (forall a b c, P [a; b; c]) ->
  (forall a b c d rest, P (d :: rest) -> P (a :: b :: c :: d :: rest)) ->
  forall l, P l.
Proof.
  intros H0 H1 H2 H3 Hstep l.
  assert (forall (n : nat) l, (length l <= n)%nat -> P l) as Hn.
  { clear l. induction n as [|n IH]; intros l Hl.
    - destruct l; [exact H0|simpl in Hl; lia].
    - destruct l as [|a [|b [|c [|d rest]]]]; auto.
      apply Hstep, IH. simpl in Hl |- *. lia. }
  apply (Hn (length l)). lia.
Qed.

Lemma group3_rev_step sep (a b c d : ascii) rest :
  group3_rev sep (a :: b :: c :: d :: rest)
  = a :: b :: c :: sep :: group3_rev sep (d :: rest).
Proof. reflexivity. Qed.

Lemma group3_rev_filter sep l :
  sep ∉ l -> filter (fun c => c <> sep) (group3_rev sep l) = l.
Proof.
  induction l as [|a|a b|a b c|a b c d rest IH] using list_ind3; intros Hs.
  - reflexivity.
  - rewrite not_elem_of_cons in Hs. destruct Hs as [Ha _]. simpl.
    rewrite filter_cons_True by congruence. reflexivity.
  - rewrite !not_elem_of_cons in Hs. destruct Hs as (Ha & Hb & _). simpl.
    rewrite !filter_cons_True by congruence. reflexivity.
  - rewrite !not_elem_of_cons in Hs. destruct Hs as (Ha & Hb & Hc & _). simpl.
    rewrite !filter_cons_True by congruence. reflexivity.
  - rewrite group3_rev_step.
    rewrite !not_elem_of_cons in Hs. destruct Hs as (Ha & Hb & Hc & Hd & Hr).
    rewrite !filter_cons_True by congruence.
    rewrite filter_cons_False by (intros H; apply H; reflexivity).
    rewrite IH; [reflexivity|]. rewrite not_elem_of_cons. auto.
Qed.

Lemma group3_rev_replace old new l :
  old ∉ l ->
  map (fun c => if Ascii.eqb c old then new else c) (group3_rev old l)
  = group3_rev new l.
Proof.
  assert (forall c, c <> old -> (if Ascii.eqb c old then new else c) = c) as Hk.
  { intros c Hc. destruct (Ascii.eqb_spec c old); [contradiction|reflexivity]. }
  induction l as [|a|a b|a b c|a b c d rest IH] using list_ind3; intros Hs;
    rewrite ?not_elem_of_cons in Hs.
  - reflexivity.
  - destruct Hs as [Ha _]. simpl. rewrite Hk by congruence. reflexivity.
  - destruct Hs as (Ha & Hb & _). simpl. rewrite !Hk by congruence. reflexivity.
  - destruct Hs as (Ha & Hb & Hc & _). simpl. rewrite !Hk by congruence.
    reflexivity.
  - destruct Hs as (Ha & Hb & Hc & Hd & Hr). rewrite !group3_rev_step.
    cbn [map]. rewrite !Hk by congruence. rewrite Ascii.eqb_refl.
    rewrite IH; [reflexivity|]. rewrite not_elem_of_cons. auto.
Qed.

Lemma group3_rev_positions sep l (i : nat) c :
  sep ∉ l -> group3_rev sep l !! i = Some c ->
  (c = sep <-> (i mod 4 = 3)%nat).
Proof.
  revert i.
  induction l as [|a|a b|a b c0|a b c0 d rest IH] using list_ind3;
    intros i Hs Hi; rewrite ?not_elem_of_cons in Hs.
  - discriminate.
  - destruct Hs as [Ha _]. destruct i as [|i]; [|discriminate].
    inversion Hi; subst. split; [congruence|discriminate].
  - destruct Hs as (Ha & Hb & _).
    destruct i as [|[|i]]; try discriminate; inversion Hi; subst;
      (split; [congruence|discriminate]).
  - destruct Hs as (Ha & Hb & Hc & _).
    destruct i as [|[|[|i]]]; try discriminate; inversion Hi; subst;
      (split; [congruence|discriminate]).
  - destruct Hs as (Ha & Hb & Hc & Hd & Hr). rewrite group3_rev_step in Hi.
    destruct i as [|[|[|[|i]]]].
    + inversion Hi; subst. split; [congruence|discriminate].
    + inversion Hi; subst. split; [congruence|discriminate].
    + inversion Hi; subst. split; [congruence|discriminate].
    + inversion Hi; subst. split; reflexivity.
    + replace (S (S (S (S i)))) with (i + 1 * 4)%nat by lia.
      rewrite Nat.Div0.mod_add. apply IH; [|exact Hi].
      rewrite not_elem_of_cons. auto.
Qed.

(** The digits of a numeral are not separators. *)
Lemma decimal_digits_plain n :
  (","%char ∉ decimal_digits n) /\ ("."%char ∉ decimal_digits n).
Proof.
  unfold decimal_digits.
  assert (forall d,
            (","%char ∉ list_ascii_of_string (NilEmpty.string_of_uint d)) /\
            ("."%char ∉ list_ascii_of_string (NilEmpty.string_of_uint d)))
    as H.
  { induction d as [|d [IH1 IH2]|d [IH1 IH2]|d [IH1 IH2]|d [IH1 IH2]
                   |d [IH1 IH2]|d [IH1 IH2]|d [IH1 IH2]|d [IH1 IH2]
                   |d [IH1 IH2]|d [IH1 IH2]]; simpl;
      rewrite ?not_elem_of_cons; repeat split; try assumption;
      try discriminate; apply not_elem_of_nil. }
  destruct (N.to_uint (Z.to_N n)) eqn:E; try apply H.
  simpl. rewrite !not_elem_of_cons. repeat split; try discriminate;
    apply not_elem_of_nil.
Qed.

Lemma read_decimal_digits n :
  0 <= n ->
  NilZero.uint_of_string (string_of_list_ascii (decimal_digits n))
  = Some (N.to_uint (Z.to_N n)).
Proof.
  intros Hn. unfold decimal_digits. rewrite string_of_list_ascii_of_string.
  apply NilZero.usu. destruct (Z.to_N n); simpl; [discriminate|].
  apply DecimalPos.Unsigned.to_uint_nonnil.
Qed.

(** The text of a number below [2^53] formatted with [,.0f]. *)
Lemma format_comma_f0_int_small n :
  0 <= n < 2 ^ 53 ->
  format_comma_f0_int n
  = Ok (string_of_list_ascii (group_thousands "," (decimal_digits n))).
Proof.
  intros Hn. unfold format_comma_f0_int.
  destruct (Z.eq_dec n 0) as [->|Hne]; [reflexivity|].
  destruct (of_int_value n ltac:(lia)) as (m & k & Hfy & Hm & Hk & _ & _).
  unfold float_of_int. rewrite Hfy. cbn [mbind result_bind].
  assert ((if 0 <=? - k then Z.pos m * 2 ^ (- k)
           else F64.round_half_even (Z.pos m) (2 ^ (- - k))) = n) as E.
  { destruct (Z.leb_spec 0 (- k)).
    - assert (k = 0) as -> by lia. change (- 0) with 0.
      rewrite Z.pow_0_r in *. lia.
    - rewrite Z.opp_involutive, Hm. apply round_half_even_exact.
      apply Z.pow_pos_nonneg; lia. }
  unfold format_comma_f0. rewrite E. reflexivity.
Qed.

(** X21.  The km shown in the results table is the mileage itself: for a
    mileage below [2^53] the cell holds its decimal digits with a dot
    before every group of three digits counted from the right, so that
    reading the cell back without the dots gives the mileage. *)
Theorem km_cell_shows_mileage n :
  0 <= n < 2 ^ 53 ->
  exists s,
    km_cell n = Ok s /\
    read_thousands "." s = Some n /\
    filter (fun c => c <> "."%char) (list_ascii_of_string s)
    = decimal_digits n /\
    forall (i : nat) c,
      reverse (list_ascii_of_string s) !! i = Some c ->
      (c = "."%char <-> (i mod 4 = 3)%nat).
Proof.
  intros Hn. destruct (decimal_digits_plain n) as [Hcomma Hdot].
  exists (string_of_list_ascii (group_thousands "." (decimal_digits n))).
  assert (filter (fun c => c <> "."%char)
            (group_thousands "." (decimal_digits n)) = decimal_digits n)
    as Hfilter.
  { unfold group_thousands. rewrite filter_reverse, group3_rev_filter.
    - apply reverse_involutive.
    - rewrite elem_of_reverse. exact Hdot. }
  split; [|split; [|split]].
  - unfold km_cell. rewrite format_comma_f0_int_small by exact Hn.
    cbn [fmap result_fmap]. f_equal. unfold str_replace.
    rewrite list_ascii_of_string_of_list_ascii. f_equal.
    unfold group_thousands.
    change (map (fun c => if Ascii.eqb c "," then "."%char else c))
      with (@fmap list _ _ _ (fun c => if Ascii.eqb c "," then "."%char else c)).
    rewrite fmap_reverse. f_equal.
    apply group3_rev_replace. rewrite elem_of_reverse. exact Hcomma.
  - unfold read_thousands. rewrite list_ascii_of_string_of_list_ascii, Hfilter.
    rewrite read_decimal_digits by lia. cbn [mbind option_bind].
    rewrite DecimalN.Unsigned.of_to, Z2N.id by lia. reflexivity.
  - rewrite list_ascii_of_string_of_list_ascii. exact Hfilter.
  - intros i c. rewrite list_ascii_of_string_of_list_ascii.
    unfold group_thousands. rewrite reverse_involutive.
    apply group3_rev_positions. rewrite elem_of_reverse. exact Hdot.
Qed.

Lemma km_cell_shows_mileage_witness :
  exists s,
    km_cell 1234567 = Ok s /\
    read_thousands "." s = Some 1234567 /\
    filter (fun c => c <> "."%char) (list_ascii_of_string s)
    = decimal_digits 1234567 /\
    forall (i : nat) c,
      reverse (list_ascii_of_string s) !! i = Some c ->
      (c = "."%char <-> (i mod 4 = 3)%nat).
Proof. apply (km_cell_shows_mileage 1234567). split; [lia|reflexivity]. Defined.

Example km_cell_sample : km_cell 1234567 = Ok "1.234.567"%string.
Proof. vm_compute. reflexivity. Qed.

Lemma format_comma_f0_int_raise x e :
  format_comma_f0_int x = Raise e -> e = OverflowError.
Proof.
  unfold format_comma_f0_int, float_of_int.
  destruct (F64.of_int x); simpl; intros H; inversion H; reflexivity.
Qed.

Lemma km_cell_raise x e : km_cell x = Raise e -> e = OverflowError.
Proof.
  unfold km_cell. destruct (format_comma_f0_int x) eqn:E; simpl; intros H;
    inversion H; subst. eapply format_comma_f0_int_raise, E.
Qed.

Lemma value_cell_raise x e :
  value_cell x = Raise e -> e = ValueError \/ e = OverflowError.
Proof.
  unfold value_cell. destruct (round_float x) as [n|e'] eqn:E; simpl.
  - destruct (format_comma_f0_int n) eqn:E'; simpl; intros H; inversion H; subst.
    right. eapply format_comma_f0_int_raise, E'.
  - intros H. inversion H; subst.
    destruct x; simpl in E; inversion E; auto.
Qed.

Lemma series_apply_raise {A B} (func : A -> result B) (P : exn -> Prop) cells e :
  (forall x e, func x = Raise e -> P e) ->
  series_apply func cells = Raise e -> P e.
Proof.
  intros Hf. induction cells as [|x cells IH]; simpl; [discriminate|].
  destruct (func x) as [y|e'] eqn:Ex; simpl.
  - destruct (series_apply func cells); simpl; [discriminate|].
    intros H. inversion H; subst. apply IH. reflexivity.
  - intros H. inversion H; subst. eapply Hf, Ex.
Qed.

Lemma series_apply_fails {A B} (func : A -> result B) cells x e :
  x ∈ cells -> func x = Raise e ->
  exists e', series_apply func cells = Raise e'.
Proof.
  intros Hx He. induction cells as [|y cells IH]; simpl.
  - apply elem_of_nil in Hx. contradiction.
  - destruct (func y) as [z|e'] eqn:Ey; simpl; [|eauto].
    apply elem_of_cons in Hx as [->|Hx]; [congruence|].
    destruct (IH Hx) as [e'' ->]. simpl. eauto.
Qed.

(** What formatting raises when a price is missing. *)
Lemma format_dataframe_nan_price (format_2f : float -> string) df :
  F64.nan ∈ prediction df ->
  format_dataframe_for_display format_2f df = Raise ValueError \/
  format_dataframe_for_display format_2f df = Raise OverflowError.
Proof.
  intros Hnan. unfold format_dataframe_for_display.
  destruct (series_apply km_cell (km df)) as [kms|e] eqn:Ekm; simpl.
  - destruct (series_apply_fails value_cell (prediction df) F64.nan ValueError
                Hnan eq_refl) as [e He].
    rewrite He. simpl.
    destruct (series_apply_raise value_cell
                (fun e => e = ValueError \/ e = OverflowError) _ e
                value_cell_raise He) as [->| ->]; auto.
  - right. f_equal.
    apply (series_apply_raise km_cell (fun e => e = OverflowError) _ e
             km_cell_raise Ekm).
Qed.

(** X22.  When one of the predictions is missing (NaN), the table of
    results cannot be formatted: [format_dataframe_for_display], applied
    to the output of [calculate_depreciation_metrics], raises
    [ValueError] (or [OverflowError], when a number before the missing one
    is too large for a float), so the handler shows the exception instead
    of the results. *)
Theorem format_fails_on_missing_price (format_2f : float -> string)
    years kms preds fr (h h' : store) (df out : loc) df_out :
  new_frame years kms preds = Ok fr ->
  F64.nan ∈ preds ->
  calculate_depreciation_metrics df (<[df := fr]> h) = Some (out, h') ->
  h' !! out = Some df_out ->
  format_dataframe_for_display format_2f df_out = Raise ValueError \/
  format_dataframe_for_display format_2f df_out = Raise OverflowError.
Proof.
  intros Hfr Hnan Hm Hout.
  destruct (handler_frame years kms preds fr h df Hfr)
    as (out' & h'' & df_out' & Hm' & Hout' & _ & Hp & _).
  rewrite Hm in Hm'. inversion Hm'; subst out' h''. clear Hm'.
  rewrite Hout in Hout'. inversion Hout'; subst df_out'. clear Hout'.
  apply format_dataframe_nan_price. rewrite Hp.
  change (map F64.round2 preds) with (F64.round2 <$> preds).
  apply list_elem_of_fmap. exists F64.nan. split; [reflexivity|exact Hnan].
Qed.

Lemma format_fails_on_missing_price_witness :
  exists out h' df_out,
    calculate_depreciation_metrics 0%nat
      (<[0%nat := Frame [0; 1] [0; 10000] [F64.of_int 9000; F64.nan] ∅]> ∅)
    = Some (out, h') /\
    h' !! out = Some df_out /\
    (format_dataframe_for_display (fun _ => ""%string) df_out
     = Raise ValueError \/
     format_dataframe_for_display (fun _ => ""%string) df_out
     = Raise OverflowError).
Proof.
  destruct (handler_frame [0; 1] [0; 10000] [F64.of_int 9000; F64.nan]
              _ ∅ 0%nat eq_refl) as (out & h' & df_out & Hm & Hout & _).
  exists out, h', df_out. split; [exact Hm|]. split; [exact Hout|].
  apply (format_fails_on_missing_price (fun _ => ""%string) [0; 1] [0; 10000]
           [F64.of_int 9000; F64.nan] _ ∅ h' 0%nat out df_out eq_refl);
    [|exact Hm|exact Hout].
  right. left.
Defined.

(** ** render_results_table *)

(** X23.  In the results table of a trajectory computed by
    [calculate_years_and_kms] for an age that is not negative, exactly one
    row is highlighted: the row of the selected age. *)
Theorem results_table_highlights_selected_age
    cur_age cur_km e years kms avg (row_width : nat) :
  0 <= cur_age -> (0 < row_width)%nat ->
  calculate_years_and_kms cur_age cur_km e = Ok (years, kms, avg) ->
  exists i : nat,
    years !! i = Some cur_age /\
    forall (j : nat) styles,
      results_table_styles years cur_age row_width !! j = Some styles ->
      (styles = replicate row_width "background-color: #232635"%string
       <-> j = i).
Proof.
  intros Hage Hw H.
  apply calculate_years_and_kms_ok in H as (_ & Hyears & _).
  assert (exists i : nat,
            years !! i = Some cur_age /\
            forall (j : nat) y, years !! j = Some y -> (y = cur_age <-> j = i))
    as (i & Hi & Huniq).
  { rewrite Hyears. destruct (Z.ltb_spec cur_age 10).
    - exists (Z.to_nat cur_age). split.
      + assert (cur_age = 0 \/ cur_age = 1 \/ cur_age = 2 \/ cur_age = 3 \/
                cur_age = 4 \/ cur_age = 5 \/ cur_age = 6 \/ cur_age = 7 \/
                cur_age = 8 \/ cur_age = 9) as Hc by lia.
        repeat (destruct Hc as [->|Hc]; [reflexivity|]). rewrite Hc. reflexivity.
      + intros j y Hj.
        do 11 (destruct j as [|j]; [inversion Hj; subst; lia|]).
        discriminate.
    - exists 0%nat. split; [reflexivity|]. intros j y Hj.
      do 4 (destruct j as [|j]; [inversion Hj; subst; lia|]).
      discriminate. }
  exists i. split; [exact Hi|]. intros j styles Hj.
  unfold results_table_styles in Hj.
  change (map ?f years) with (f <$> years) in Hj.
  rewrite list_lookup_fmap in Hj.
  destruct (years !! j) as [y|] eqn:Ey; [|discriminate].
  inversion Hj as [Hs]. clear Hj. rewrite <- (Huniq j y Ey).
  unfold highlight_selected_year. cbn [append].
  destruct (Z.eqb_spec y cur_age) as [->|Hne].
  - split; reflexivity.
  - split; [|contradiction]. intros E. exfalso.
    destruct row_width as [|w]; [lia|]. simpl in E. discriminate.
Qed.

Lemma results_table_highlights_selected_age_witness :
  exists i : nat,
    [0; 1; 2; 3; 4; 5; 6; 7; 8; 9; 10] !! i = Some 3 /\
    forall (j : nat) styles,
      results_table_styles [0; 1; 2; 3; 4; 5; 6; 7; 8; 9; 10] 3 6 !! j
      = Some styles ->
      (styles = replicate 6 "background-color: #232635"%string <-> j = i).
Proof.
  apply (results_table_highlights_selected_age 3 20000 (Some 9000) _
           [0; 6667; 13333; 20000; 29000; 38000; 47000; 56000; 65000; 74000;
            83000] 6666 6).
  - lia.
  - lia.
  - vm_compute. reflexivity.
Defined.

